(** * Kaspa wallet core: address codec and transaction signing engine

    A shallow embedding of [src/lib/address.ts] and [src/lib/transaction.ts]
    and the properties of their specification, followed by the code that
    uses them: the address helpers of [src/lib/wallet.ts] and the coin
    selection and send path of [src/stores/walletStore.ts].

    Conventions of the embedding.
    - A JavaScript [number] that holds an integer, and a [bigint], is a [Z].
      The 32-bit operators ([<<], [>>], [>>>], [&], [|], [^]) are written out
      with their conversion to a 32-bit integer.
    - A [Uint8Array] (and a [Buffer]) is a [list Z]; storing into one reduces
      the value modulo 256, and a store outside its length is ignored.
    - A JavaScript string is a [string] of 8-bit characters. Case mapping is
      the ASCII one; statements that quantify over arbitrary address strings
      restrict them to ASCII, where [toLowerCase]/[toUpperCase] agree with it.
    - A thrown [Error] is the [Err] branch of [Result]; the error kinds are
      named after the taxonomy of the specification, one per message.
    - The cryptographic and encoding primitives of the imported packages
      (BLAKE2b, Schnorr signing, private-key validation, hex parsing) are the
      fields of the class [Primitives]. *)

From Stdlib Require Import ZArith List String Ascii Bool Lia Arith.
From Stdlib Require Import DecimalString DecimalZ.
From Stdlib Require Import Permutation Sorted.
From coqutil Require Import Z.bitblast.
Import ListNotations.
Local Open Scope Z_scope.

(** ** Errors *)

Inductive Error : Type :=
| MixedCase               (* 'Mixed case address' *)
| InvalidFormat           (* 'Invalid address format: ...' *)
| UnknownPrefix           (* 'Invalid address prefix: ...' *)
| InvalidCharacter        (* base32Decode: 'Invalid value: ...' *)
| InvalidChecksum         (* 'Invalid checksum: ...' *)
| InvalidPadding          (* 'Input cannot be converted to ... bits without padding ...' *)
| EmptyPayload            (* 'Address payload is empty' *)
| UnsupportedVersion      (* 'Unsupported address version: ...' *)
| InvalidKeyLength        (* 'Invalid Schnorr/ECDSA public key length' *)
| InvalidHashLength       (* 'Invalid script hash length' *)
| InvalidPrivateKey       (* 'Invalid private key' *)
| NoInputs                (* 'No inputs available for transaction' *)
| NoOutputs               (* 'No outputs provided' *)
| NegativeFee             (* 'Fee cannot be negative' *)
| NonPositiveOutputAmount (* 'Output amount must be positive' *)
| InsufficientBalance     (* 'Insufficient balance' *)
| InvalidValue            (* convertBits, base32Encode: 'Invalid value: ...' *)
| RangeError              (* a Buffer write of a value outside the field's range *)
| TypeError.              (* a property read on undefined *)

Inductive Result (A : Type) : Type :=
| Ok (a : A)
| Err (e : Error).
Arguments Ok {A} a.
Arguments Err {A} e.

Definition bind {A B : Type} (r : Result A) (k : A -> Result B) : Result B :=
  match r with
  | Ok a => k a
  | Err e => Err e
  end.

Notation "'do' x <- r ; k" := (bind r (fun x => k))
  (at level 10, x name, r at level 100, k at level 200).

(** [assertValid(condition, message)]. *)
Definition assertValid (condition : bool) (e : Error) : Result unit :=
  if condition then Ok tt else Err e.

(** ** 32-bit integer operators of JavaScript *)

Module JS.

Definition toInt32 (x : Z) : Z := (x + 2 ^ 31) mod 2 ^ 32 - 2 ^ 31.
Definition toUint32 (x : Z) : Z := x mod 2 ^ 32.

(** [a << b] *)
Definition shl (a b : Z) : Z := toInt32 (Z.shiftl (toInt32 a) (b mod 32)).
(** [a >> b] *)
Definition sar (a b : Z) : Z := Z.shiftr (toInt32 a) (b mod 32).
(** [a >>> b] *)
Definition shr (a b : Z) : Z := Z.shiftr (toUint32 a) (b mod 32).
(** [a & b], [a | b], [a ^ b] *)
Definition band (a b : Z) : Z := Z.land (toInt32 a) (toInt32 b).
Definition bor (a b : Z) : Z := Z.lor (toInt32 a) (toInt32 b).
Definition bxor (a b : Z) : Z := Z.lxor (toInt32 a) (toInt32 b).

(** Storing a number into a [Uint8Array] element. *)
Definition u8 (x : Z) : Z := x mod 256.

(** [new Uint8Array(n)] *)
Definition newUint8Array (n : nat) : list Z := repeat 0 n.

(** [a[i] = v] on a [Uint8Array]: ignored when [i] is out of range. *)
Fixpoint u8set (a : list Z) (i : nat) (v : Z) : list Z :=
  match a, i with
  | [], _ => []
  | _ :: r, O => u8 v :: r
  | x :: r, S j => x :: u8set r j v
  end.

(** [new Uint8Array([..])] / [Uint8Array.from]. *)
Definition uint8ArrayOf (l : list Z) : list Z := map u8 l.

(** The values a [Uint8Array] element holds. *)
Definition isByte (b : Z) : Prop := 0 <= b < 256.

(** The values of a 32-bit signed integer. *)
Definition isInt32 (x : Z) : Prop := - 2 ^ 31 <= x < 2 ^ 31.

End JS.

(** ** Strings *)

Module Str.

Definition charCode (c : ascii) : Z := Z.of_nat (nat_of_ascii c).

Definition isUpper (c : ascii) : bool :=
  (65 <=? charCode c) && (charCode c <=? 90).
Definition isLower (c : ascii) : bool :=
  (97 <=? charCode c) && (charCode c <=? 122).

Definition lowerChar (c : ascii) : ascii :=
  if isUpper c then ascii_of_nat (nat_of_ascii c + 32) else c.
Definition upperChar (c : ascii) : ascii :=
  if isLower c then ascii_of_nat (nat_of_ascii c - 32) else c.

Fixpoint smap (f : ascii -> ascii) (s : string) : string :=
  match s with
  | EmptyString => EmptyString
  | String c r => String (f c) (smap f r)
  end.

(** [s.toLowerCase()], [s.toUpperCase()] on ASCII strings. *)
Definition toLowerCase (s : string) : string := smap lowerChar s.
Definition toUpperCase (s : string) : string := smap upperChar s.

Definition colon : ascii := ":"%char.

(** [s.split(':')] *)
Fixpoint split (s : string) : list string :=
  match s with
  | EmptyString => [EmptyString]
  | String c r =>
      if Ascii.eqb c colon then EmptyString :: split r
      else match split r with
           | p :: ps => String c p :: ps
           | [] => [String c EmptyString]
           end
  end.

(** Number of [':'] characters of a string. *)
Fixpoint colons (s : string) : nat :=
  match s with
  | EmptyString => O
  | String c r => ((if Ascii.eqb c colon then 1 else 0) + colons r)%nat
  end.

(** The characters of the string are ASCII (code below 128). *)
Fixpoint isAscii (s : string) : bool :=
  match s with
  | EmptyString => true
  | String c r => (charCode c <? 128) && isAscii r
  end.

(** [list.includes(s)] *)
Definition includes (l : list string) (s : string) : bool :=
  existsb (String.eqb s) l.

End Str.

(** ** Address codec ([src/lib/address.ts]) *)

Module Address.
Import JS.

Definition CHARSET : string := "qpzry9x8gf2tvdw0s3jn54khce6mua7l".

Definition CHARSET_INVERSE_INDEX : list (ascii * Z) :=
  [ ("q", 0); ("p", 1); ("z", 2); ("r", 3); ("y", 4); ("9", 5); ("x", 6); ("8", 7);
    ("g", 8); ("f", 9); ("2", 10); ("t", 11); ("v", 12); ("d", 13); ("w", 14); ("0", 15);
    ("s", 16); ("3", 17); ("j", 18); ("n", 19); ("5", 20); ("4", 21); ("k", 22); ("h", 23);
    ("c", 24); ("e", 25); ("6", 26); ("m", 27); ("u", 28); ("a", 29); ("7", 30); ("l", 31)
  ]%char.

Definition GENERATOR1 : list Z := [0x98; 0x79; 0xf3; 0xae; 0x1e].
Definition GENERATOR2 : list Z :=
  [0xf2bc8e61; 0xb76d99e2; 0x3e5fb3c4; 0x2eabe2a8; 0x4f43e470].
Definition DEFAULT_ALLOWED_PREFIXES : list string :=
  ["kaspa"; "kaspatest"; "kaspadev"; "kaspasim"]%string.

Definition hasSingleCase (value : string) : bool :=
  String.eqb value (Str.toLowerCase value) || String.eqb value (Str.toUpperCase value).

(** *** convertBits *)

(** The loop state of [convertBits]: the preallocated [result], the write
    position [index], the [accumulator] (a 32-bit integer) and [bits]. *)
Record CBState : Type := mkCB {
  cb_result : list Z;
  cb_index : nat;
  cb_accumulator : Z;
  cb_bits : Z
}.

(** [while (bits >= to) { bits -= to; result[index] = (accumulator >> bits) & mask; index++ }]
    The loop runs at most [bits] times when [to >= 1], which is the fuel the
    caller passes. *)
Fixpoint cbDrain (fuel : nat) (to mask : Z) (s : CBState) : CBState :=
  match fuel with
  | O => s
  | S fuel' =>
      if to <=? cb_bits s then
        let bits := cb_bits s - to in
        cbDrain fuel' to mask
          (mkCB (u8set (cb_result s) (cb_index s) (band (sar (cb_accumulator s) bits) mask))
                (S (cb_index s)) (cb_accumulator s) bits)
      else s
  end.

(** One iteration of the [for] loop over [data]. *)
Definition cbStep (from to mask : Z) (s : CBState) (value : Z) : Result CBState :=
  do _ <- assertValid ((0 <=? value) && (sar value from =? 0)) InvalidValue;
  let accumulator := bor (shl (cb_accumulator s) from) value in
  let bits := cb_bits s + from in
  Ok (cbDrain (Z.to_nat bits) to mask (mkCB (cb_result s) (cb_index s) accumulator bits)).

Fixpoint cbLoop (from to mask : Z) (s : CBState) (data : list Z) : Result CBState :=
  match data with
  | [] => Ok s
  | value :: rest =>
      do s' <- cbStep from to mask s value;
      cbLoop from to mask s' rest
  end.

(** [Math.floor((n * from) / to)] and [Math.ceil((n * from) / to)]. *)
Definition floorDiv (a b : Z) : Z := a / b.
Definition ceilDiv (a b : Z) : Z := - ((- a) / b).

Definition convertBits (data : list Z) (from to : Z) (strictMode : bool) : Result (list Z) :=
  let n := Z.of_nat (List.length data) in
  let length := if strictMode then floorDiv (n * from) to else ceilDiv (n * from) to in
  let mask := shl 1 to - 1 in
  let result := newUint8Array (Z.to_nat length) in
  do s <- cbLoop from to mask (mkCB result O 0 0) data;
  if negb strictMode then
    if 0 <? cb_bits s then
      Ok (u8set (cb_result s) (cb_index s)
            (band (shl (cb_accumulator s) (to - cb_bits s)) mask))
    else Ok (cb_result s)
  else
    do _ <- assertValid
              ((cb_bits s <? from)
               && (band (shl (cb_accumulator s) (to - cb_bits s)) mask =? 0))
              InvalidPadding;
    Ok (cb_result s).

(** *** base32 *)

Definition charsetAt (value : Z) : ascii :=
  match String.get (Z.to_nat value) CHARSET with
  | Some c => c
  | None => "000"%char
  end.

Fixpoint base32Encode (data : list Z) : Result string :=
  match data with
  | [] => Ok EmptyString
  | value :: rest =>
      do _ <- assertValid ((0 <=? value) && (value <? 32)) InvalidValue;
      do encoded <- base32Encode rest;
      Ok (String (charsetAt value) encoded)
  end.

Fixpoint inverseIndex (table : list (ascii * Z)) (ch : ascii) : option Z :=
  match table with
  | [] => None
  | (k, v) :: rest => if Ascii.eqb k ch then Some v else inverseIndex rest ch
  end.

Fixpoint base32Decode (value : string) : Result (list Z) :=
  match value with
  | EmptyString => Ok []
  | String ch rest =>
      match inverseIndex CHARSET_INVERSE_INDEX ch with
      | None => Err InvalidCharacter
      | Some v =>
          do decoded <- base32Decode rest;
          Ok (u8 v :: decoded)
      end
  end.

Fixpoint prefixToArray (prefix : string) : list Z :=
  match prefix with
  | EmptyString => []
  | String c rest => band (Str.charCode c) 31 :: prefixToArray rest
  end.

(** *** checksum *)

(** [checksumToArray]: [checksum] is a non-negative number below [2^40];
    [checksum /= 32] is exact on such a number, and [checksum & 31] drops the
    fractional part, so the loop reads the eight base-32 digits. *)
Fixpoint checksumDigits (n : nat) (checksum : Z) : list Z :=
  match n with
  | O => []
  | S n' => band checksum 31 :: checksumDigits n' (checksum / 32)
  end.

Definition checksumToArray (checksum : Z) : list Z := rev (checksumDigits 8 checksum).

(** The inner loop of [polymod] over the generator tables. *)
Fixpoint polymodGen (c : Z) (i : Z) (g1 g2 : list Z) (c0 c1 : Z) : Z * Z :=
  match g1, g2 with
  | x1 :: r1, x2 :: r2 =>
      if negb (band c (shl 1 i) =? 0)
      then polymodGen c (i + 1) r1 r2 (bxor c0 x1) (bxor c1 x2)
      else polymodGen c (i + 1) r1 r2 c0 c1
  | _, _ => (c0, c1)
  end.

(** One iteration of the outer loop of [polymod]. *)
Definition polymodStep (st : Z * Z) (d : Z) : Z * Z :=
  let '(c0, c1) := st in
  let c := shr c0 3 in
  let c0 := band c0 0x07 in
  let c0 := shl c0 5 in
  let c0 := bor c0 (shr c1 27) in
  let c1 := band c1 0x07ffffff in
  let c1 := shl c1 5 in
  let c1 := bxor c1 d in
  polymodGen c 0 GENERATOR1 GENERATOR2 c0 c1.

Definition polymod (data : list Z) : Z :=
  let '(c0, c1) := fold_left polymodStep data (0, 1) in
  let c1 := bxor c1 1 in
  let c1 := if c1 <? 0 then bxor c1 (shl 1 31) + shl 1 30 * 2 else c1 in
  c0 * shl 1 30 * 4 + c1.

Definition hasValidChecksum (prefix : string) (payload : list Z) : bool :=
  let prefixData := prefixToArray prefix in
  let data := uint8ArrayOf prefixData ++ [0] ++ payload in
  polymod data =? 0.

(** *** decode and encode *)

Definition normalizeAddress (address : string) : Result (string * string) :=
  do _ <- assertValid (hasSingleCase address) MixedCase;
  let normalized := Str.toLowerCase address in
  match Str.split normalized with
  | [prefix; encodedPayload] => Ok (prefix, encodedPayload)
  | _ => Err InvalidFormat
  end.

Record DecodedKaspaAddress : Type := mkDecoded {
  prefix : string;
  version : Z;
  payload : list Z
}.

Definition decodeKaspaAddress (address : string) (allowedPrefixes : list string)
  : Result DecodedKaspaAddress :=
  do np <- normalizeAddress address;
  let '(prefix, encodedPayload) := np in
  let normalizedPrefixes := map Str.toLowerCase allowedPrefixes in
  do _ <- assertValid (Str.includes normalizedPrefixes prefix) UnknownPrefix;
  do decoded <- base32Decode encodedPayload;
  do _ <- assertValid (hasValidChecksum prefix decoded) InvalidChecksum;
  do converted <- convertBits (firstn (List.length decoded - 8) decoded) 5 8 true;
  match converted with
  | [] => Err EmptyPayload
  | v :: rest => Ok (mkDecoded prefix v rest)
  end.

Definition encodeKaspaAddress (payload : list Z) (prefix : string) (version : Z)
  : Result string :=
  let normalizedPrefix := Str.toLowerCase prefix in
  let prefixData := prefixToArray normalizedPrefix ++ [0] in
  do payloadData <- convertBits (uint8ArrayOf (version :: payload)) 8 5 false;
  let checksumInput := uint8ArrayOf prefixData ++ payloadData ++ newUint8Array 8 in
  let checksum := checksumToArray (polymod checksumInput) in
  let fullPayload := payloadData ++ uint8ArrayOf checksum in
  do encoded <- base32Encode fullPayload;
  Ok (normalizedPrefix ++ String Str.colon encoded)%string.

Definition publicKeyToKaspaAddress (publicKey : list Z) (prefix : string) : Result string :=
  encodeKaspaAddress publicKey prefix 0x00.

Definition addressToScriptPublicKey (address : string) (allowedPrefixes : list string)
  : Result (list Z) :=
  do decoded <- decodeKaspaAddress address allowedPrefixes;
  if version decoded =? 0x00 then
    do _ <- assertValid (Nat.eqb (List.length (payload decoded)) 32) InvalidKeyLength;
    Ok (uint8ArrayOf ([0x20] ++ payload decoded ++ [0xac]))
  else if version decoded =? 0x01 then
    do _ <- assertValid (Nat.eqb (List.length (payload decoded)) 33) InvalidKeyLength;
    Ok (uint8ArrayOf ([0x21] ++ payload decoded ++ [0xab]))
  else if version decoded =? 0x08 then
    do _ <- assertValid (Nat.eqb (List.length (payload decoded)) 32) InvalidHashLength;
    Ok (uint8ArrayOf ([0xaa; 0x20] ++ payload decoded ++ [0x87]))
  else Err UnsupportedVersion.

Definition isKaspaAddressForNetwork (address : string) (networkPrefix : string) : bool :=
  match decodeKaspaAddress address [networkPrefix] with
  | Ok _ => true
  | Err _ => false
  end.

(** *** Vocabulary of the proofs *)

(** The number a list of [w]-bit digits denotes, most significant first. *)
Definition digitsValue (w : Z) (l : list Z) : Z := fold_left (fun a x => a * 2 ^ w + x) l 0.

Definition isDigit (w : Z) (x : Z) : Prop := 0 <= x < 2 ^ w.

(** A preallocated array of length [L] after the values [outs] have been
    stored at positions 0, 1, ...: stores past the end are lost. *)
Definition padTo (L : nat) (outs : list Z) : list Z :=
  firstn L (outs ++ repeat 0 (L - List.length outs)).

(** The invariant of the loops of [convertBits]: after reading digits of
    value [V] that hold [total] bits, [outs] has been written, [bits] bits
    wait in the accumulator, and [outs] holds the leading bits of [V]. *)
Definition cbInv (L : nat) (to : Z) (V total : Z) (s : CBState) (outs : list Z) : Prop :=
  cb_result s = padTo L outs
  /\ cb_index s = List.length outs
  /\ Forall (isDigit to) outs
  /\ cb_accumulator s mod 2 ^ 32 = V mod 2 ^ 32
  /\ 0 <= cb_bits s
  /\ to * Z.of_nat (List.length outs) + cb_bits s = total
  /\ digitsValue to outs = V / 2 ^ cb_bits s.

(** The 40-bit value the two halves [(c0, c1)] of the state of [polymod]
    stand for. *)
Definition val40 (st : Z * Z) : Z := fst st * 2 ^ 32 + snd st mod 2 ^ 32.

(** The generator constants the inner loop of [polymod] adds for [c]. *)
Fixpoint genMask (c i : Z) (g1 g2 : list Z) : Z :=
  match g1, g2 with
  | x1 :: r1, x2 :: r2 =>
      if negb (band c (shl 1 i) =? 0)
      then Z.lxor (x1 * 2 ^ 32 + x2) (genMask c (i + 1) r1 r2)
      else genMask c (i + 1) r1 r2
  | _, _ => 0
  end.

(** The triples the round trip is stated for: payload bytes, a version
    byte, and a network prefix, that is an ASCII string in lower case without
    the separator [':']. *)
Definition validTriple (payload : list Z) (prefix : string) (version : Z) : Prop :=
  Forall isByte payload
  /\ isByte version
  /\ Str.isAscii prefix = true
  /\ Str.colons prefix = 0%nat
  /\ Str.toLowerCase prefix = prefix.

End Address.

(** ** Transaction signing engine ([src/lib/transaction.ts]) *)

Module Transaction.
Import JS.

(** The primitives of the imported packages.
    - [blake2b data key] is [blake2b(data, { dkLen: 32, key })] of
      [@noble/hashes];
    - [schnorrSign aux msg key] is [schnorr.sign(msg, key)] of [@noble/curves],
      which draws fresh auxiliary randomness [aux] on every call; [auxRand i]
      is the randomness drawn by the call for input [i];
    - [isValidPrivateKey] is [secp256k1.utils.isValidPrivateKey];
    - [hexToBytes] is [Buffer.from(hex, 'hex')]. *)
Class Primitives : Type := {
  blake2b : list Z -> list Z -> list Z;
  schnorrSign : list Z -> list Z -> list Z -> list Z;
  auxRand : nat -> list Z;
  isValidPrivateKey : list Z -> bool;
  hexToBytes : string -> list Z
}.

Definition TRANSACTION_SIGNING_HASH_KEY : list Z :=
  map Str.charCode (list_ascii_of_string "TransactionSigningHash").

Definition SIGHASH_ALL : Z := 1.
Definition SIGHASH_NONE : Z := 2.
Definition SIGHASH_SINGLE : Z := 4.
Definition SIGHASH_ANYONECANPAY : Z := 128.
Definition SIGHASH_MASK : Z := 7.
Definition DEFAULT_SUBNETWORK_ID : string := "0000000000000000000000000000000000000000".

Definition hexDigit (n : Z) : ascii :=
  match String.get (Z.to_nat n) "0123456789abcdef" with
  | Some c => c
  | None => "000"%char
  end.

(** [Buffer.from(bytes).toString('hex')] *)
Fixpoint bytesToHex (bytes : list Z) : string :=
  match bytes with
  | [] => EmptyString
  | b :: rest => String (hexDigit (u8 b / 16)) (String (hexDigit (u8 b mod 16)) (bytesToHex rest))
  end.

Definition isSigHashNone (hashType : Z) : bool :=
  band hashType SIGHASH_MASK =? SIGHASH_NONE.
Definition isSigHashSingle (hashType : Z) : bool :=
  band hashType SIGHASH_MASK =? SIGHASH_SINGLE.
Definition isSigHashAnyoneCanPay (hashType : Z) : bool :=
  band hashType SIGHASH_ANYONECANPAY =? SIGHASH_ANYONECANPAY.

Record HashCache : Type := mkCache {
  previousOutputsHash : option (list Z);
  sequencesHash : option (list Z);
  sigOpCountsHash : option (list Z);
  outputsHash : option (list Z)
}.

Definition emptyCache : HashCache := mkCache None None None None.

(** *** HashWriter

    The writer is the concatenation of its chunks. The integer writes are
    those of [Buffer], which throw a [RangeError] on a value outside the
    range of the field. *)

Fixpoint leBytes (n : nat) (value : Z) : list Z :=
  match n with
  | O => []
  | S n' => value mod 256 :: leBytes n' (value / 256)
  end.

Definition writeRaw (w buffer : list Z) : list Z := w ++ buffer.

Definition writeHash (w hash : list Z) : list Z := writeRaw w (uint8ArrayOf hash).

Definition writeUIntLE (bytes : nat) (w : list Z) (value : Z) : Result (list Z) :=
  if (0 <=? value) && (value <? 2 ^ (8 * Z.of_nat bytes))
  then Ok (writeRaw w (leBytes bytes value))
  else Err RangeError.

Definition writeUInt8 := writeUIntLE 1.
Definition writeUInt16LE := writeUIntLE 2.
Definition writeUInt32LE := writeUIntLE 4.
Definition writeUInt64LE := writeUIntLE 8.

(** [writeVarBytes]: the length of a buffer is below [2^53], inside the range
    of the 64-bit write, which therefore does not throw. *)
Definition writeVarBytes (w buffer : list Z) : Result (list Z) :=
  let w := writeRaw w (leBytes 8 (Z.of_nat (List.length buffer))) in
  Ok (writeRaw w (uint8ArrayOf buffer)).

Definition zeroHash : list Z := newUint8Array 32.
Definition zeroSubnetworkId : list Z := newUint8Array 20.

Record SerializableInput : Type := mkInput {
  transactionId : string;
  index : Z;
  signatureScript : string;
  sequence : Z;
  sigOpCount : Z
}.

Record ScriptPublicKey : Type := mkSpk {
  spkVersion : Z;
  scriptPublicKey : string
}.

Record SerializableOutput : Type := mkOutput {
  outAmount : Z;
  outScriptPublicKey : ScriptPublicKey
}.

Record SigningUtxo : Type := mkUtxo {
  utxoScriptPublicKey : list Z;
  utxoAmount : Z
}.

Record SerializableTransaction : Type := mkTx {
  txVersion : Z;
  txInputs : list SerializableInput;
  txOutputs : list SerializableOutput;
  lockTime : Z;
  subnetworkId : string;
  utxos : list SigningUtxo
}.

(** A computation that reads and fills the [HashCache] and may throw; the
    cache keeps what was stored before a throw. *)
Definition Cached (A : Type) : Type := HashCache -> Result A * HashCache.

Definition cret {A : Type} (a : A) : Cached A := fun c => (Ok a, c).
Definition lift {A : Type} (r : Result A) : Cached A := fun c => (r, c).
Definition cbind {A B : Type} (m : Cached A) (k : A -> Cached B) : Cached B :=
  fun c => match m c with
           | (Ok a, c') => k a c'
           | (Err e, c') => (Err e, c')
           end.

Notation "'run' x <- m ; k" := (cbind m (fun x => k))
  (at level 10, x name, m at level 100, k at level 200).

(** [list.forEach((x) => f(writer, x))] threading the writer. *)
Fixpoint forEachWrite {A : Type} (f : list Z -> A -> Result (list Z)) (w : list Z) (l : list A)
  : Result (list Z) :=
  match l with
  | [] => Ok w
  | x :: rest => do w <- f w x; forEachWrite f w rest
  end.

Section WithPrimitives.
Context {P : Primitives}.

Definition blake2b256 (data key : list Z) : list Z := blake2b data key.

Definition finalize (w : list Z) : list Z := blake2b256 w TRANSACTION_SIGNING_HASH_KEY.

Definition hashOutpoint (w : list Z) (input : SerializableInput) : Result (list Z) :=
  let w := writeHash w (hexToBytes (transactionId input)) in
  writeUInt32LE w (index input).

Definition hashOutput (w : list Z) (output : SerializableOutput) : Result (list Z) :=
  do w <- writeUInt64LE w (outAmount output);
  do w <- writeUInt16LE w (spkVersion (outScriptPublicKey output));
  writeVarBytes w (hexToBytes (scriptPublicKey (outScriptPublicKey output))).

Definition getPreviousOutputsHash (transaction : SerializableTransaction) (hashType : Z)
  : Cached (list Z) := fun cache =>
  if isSigHashAnyoneCanPay hashType then (Ok zeroHash, cache)
  else match previousOutputsHash cache with
       | Some h => (Ok h, cache)
       | None =>
           match forEachWrite hashOutpoint [] (txInputs transaction) with
           | Ok w =>
               let h := finalize w in
               (Ok h, mkCache (Some h) (sequencesHash cache) (sigOpCountsHash cache)
                              (outputsHash cache))
           | Err e => (Err e, cache)
           end
       end.

Definition getSequencesHash (transaction : SerializableTransaction) (hashType : Z)
  : Cached (list Z) := fun cache =>
  if isSigHashSingle hashType || isSigHashAnyoneCanPay hashType || isSigHashNone hashType
  then (Ok zeroHash, cache)
  else match sequencesHash cache with
       | Some h => (Ok h, cache)
       | None =>
           match forEachWrite (fun w input => writeUInt64LE w (sequence input)) []
                   (txInputs transaction) with
           | Ok w =>
               let h := finalize w in
               (Ok h, mkCache (previousOutputsHash cache) (Some h) (sigOpCountsHash cache)
                              (outputsHash cache))
           | Err e => (Err e, cache)
           end
       end.

Definition getSigOpCountsHash (transaction : SerializableTransaction) (hashType : Z)
  : Cached (list Z) := fun cache =>
  if isSigHashAnyoneCanPay hashType then (Ok zeroHash, cache)
  else match sigOpCountsHash cache with
       | Some h => (Ok h, cache)
       | None =>
           match forEachWrite (fun w (_ : SerializableInput) => writeUInt8 w 1) []
                   (txInputs transaction) with
           | Ok w =>
               let h := finalize w in
               (Ok h, mkCache (previousOutputsHash cache) (sequencesHash cache) (Some h)
                              (outputsHash cache))
           | Err e => (Err e, cache)
           end
       end.

Definition getOutputsHash (transaction : SerializableTransaction) (inputIndex : nat)
  (hashType : Z) : Cached (list Z) := fun cache =>
  if isSigHashNone hashType then (Ok zeroHash, cache)
  else if isSigHashSingle hashType then
    if (List.length (txOutputs transaction) <=? inputIndex)%nat then (Ok zeroHash, cache)
    else match nth_error (txOutputs transaction) inputIndex with
         | Some output =>
             match hashOutput [] output with
             | Ok w => (Ok (finalize w), cache)
             | Err e => (Err e, cache)
             end
         | None => (Err TypeError, cache)
         end
  else match outputsHash cache with
       | Some h => (Ok h, cache)
       | None =>
           match forEachWrite hashOutput [] (txOutputs transaction) with
           | Ok w =>
               let h := finalize w in
               (Ok h, mkCache (previousOutputsHash cache) (sequencesHash cache)
                              (sigOpCountsHash cache) (Some h))
           | Err e => (Err e, cache)
           end
       end.

(** [x.field] where [x] is an array element that may be [undefined]. *)
Definition defined {A : Type} (x : option A) : Result A :=
  match x with
  | Some a => Ok a
  | None => Err TypeError
  end.

Definition calculateSigHash (transaction : SerializableTransaction) (hashType : Z)
  (inputIndex : nat) : Cached (list Z) :=
  let input := nth_error (txInputs transaction) inputIndex in
  let utxo := nth_error (utxos transaction) inputIndex in
  run w <- lift (writeUInt16LE [] (txVersion transaction));
  run h <- getPreviousOutputsHash transaction hashType;
  let w := writeHash w h in
  run h <- getSequencesHash transaction hashType;
  let w := writeHash w h in
  run h <- getSigOpCountsHash transaction hashType;
  let w := writeHash w h in
  run input <- lift (defined input);
  run w <- lift (hashOutpoint w input);
  run w <- lift (writeUInt16LE w 0);
  run utxo <- lift (defined utxo);
  run w <- lift (writeVarBytes w (utxoScriptPublicKey utxo));
  run w <- lift (writeUInt64LE w (utxoAmount utxo));
  run w <- lift (writeUInt64LE w (sequence input));
  run w <- lift (writeUInt8 w 1);
  run h <- getOutputsHash transaction inputIndex hashType;
  let w := writeHash w h in
  run w <- lift (writeUInt64LE w (lockTime transaction));
  let w := writeHash w zeroSubnetworkId in
  run w <- lift (writeUInt64LE w 0);
  let w := writeHash w zeroHash in
  run w <- lift (writeUInt8 w hashType);
  cret (finalize w).

(** [toSafeBigInt]: the amounts and the fee are integers. *)
Definition toSafeBigInt (value : Z) : Z := value.

(** [bigint.toString()] *)
Definition bigintToString (value : Z) : string := NilZero.string_of_int (Z.to_int value).

Record TransactionSigningInput : Type := mkSigningInput {
  txId : string;
  vOut : Z;
  inAddress : string;
  inAmount : Z
}.

Record TransactionSigningOutput : Type := mkSigningOutput {
  toAddress : string;
  toAmount : Z
}.

Record TransactionSigningParams : Type := mkParams {
  inputs : list TransactionSigningInput;
  outputs : list TransactionSigningOutput;
  changeAddress : string;
  fee : Z;
  privateKey : list Z;
  addressPrefixes : list string;
  dustThreshold : option Z
}.

Record PayloadOutput : Type := mkPayloadOutput {
  amount : string;
  payloadScriptPublicKey : ScriptPublicKey
}.

Record SignedTransactionPayload : Type := mkPayload {
  payloadVersion : Z;
  payloadInputs : list SerializableInput;
  payloadOutputs : list PayloadOutput;
  payloadLockTime : string;
  payloadSubnetworkId : string;
  allowOrphan : bool
}.

Definition pushInput (t : SerializableTransaction) (i : SerializableInput) (u : SigningUtxo)
  : SerializableTransaction :=
  mkTx (txVersion t) (txInputs t ++ [i]) (txOutputs t) (lockTime t) (subnetworkId t)
       (utxos t ++ [u]).

Definition pushOutput (t : SerializableTransaction) (o : SerializableOutput)
  : SerializableTransaction :=
  mkTx (txVersion t) (txInputs t) (txOutputs t ++ [o]) (lockTime t) (subnetworkId t) (utxos t).

(** [for (const input of params.inputs) { ... }] *)
Fixpoint inputLoop (prefixes : list string) (ins : list TransactionSigningInput)
  (transaction : SerializableTransaction) (totalInput : Z)
  : Result (SerializableTransaction * Z) :=
  match ins with
  | [] => Ok (transaction, totalInput)
  | input :: rest =>
      let amount := toSafeBigInt (inAmount input) in
      do script <- Address.addressToScriptPublicKey (inAddress input) prefixes;
      let transaction :=
        pushInput transaction (mkInput (txId input) (vOut input) EmptyString 0 1)
                  (mkUtxo script amount) in
      inputLoop prefixes rest transaction (totalInput + amount)
  end.

(** [for (const output of params.outputs) { ... }] *)
Fixpoint outputLoop (prefixes : list string) (outs : list TransactionSigningOutput)
  (transaction : SerializableTransaction) (totalOutput : Z)
  : Result (SerializableTransaction * Z) :=
  match outs with
  | [] => Ok (transaction, totalOutput)
  | output :: rest =>
      let amount := toSafeBigInt (toAmount output) in
      if amount <=? 0 then Err NonPositiveOutputAmount
      else
        do script <- Address.addressToScriptPublicKey (toAddress output) prefixes;
        let transaction :=
          pushOutput transaction (mkOutput amount (mkSpk 0 (bytesToHex script))) in
        outputLoop prefixes rest transaction (totalOutput + amount)
  end.

(** The transaction as it is when signing starts: the validations, the two
    loops and the change output. *)
Definition buildUnsigned (params : TransactionSigningParams) : Result SerializableTransaction :=
  if negb (isValidPrivateKey (privateKey params)) then Err InvalidPrivateKey
  else if Nat.eqb (List.length (inputs params)) 0 then Err NoInputs
  else if Nat.eqb (List.length (outputs params)) 0 then Err NoOutputs
  else
    let fee := toSafeBigInt (fee params) in
    if fee <? 0 then Err NegativeFee
    else
      let transaction := mkTx 0 [] [] 0 DEFAULT_SUBNETWORK_ID [] in
      do r <- inputLoop (addressPrefixes params) (inputs params) transaction 0;
      let '(transaction, totalInput) := r in
      do r <- outputLoop (addressPrefixes params) (outputs params) transaction 0;
      let '(transaction, totalOutput) := r in
      let changeAmount := totalInput - totalOutput - fee in
      if changeAmount <? 0 then Err InsufficientBalance
      else
        let dustThreshold :=
          match dustThreshold params with Some d => d | None => 546 end in
        if dustThreshold <=? changeAmount then
          do script <- Address.addressToScriptPublicKey (changeAddress params)
                         (addressPrefixes params);
          Ok (pushOutput transaction (mkOutput changeAmount (mkSpk 0 (bytesToHex script))))
        else Ok transaction.

(** [input.signatureScript = script] on the input at position [i]. *)
Fixpoint setSignatureScript (ins : list SerializableInput) (i : nat) (script : string)
  : list SerializableInput :=
  match ins, i with
  | [], _ => []
  | x :: r, O => mkInput (transactionId x) (index x) script (sequence x) (sigOpCount x) :: r
  | x :: r, S j => x :: setSignatureScript r j script
  end.

Definition withInputs (t : SerializableTransaction) (ins : list SerializableInput)
  : SerializableTransaction :=
  mkTx (txVersion t) ins (txOutputs t) (lockTime t) (subnetworkId t) (utxos t).

(** The body of [transaction.inputs.forEach((input, index) => { ... })]. *)
Definition signInput (key : list Z) (transaction : SerializableTransaction) (i : nat)
  (cache : HashCache) : Result SerializableTransaction * HashCache :=
  match calculateSigHash transaction SIGHASH_ALL i cache with
  | (Ok sigHash, cache) =>
      let signature := schnorrSign (auxRand i) sigHash key in
      let script := bytesToHex (uint8ArrayOf ([0x41] ++ signature ++ [SIGHASH_ALL])) in
      (Ok (withInputs transaction (setSignatureScript (txInputs transaction) i script)), cache)
  | (Err e, cache) => (Err e, cache)
  end.

Fixpoint signLoop (key : list Z) (indices : list nat) (transaction : SerializableTransaction)
  (cache : HashCache) : Result SerializableTransaction * HashCache :=
  match indices with
  | [] => (Ok transaction, cache)
  | i :: rest =>
      match signInput key transaction i cache with
      | (Ok transaction, cache) => signLoop key rest transaction cache
      | (Err e, cache) => (Err e, cache)
      end
  end.

Definition toPayload (transaction : SerializableTransaction) : SignedTransactionPayload :=
  mkPayload (txVersion transaction) (txInputs transaction)
    (map (fun output => mkPayloadOutput (bigintToString (outAmount output))
                                         (outScriptPublicKey output))
         (txOutputs transaction))
    (bigintToString (lockTime transaction)) (subnetworkId transaction) false.

Definition buildSignedTransaction (params : TransactionSigningParams)
  : Result SignedTransactionPayload :=
  do transaction <- buildUnsigned params;
  do transaction <-
     fst (signLoop (privateKey params) (seq 0 (List.length (txInputs transaction)))
            transaction emptyCache);
  Ok (toPayload transaction).

(** *** Vocabulary of the statements *)

(** The address resolves to a spend script. *)
Definition resolves (prefixes : list string) (address : string) : Prop :=
  exists script, Address.addressToScriptPublicKey address prefixes = Ok script.

(** The input record the input loop appends for a requested input. *)
Definition unsignedInput (i : TransactionSigningInput) : SerializableInput :=
  mkInput (txId i) (vOut i) EmptyString 0 1.

(** The UTXO descriptor of a requested input. *)
Definition utxoFor (prefixes : list string) (i : TransactionSigningInput) (u : SigningUtxo)
  : Prop :=
  Address.addressToScriptPublicKey (inAddress i) prefixes = Ok (utxoScriptPublicKey u)
  /\ utxoAmount u = inAmount i.

(** The output record of a requested output. *)
Definition outputFor (prefixes : list string) (o : TransactionSigningOutput)
  (out : SerializableOutput) : Prop :=
  exists script,
    Address.addressToScriptPublicKey (toAddress o) prefixes = Ok script
    /\ out = mkOutput (toAmount o) (mkSpk 0 (bytesToHex script)).

(** The payload form of an output record. *)
Definition payloadOutputOf (output : SerializableOutput) : PayloadOutput :=
  mkPayloadOutput (bigintToString (outAmount output)) (outScriptPublicKey output).

(** The input with its signature script erased. *)
Definition eraseScript (i : SerializableInput) : SerializableInput :=
  mkInput (transactionId i) (index i) EmptyString (sequence i) (sigOpCount i).

(** *** The signature hash as the specification words it

    The four sub-hashes recomputed from the transaction on every use, with
    no cache, and the per-input preimage listed field by field. *)

Definition specPreviousOutputsHash (transaction : SerializableTransaction) (hashType : Z)
  : Result (list Z) :=
  if isSigHashAnyoneCanPay hashType then Ok zeroHash
  else do w <- forEachWrite hashOutpoint [] (txInputs transaction); Ok (finalize w).

Definition specSequencesHash (transaction : SerializableTransaction) (hashType : Z)
  : Result (list Z) :=
  if isSigHashSingle hashType || isSigHashAnyoneCanPay hashType || isSigHashNone hashType
  then Ok zeroHash
  else do w <- forEachWrite (fun w input => writeUInt64LE w (sequence input)) []
                 (txInputs transaction);
       Ok (finalize w).

Definition specSigOpCountsHash (transaction : SerializableTransaction) (hashType : Z)
  : Result (list Z) :=
  if isSigHashAnyoneCanPay hashType then Ok zeroHash
  else do w <- forEachWrite (fun w (_ : SerializableInput) => writeUInt8 w 1) []
                 (txInputs transaction);
       Ok (finalize w).

Definition specOutputsHash (transaction : SerializableTransaction) (inputIndex : nat)
  (hashType : Z) : Result (list Z) :=
  if isSigHashNone hashType then Ok zeroHash
  else if isSigHashSingle hashType then
    match nth_error (txOutputs transaction) inputIndex with
    | None => Ok zeroHash
    | Some output => do w <- hashOutput [] output; Ok (finalize w)
    end
  else do w <- forEachWrite hashOutput [] (txOutputs transaction); Ok (finalize w).

Definition specSigHash (transaction : SerializableTransaction) (hashType : Z)
  (inputIndex : nat) : Result (list Z) :=
  do w <- writeUInt16LE [] (txVersion transaction);
  do h <- specPreviousOutputsHash transaction hashType;
  let w := w ++ uint8ArrayOf h in
  do h <- specSequencesHash transaction hashType;
  let w := w ++ uint8ArrayOf h in
  do h <- specSigOpCountsHash transaction hashType;
  let w := w ++ uint8ArrayOf h in
  do input <- defined (nth_error (txInputs transaction) inputIndex);
  do w <- hashOutpoint w input;
  do w <- writeUInt16LE w 0;
  do utxo <- defined (nth_error (utxos transaction) inputIndex);
  do w <- writeVarBytes w (utxoScriptPublicKey utxo);
  do w <- writeUInt64LE w (utxoAmount utxo);
  do w <- writeUInt64LE w (sequence input);
  do w <- writeUInt8 w 1;
  do h <- specOutputsHash transaction inputIndex hashType;
  let w := w ++ uint8ArrayOf h in
  do w <- writeUInt64LE w (lockTime transaction);
  let w := w ++ repeat 0 20 in
  do w <- writeUInt64LE w 0;
  let w := w ++ repeat 0 32 in
  do w <- writeUInt8 w hashType;
  Ok (blake2b w TRANSACTION_SIGNING_HASH_KEY).

(** The memoized value of each cache field: the sub-hash over the whole
    list, which does not depend on the hash type. *)
Definition memoPreviousOutputs (transaction : SerializableTransaction) : Result (list Z) :=
  do w <- forEachWrite hashOutpoint [] (txInputs transaction); Ok (finalize w).
Definition memoSequences (transaction : SerializableTransaction) : Result (list Z) :=
  do w <- forEachWrite (fun w input => writeUInt64LE w (sequence input)) []
            (txInputs transaction);
  Ok (finalize w).
Definition memoSigOpCounts (transaction : SerializableTransaction) : Result (list Z) :=
  do w <- forEachWrite (fun w (_ : SerializableInput) => writeUInt8 w 1) []
            (txInputs transaction);
  Ok (finalize w).
Definition memoOutputs (transaction : SerializableTransaction) : Result (list Z) :=
  do w <- forEachWrite hashOutput [] (txOutputs transaction); Ok (finalize w).

Definition memoOf (r : Result (list Z)) (m : option (list Z)) : Prop :=
  forall h, m = Some h -> r = Ok h.

(** Every populated field of the cache holds the sub-hash of this
    transaction. *)
Definition consistent (transaction : SerializableTransaction) (cache : HashCache) : Prop :=
  memoOf (memoPreviousOutputs transaction) (previousOutputsHash cache)
  /\ memoOf (memoSequences transaction) (sequencesHash cache)
  /\ memoOf (memoSigOpCounts transaction) (sigOpCountsHash cache)
  /\ memoOf (memoOutputs transaction) (outputsHash cache).

(** A cached computation agrees with an uncached one: from a consistent
    cache it returns the same result and leaves a consistent cache. *)
Definition agrees (transaction : SerializableTransaction) {A : Type}
  (m : Cached A) (r : Result A) : Prop :=
  forall cache, consistent transaction cache ->
    fst (m cache) = r /\ consistent transaction (snd (m cache)).

(** The transaction with the signature scripts of its inputs erased. *)
Definition eraseTx (t : SerializableTransaction) : SerializableTransaction :=
  withInputs t (map eraseScript (txInputs t)).

(** The signature script [buildSignedTransaction] stores for a signature. *)
Definition signatureScriptOf (signature : list Z) : string :=
  bytesToHex (uint8ArrayOf ([0x41] ++ signature ++ [SIGHASH_ALL])).

(** The caches that calls of [calculateSigHash] on one transaction produce,
    starting from the empty one, whatever the hash types and indices. *)
Inductive cacheOf (transaction : SerializableTransaction) : HashCache -> Prop :=
| cacheOf_empty : cacheOf transaction emptyCache
| cacheOf_call (cache : HashCache) (hashType : Z) (inputIndex : nat) :
    cacheOf transaction cache ->
    cacheOf transaction (snd (calculateSigHash transaction hashType inputIndex cache)).

End WithPrimitives.

(** *** Reading a payload back *)

(** The integer a decimal string of the payload denotes. *)
Definition parseBigint (s : string) : option Z :=
  option_map Z.of_int (NilZero.int_of_string s).

Fixpoint sumAmounts (l : list (option Z)) : option Z :=
  match l with
  | [] => Some 0
  | Some a :: rest => option_map (Z.add a) (sumAmounts rest)
  | None :: _ => None
  end.

(** The sum of the output amounts of a payload. *)
Definition payloadOutputTotal (p : SignedTransactionPayload) : option Z :=
  sumAmounts (map (fun o => parseBigint (amount o)) (payloadOutputs p)).

Definition sumZ (l : list Z) : Z := fold_right Z.add 0 l.

(** The sum of the input amounts of a request. *)
Definition inputTotal (params : TransactionSigningParams) : Z :=
  sumZ (map inAmount (inputs params)).

(** The sum of the requested output amounts. *)
Definition requestedTotal (params : TransactionSigningParams) : Z :=
  sumZ (map toAmount (outputs params)).

(** [params.dustThreshold ?? 546] *)
Definition dustOf (params : TransactionSigningParams) : Z :=
  match dustThreshold params with Some d => d | None => 546 end.

(** *** An instance of the primitives to run the engine on concrete requests

    The hash and the signature are placeholders of the right length (the
    properties below do not depend on what they compute); every 32-byte key
    is accepted; [hexToBytes] reads pairs of hexadecimal digits. *)

Definition hexValue (c : ascii) : option Z :=
  let n := Str.charCode c in
  if (48 <=? n) && (n <=? 57) then Some (n - 48)
  else if (97 <=? n) && (n <=? 102) then Some (n - 87)
  else if (65 <=? n) && (n <=? 70) then Some (n - 55)
  else None.

Fixpoint parseHex (s : string) : list Z :=
  match s with
  | String a (String b rest) =>
      match hexValue a, hexValue b with
      | Some x, Some y => (16 * x + y) :: parseHex rest
      | _, _ => []
      end
  | _ => []
  end.

Definition samplePrimitives : Primitives := {|
  blake2b := fun data key => firstn 32 (data ++ key ++ repeat 0 32);
  schnorrSign := fun aux msg key => firstn 64 (msg ++ key ++ repeat 0 64);
  auxRand := fun _ => repeat 0 32;
  isValidPrivateKey := fun key => Nat.eqb (List.length key) 32;
  hexToBytes := parseHex
|}.

(** *** Sample requests *)

Definition addressA : string :=
  "kaspa:qp0l70zd5x85ttwd6jv7g3s3a8llzj96d8dncn4zmhv4tlzx5k2jyqh70xmfj".

(** The address of the 32-byte key [01 01 .. 01] on the main network. *)
Definition addressB : string :=
  Eval vm_compute in
    match Address.encodeKaspaAddress (repeat 1 32) "kaspa" 0 with
    | Ok a => a
    | Err _ => EmptyString
    end.

Definition sampleTxId : string :=
  "00112233445566778899aabbccddeeff00112233445566778899aabbccddeeff".

Definition sampleKey : list Z := repeat 1 32.

Definition requestOf (ins : list TransactionSigningInput)
  (outs : list TransactionSigningOutput) (fee : Z) : TransactionSigningParams :=
  mkParams ins outs addressA fee sampleKey ["kaspa"%string] None.

(** One input of 100000000, one output of 50000000, fee 1000. *)
Definition spendRequest : TransactionSigningParams :=
  requestOf [mkSigningInput sampleTxId 0 addressA 100000000]
            [mkSigningOutput addressB 50000000] 1000.

(** One input of 1000, one output of 900, fee 0: the leftover 100 is dust. *)
Definition dustRequest : TransactionSigningParams :=
  requestOf [mkSigningInput sampleTxId 0 addressA 1000]
            [mkSigningOutput addressB 900] 0.

(** An input of amount 0 next to one of 1000; output 500, fee 500. *)
Definition zeroInputRequest : TransactionSigningParams :=
  requestOf [mkSigningInput sampleTxId 0 addressA 0;
             mkSigningInput sampleTxId 1 addressA 1000]
            [mkSigningOutput addressB 500] 500.

(** As [zeroInputRequest], with the amounts -1 and 1001 in place of 0 and
    1000. *)
Definition negativeInputRequest : TransactionSigningParams :=
  requestOf [mkSigningInput sampleTxId 0 addressA (-1);
             mkSigningInput sampleTxId 1 addressA 1001]
            [mkSigningOutput addressB 500] 500.

(** An input of 100 against an output of 200. *)
Definition shortRequest : TransactionSigningParams :=
  requestOf [mkSigningInput sampleTxId 0 addressA 100]
            [mkSigningOutput addressB 200] 0.

(** An output of amount 0 behind an input whose address has no [':']. *)
Definition badInputRequest : TransactionSigningParams :=
  requestOf [mkSigningInput sampleTxId 0 "kaspa" 1000]
            [mkSigningOutput addressB 0] 0.

(** A positive output followed by an output of amount 0. *)
Definition zeroOutputRequest : TransactionSigningParams :=
  requestOf [mkSigningInput sampleTxId 0 addressA 1000]
            [mkSigningOutput addressB 100; mkSigningOutput addressB 0] 0.

Definition emptyPayload : SignedTransactionPayload :=
  mkPayload 0 [] [] EmptyString EmptyString false.

Definition payloadOfSample (params : TransactionSigningParams) : SignedTransactionPayload :=
  match @buildSignedTransaction samplePrimitives params with
  | Ok p => p
  | Err _ => emptyPayload
  end.

(** The unsigned transaction of [spendRequest]. *)
Definition spendTransaction : SerializableTransaction :=
  Eval vm_compute in
    match @buildUnsigned samplePrimitives spendRequest with
    | Ok t => t
    | Err _ => mkTx 0 [] [] 0 EmptyString []
    end.

Definition spendPayload : SignedTransactionPayload :=
  Eval vm_compute in payloadOfSample spendRequest.
Definition dustPayload : SignedTransactionPayload :=
  Eval vm_compute in payloadOfSample dustRequest.
Definition zeroInputPayload : SignedTransactionPayload :=
  Eval vm_compute in payloadOfSample zeroInputRequest.

End Transaction.

(** ** Wallet helpers ([src/lib/wallet.ts], with the networks of [src/types]) *)

Module Wallet.
Import JS.

Record KaspaNetwork : Type := mkNetwork {
  id : string;
  name : string;
  apiUrl : string;
  explorerUrl : string;
  prefix : string;
  isTestnet : bool
}.

Definition mainnet : KaspaNetwork :=
  mkNetwork "mainnet" "Mainnet" "https://api.kaspa.org" "https://explorer.kaspa.org"
            "kaspa" false.
Definition testnet10 : KaspaNetwork :=
  mkNetwork "testnet10" "Testnet 10" "https://api-tn10.kaspa.org"
            "https://explorer-tn10.kaspa.org" "kaspatest" true.
Definition testnet11 : KaspaNetwork :=
  mkNetwork "testnet11" "Testnet 11" "https://api-tn11.kaspa.org"
            "https://explorer-tn11.kaspa.org" "kaspatest" true.

(** The object [NETWORKS], keyed by network name. *)
Definition NETWORKS : list (string * KaspaNetwork) :=
  [("mainnet"%string, mainnet); ("testnet10"%string, testnet10);
   ("testnet11"%string, testnet11)].

(** [new DataView(buffer.buffer).setUint32(byteOffset, value, false)]: the
    value is converted to an unsigned 32-bit integer and stored big-endian. *)
Definition setUint32 (buffer : list Z) (byteOffset : nat) (value : Z) : list Z :=
  let v := toUint32 value in
  let buffer := u8set buffer byteOffset (Z.shiftr v 24) in
  let buffer := u8set buffer (byteOffset + 1) (Z.shiftr v 16) in
  let buffer := u8set buffer (byteOffset + 2) (Z.shiftr v 8) in
  u8set buffer (byteOffset + 3) v.

Definition accountIndexToBytes (index : Z) : list Z :=
  let buffer := newUint8Array 4 in
  setUint32 buffer 0 index.

(** [b.toString(16)] on the value of a byte. *)
Definition toString16 (b : Z) : string :=
  if b <? 16 then String (Transaction.hexDigit b) EmptyString
  else String (Transaction.hexDigit (b / 16))
         (String (Transaction.hexDigit (b mod 16)) EmptyString).

(** [s.padStart(2, '0')] *)
Definition padStart2 (s : string) : string :=
  match s with
  | EmptyString => "00"
  | String c EmptyString => String "0" (String c EmptyString)
  | _ => s
  end.

(** [Array.from(arr).map((b) => b.toString(16).padStart(2, '0')).join('')] *)
Definition uint8ArrayToHex (arr : list Z) : string :=
  String.concat EmptyString (map (fun b => padStart2 (toString16 (u8 b))) arr).

Definition isValidKaspaAddress (address : string) (network : KaspaNetwork) : bool :=
  if String.eqb address EmptyString then false
  else Address.isKaspaAddressForNetwork address (prefix network).

End Wallet.

(** ** Coin selection and the send path ([src/stores/walletStore.ts]) *)

Module WalletStore.







Section WithPrimitives.
Context {P : Transaction.Primitives}.


End WithPrimitives.


(** *** Sample UTXOs *)




End WalletStore.

(** ** Vocabulary of the further properties *)

(** The number a list of bytes denotes, least significant first. *)
Fixpoint leValue (bytes : list Z) : Z :=
  match bytes with
  | [] => 0
  | b :: rest => b + 256 * leValue rest
  end.

(** The map of one step of [polymod] on the 40-bit value of its state, for
    the input symbol 0: the low 35 bits move up by 5 and the generator
    constants selected by the high 5 bits are added. *)
Definition polymodShift (v : Z) : Z :=
  Z.lxor ((v mod 2 ^ 35) * 32)
         (Address.genMask (v / 2 ^ 35) 0 Address.GENERATOR1 Address.GENERATOR2).

(** The requests that [buildSignedTransaction] answers with a payload: a
    valid key, inputs and outputs, a fee that is not negative, addresses that
    resolve, amounts and output indices in the range of the fields they are
    hashed in, positive output amounts, inputs that cover outputs and fee,
    and, when there is a change output, a change address that resolves and a
    change in the range of its field. *)
Definition signable {P : Transaction.Primitives}
  (params : Transaction.TransactionSigningParams) : Prop :=
  let prefixes := Transaction.addressPrefixes params in
  let change := Transaction.inputTotal params - Transaction.requestedTotal params
                - Transaction.fee params in
  Transaction.isValidPrivateKey (Transaction.privateKey params) = true
  /\ Transaction.inputs params <> []
  /\ Transaction.outputs params <> []
  /\ 0 <= Transaction.fee params
  /\ Forall (fun i => Transaction.resolves prefixes (Transaction.inAddress i)
                      /\ 0 <= Transaction.inAmount i < 2 ^ 64
                      /\ 0 <= Transaction.vOut i < 2 ^ 32)
            (Transaction.inputs params)
  /\ Forall (fun o => Transaction.resolves prefixes (Transaction.toAddress o)
                      /\ 0 < Transaction.toAmount o < 2 ^ 64)
            (Transaction.outputs params)
  /\ 0 <= change
  /\ (Transaction.dustOf params <= change ->
      Transaction.resolves prefixes (Transaction.changeAddress params)
      /\ change < 2 ^ 64).

(** The transaction with other outputs. *)
Definition withOutputs (t : Transaction.SerializableTransaction)
  (outs : list Transaction.SerializableOutput) : Transaction.SerializableTransaction :=
  Transaction.mkTx (Transaction.txVersion t) (Transaction.txInputs t) outs
                   (Transaction.lockTime t) (Transaction.subnetworkId t)
                   (Transaction.utxos t).

(** The request with another change address. *)
Definition withChangeAddress (params : Transaction.TransactionSigningParams)
  (address : string) : Transaction.TransactionSigningParams :=
  Transaction.mkParams (Transaction.inputs params) (Transaction.outputs params) address
                       (Transaction.fee params) (Transaction.privateKey params)
                       (Transaction.addressPrefixes params)
                       (Transaction.dustThreshold params).

(** *** A sample address of another kind *)

(** The address of the 32-byte script hash [03 03 .. 03] on a test network. *)
Definition addressScriptHash : string :=
  Eval vm_compute in
    match Address.encodeKaspaAddress (repeat 3 32) "kaspatest" 8 with
    | Ok a => a
    | Err _ => EmptyString
    end.

(** The errors [decodeKaspaAddress] raises. *)
Definition isDecodeError (e : Error) : bool :=
  match e with
  | MixedCase | InvalidFormat | UnknownPrefix | InvalidCharacter | InvalidChecksum
  | InvalidPadding | EmptyPayload => true
  | _ => false
  end.

(** The errors [addressToScriptPublicKey] raises. *)
Definition isAddressError (e : Error) : bool :=
  isDecodeError e
  || match e with
     | UnsupportedVersion | InvalidKeyLength | InvalidHashLength => true
     | _ => false
     end.

(** The errors [buildSignedTransaction] raises. *)
Definition isBuildError (e : Error) : bool :=
  isAddressError e
  || match e with
     | InvalidPrivateKey | NoInputs | NoOutputs | NegativeFee | NonPositiveOutputAmount
     | InsufficientBalance | RangeError => true
     | _ => false
     end.

(** * Properties of the transaction signing engine *)

Section EngineFacts.
Import Transaction.
Context {P : Primitives}.

Lemma bind_Ok_inv {A B : Type} (r : Result A) (k : A -> Result B) (b : B) :
  bind r k = Ok b -> exists a, r = Ok a /\ k a = Ok b.
Proof.
  destruct r as [a | e]; simpl; intros H; [eauto | discriminate].
Qed.

Lemma sumZ_app (l1 l2 : list Z) : sumZ (l1 ++ l2) = sumZ l1 + sumZ l2.
Proof.
  induction l1 as [| x l1 IH]; simpl; [reflexivity | rewrite IH; lia].
Qed.

(** *** The two construction loops *)

(** What the input loop leaves in the working transaction. *)
Lemma inputLoop_inv prefixes ins : forall t total t' total',
  inputLoop prefixes ins t total = Ok (t', total') ->
  total' = total + sumZ (map inAmount ins)
  /\ txOutputs t' = txOutputs t
  /\ txVersion t' = txVersion t
  /\ lockTime t' = lockTime t
  /\ subnetworkId t' = subnetworkId t
  /\ txInputs t' = txInputs t ++ map unsignedInput ins
  /\ exists us, utxos t' = utxos t ++ us /\ Forall2 (utxoFor prefixes) ins us.
Proof.
  induction ins as [| input rest IH]; simpl; intros t total t' total' H.
  - inversion H; subst. rewrite Z.add_0_r, !app_nil_r.
    repeat split; auto. exists []. rewrite app_nil_r. auto.
  - apply bind_Ok_inv in H. destruct H as (script & Hs & H).
    apply IH in H. destruct H as (Ht & Ho & Hv & Hl & Hn & Hi & us & Hu & Hf).
    simpl in *. unfold toSafeBigInt in *.
    rewrite <- app_assoc in Hi, Hu. simpl in Hi, Hu.
    repeat split; auto; try lia.
    eexists; split; [exact Hu |]. constructor; [| exact Hf].
    split; simpl; auto.
Qed.

(** The input loop succeeds when every input address resolves. *)
Lemma inputLoop_total prefixes ins : forall t total,
  Forall (fun i => resolves prefixes (inAddress i)) ins ->
  exists t', inputLoop prefixes ins t total = Ok (t', total + sumZ (map inAmount ins)).
Proof.
  induction ins as [| input rest IH]; simpl; intros t total H.
  - exists t. rewrite Z.add_0_r. reflexivity.
  - inversion H as [| ? ? [script Hs] Hrest]; subst.
    rewrite Hs. simpl. unfold toSafeBigInt.
    edestruct (IH (pushInput t (mkInput (txId input) (vOut input) EmptyString 0 1)
                     (mkUtxo script (inAmount input))) (total + inAmount input) Hrest)
      as [t' Ht'].
    exists t'. rewrite Ht'. do 2 f_equal. lia.
Qed.

(** What the output loop leaves in the working transaction. *)
Lemma outputLoop_inv prefixes outs : forall t total t' total',
  outputLoop prefixes outs t total = Ok (t', total') ->
  total' = total + sumZ (map toAmount outs)
  /\ txInputs t' = txInputs t
  /\ utxos t' = utxos t
  /\ txVersion t' = txVersion t
  /\ lockTime t' = lockTime t
  /\ subnetworkId t' = subnetworkId t
  /\ Forall (fun o => 0 < toAmount o) outs
  /\ exists os, txOutputs t' = txOutputs t ++ os /\ Forall2 (outputFor prefixes) outs os.
Proof.
  induction outs as [| output rest IH]; simpl; intros t total t' total' H.
  - inversion H; subst. rewrite Z.add_0_r.
    repeat split; auto. exists []. rewrite app_nil_r. auto.
  - unfold toSafeBigInt in H.
    destruct (toAmount output <=? 0) eqn:Hpos; [discriminate |].
    apply Z.leb_gt in Hpos.
    apply bind_Ok_inv in H. destruct H as (script & Hs & H).
    apply IH in H. destruct H as (Ht & Hi & Hu & Hv & Hl & Hn & Hp & os & Ho & Hf).
    simpl in *. rewrite <- app_assoc in Ho. simpl in Ho.
    repeat split; auto; try lia.
    eexists; split; [exact Ho |]. constructor; [| exact Hf].
    exists script. auto.
Qed.

(** The output loop succeeds when every amount is positive and every
    address resolves. *)
Lemma outputLoop_total prefixes outs : forall t total,
  Forall (fun o => 0 < toAmount o /\ resolves prefixes (toAddress o)) outs ->
  exists t', outputLoop prefixes outs t total = Ok (t', total + sumZ (map toAmount outs)).
Proof.
  induction outs as [| output rest IH]; simpl; intros t total H.
  - exists t. rewrite Z.add_0_r. reflexivity.
  - inversion H as [| ? ? [Hpos [script Hs]] Hrest]; subst.
    unfold toSafeBigInt.
    destruct (toAmount output <=? 0) eqn:Hle; [apply Z.leb_le in Hle; lia |].
    rewrite Hs. simpl.
    edestruct (IH (pushOutput t (mkOutput (toAmount output) (mkSpk 0 (bytesToHex script))))
                  (total + toAmount output) Hrest) as [t' Ht'].
    exists t'. rewrite Ht'. do 2 f_equal. lia.
Qed.

(** The output loop stops at the first non-positive amount it reaches. *)
Lemma outputLoop_nonpositive prefixes pre bad post : forall t total,
  Forall (fun o => 0 < toAmount o /\ resolves prefixes (toAddress o)) pre ->
  toAmount bad <= 0 ->
  outputLoop prefixes (pre ++ bad :: post) t total = Err NonPositiveOutputAmount.
Proof.
  induction pre as [| output rest IH]; simpl; intros t total H Hbad.
  - unfold toSafeBigInt. apply Z.leb_le in Hbad. rewrite Hbad. reflexivity.
  - inversion H as [| ? ? [Hpos [script Hs]] Hrest]; subst.
    unfold toSafeBigInt.
    destruct (toAmount output <=? 0) eqn:Hle; [apply Z.leb_le in Hle; lia |].
    rewrite Hs. simpl. apply IH; assumption.
Qed.

(** *** The sub-hash cache *)

Lemma consistent_empty t : consistent t emptyCache.
Proof. unfold consistent; simpl. repeat apply conj; intros h H; discriminate. Qed.

Lemma getPreviousOutputsHash_spec t hashType cache :
  consistent t cache ->
  fst (getPreviousOutputsHash t hashType cache) = specPreviousOutputsHash t hashType
  /\ consistent t (snd (getPreviousOutputsHash t hashType cache)).
Proof.
  intros Hc. pose proof Hc as (H1 & H2 & H3 & H4).
  unfold getPreviousOutputsHash, specPreviousOutputsHash.
  destruct (isSigHashAnyoneCanPay hashType); simpl; [split; [reflexivity | exact Hc] |].
  destruct (previousOutputsHash cache) as [h |] eqn:E; simpl.
  - split; [symmetry; apply (H1 h eq_refl) | exact Hc].
  - destruct (forEachWrite hashOutpoint [] (txInputs t)) as [w | e] eqn:Ew; simpl.
    + split; [reflexivity |]. unfold consistent; simpl. repeat apply conj; try assumption.
      intros h Hh. inversion Hh; subst. unfold memoPreviousOutputs. rewrite Ew. reflexivity.
    + split; [reflexivity | exact Hc].
Qed.

Lemma getSequencesHash_spec t hashType cache :
  consistent t cache ->
  fst (getSequencesHash t hashType cache) = specSequencesHash t hashType
  /\ consistent t (snd (getSequencesHash t hashType cache)).
Proof.
  intros Hc. pose proof Hc as (H1 & H2 & H3 & H4).
  unfold getSequencesHash, specSequencesHash.
  destruct (isSigHashSingle hashType || isSigHashAnyoneCanPay hashType
            || isSigHashNone hashType); simpl; [split; [reflexivity | exact Hc] |].
  destruct (sequencesHash cache) as [h |] eqn:E; simpl.
  - split; [symmetry; apply (H2 h eq_refl) | exact Hc].
  - destruct (forEachWrite _ [] (txInputs t)) as [w | e] eqn:Ew; simpl.
    + split; [reflexivity |]. unfold consistent; simpl. repeat apply conj; try assumption.
      intros h Hh. inversion Hh; subst. unfold memoSequences. rewrite Ew. reflexivity.
    + split; [reflexivity | exact Hc].
Qed.

Lemma getSigOpCountsHash_spec t hashType cache :
  consistent t cache ->
  fst (getSigOpCountsHash t hashType cache) = specSigOpCountsHash t hashType
  /\ consistent t (snd (getSigOpCountsHash t hashType cache)).
Proof.
  intros Hc. pose proof Hc as (H1 & H2 & H3 & H4).
  unfold getSigOpCountsHash, specSigOpCountsHash.
  destruct (isSigHashAnyoneCanPay hashType); simpl; [split; [reflexivity | exact Hc] |].
  destruct (sigOpCountsHash cache) as [h |] eqn:E; simpl.
  - split; [symmetry; apply (H3 h eq_refl) | exact Hc].
  - destruct (forEachWrite _ [] (txInputs t)) as [w | e] eqn:Ew; simpl.
    + split; [reflexivity |]. unfold consistent; simpl. repeat apply conj; try assumption.
      intros h Hh. inversion Hh; subst. unfold memoSigOpCounts. rewrite Ew. reflexivity.
    + split; [reflexivity | exact Hc].
Qed.

Lemma getOutputsHash_spec t inputIndex hashType cache :
  consistent t cache ->
  fst (getOutputsHash t inputIndex hashType cache) = specOutputsHash t inputIndex hashType
  /\ consistent t (snd (getOutputsHash t inputIndex hashType cache)).
Proof.
  intros Hc. pose proof Hc as (H1 & H2 & H3 & H4).
  unfold getOutputsHash, specOutputsHash.
  destruct (isSigHashNone hashType); simpl; [split; [reflexivity | assumption] |].
  destruct (isSigHashSingle hashType); simpl.
  - destruct (Nat.leb_spec (List.length (txOutputs t)) inputIndex) as [Hle | Hlt]; simpl.
    + apply nth_error_None in Hle. rewrite Hle. split; [reflexivity | assumption].
    + destruct (nth_error (txOutputs t) inputIndex) as [output |] eqn:En.
      * destruct (hashOutput [] output); simpl; split; auto.
      * apply nth_error_None in En. lia.
  - destruct (outputsHash cache) as [h |] eqn:E; simpl.
    + split; [symmetry; apply (H4 h eq_refl) | assumption].
    + destruct (forEachWrite hashOutput [] (txOutputs t)) as [w | e] eqn:Ew; simpl.
      * split; [reflexivity |]. unfold consistent; simpl. repeat apply conj; try assumption.
        intros h Hh. inversion Hh; subst. unfold memoOutputs. rewrite Ew. reflexivity.
      * split; [reflexivity | assumption].
Qed.

Lemma agrees_ret t {A : Type} (a : A) : agrees t (cret a) (Ok a).
Proof. intros c Hc. split; [reflexivity | exact Hc]. Qed.

Lemma agrees_lift t {A : Type} (r : Result A) : agrees t (lift r) r.
Proof. intros c Hc. split; [reflexivity | exact Hc]. Qed.

Lemma agrees_bind t {A B : Type} (m : Cached A) (r : Result A)
  (k : A -> Cached B) (k' : A -> Result B) :
  agrees t m r -> (forall a, agrees t (k a) (k' a)) -> agrees t (cbind m k) (bind r k').
Proof.
  intros Hm Hk c Hc. unfold cbind.
  destruct (Hm c Hc) as [E C]. destruct (m c) as [[a | e] c']; simpl in *; subst r; simpl.
  - apply Hk, C.
  - split; [reflexivity | exact C].
Qed.

(** With a consistent cache, [calculateSigHash] returns what the uncached
    computation returns and leaves a consistent cache. *)
Lemma calculateSigHash_spec t hashType inputIndex :
  agrees t (calculateSigHash t hashType inputIndex) (specSigHash t hashType inputIndex).
Proof.
  unfold calculateSigHash, specSigHash.
  repeat first
    [ apply agrees_ret
    | apply agrees_bind;
      [ first [ apply agrees_lift
              | exact (getPreviousOutputsHash_spec t hashType)
              | exact (getSequencesHash_spec t hashType)
              | exact (getSigOpCountsHash_spec t hashType)
              | exact (getOutputsHash_spec t inputIndex hashType) ]
      | intro ] ].
Qed.

Lemma cacheOf_consistent t cache : cacheOf t cache -> consistent t cache.
Proof.
  induction 1 as [| cache hashType inputIndex _ IH].
  - apply consistent_empty.
  - apply (calculateSigHash_spec t hashType inputIndex cache IH).
Qed.

(** *** Signature scripts do not enter the signature hash *)

Lemma forEachWrite_erase (f : list Z -> SerializableInput -> Result (list Z)) :
  (forall w x, f w (eraseScript x) = f w x) ->
  forall l w, forEachWrite f w (map eraseScript l) = forEachWrite f w l.
Proof.
  intros Hf. induction l as [| x l IH]; simpl; intros w; [reflexivity |].
  rewrite Hf. destruct (f w x); simpl; auto.
Qed.

Lemma memoPreviousOutputs_erase t : memoPreviousOutputs (eraseTx t) = memoPreviousOutputs t.
Proof.
  unfold memoPreviousOutputs. simpl. rewrite forEachWrite_erase; reflexivity.
Qed.

Lemma memoSequences_erase t : memoSequences (eraseTx t) = memoSequences t.
Proof.
  unfold memoSequences. simpl. rewrite forEachWrite_erase; reflexivity.
Qed.

Lemma memoSigOpCounts_erase t : memoSigOpCounts (eraseTx t) = memoSigOpCounts t.
Proof.
  unfold memoSigOpCounts. simpl. rewrite forEachWrite_erase; reflexivity.
Qed.

Lemma specSigHash_erase t hashType i :
  specSigHash (eraseTx t) hashType i = specSigHash t hashType i.
Proof.
  unfold specSigHash, specPreviousOutputsHash, specSequencesHash, specSigOpCountsHash,
    specOutputsHash.
  pose proof (memoPreviousOutputs_erase t) as E1.
  pose proof (memoSequences_erase t) as E2.
  pose proof (memoSigOpCounts_erase t) as E3.
  unfold memoPreviousOutputs, memoSequences, memoSigOpCounts in E1, E2, E3.
  rewrite E1, E2, E3. simpl.
  rewrite nth_error_map.
  destruct (nth_error (txInputs t) i) as [input |]; reflexivity.
Qed.

Lemma specSigHash_sameBody t1 t2 hashType i :
  eraseTx t1 = eraseTx t2 -> specSigHash t1 hashType i = specSigHash t2 hashType i.
Proof.
  intros E. rewrite <- (specSigHash_erase t1), <- (specSigHash_erase t2), E. reflexivity.
Qed.

Lemma consistent_sameBody t1 t2 cache :
  eraseTx t1 = eraseTx t2 -> consistent t1 cache -> consistent t2 cache.
Proof.
  intros E (H1 & H2 & H3 & H4). unfold consistent.
  rewrite <- (memoPreviousOutputs_erase t2), <- (memoSequences_erase t2),
    <- (memoSigOpCounts_erase t2), <- E,
    memoPreviousOutputs_erase, memoSequences_erase, memoSigOpCounts_erase.
  repeat apply conj; try assumption.
  assert (Ho : txOutputs t2 = txOutputs t1)
    by (change (txOutputs (eraseTx t2) = txOutputs (eraseTx t1)); rewrite E; reflexivity).
  unfold memoOutputs. rewrite Ho. exact H4.
Qed.

(** *** The signing loop *)

Lemma setSignatureScript_erase l : forall i script,
  map eraseScript (setSignatureScript l i script) = map eraseScript l.
Proof.
  induction l as [| x l IH]; intros [| i] script; simpl; try reflexivity.
  rewrite IH. reflexivity.
Qed.

Lemma setSignatureScript_length l : forall i script,
  List.length (setSignatureScript l i script) = List.length l.
Proof.
  induction l as [| x l IH]; intros [| i] script; simpl; auto.
Qed.

Lemma setSignatureScript_same l : forall i script x,
  nth_error l i = Some x ->
  nth_error (setSignatureScript l i script) i
  = Some (mkInput (transactionId x) (index x) script (sequence x) (sigOpCount x)).
Proof.
  induction l as [| y l IH]; intros [| i] script x H; simpl in *; try discriminate.
  - inversion H; reflexivity.
  - apply IH, H.
Qed.

Lemma setSignatureScript_other l : forall i j script,
  i <> j -> nth_error (setSignatureScript l i script) j = nth_error l j.
Proof.
  induction l as [| y l IH]; intros [| i] [| j] script H; simpl; try reflexivity.
  - congruence.
  - apply IH. congruence.
Qed.

(** One round of the loop: the hash signed is the uncached signature hash
    of the unsigned transaction [t0]. *)
Lemma signInput_inv key t0 t i cache t' cache' :
  eraseTx t = eraseTx t0 -> consistent t0 cache ->
  signInput key t i cache = (Ok t', cache') ->
  exists sigHash,
    specSigHash t0 SIGHASH_ALL i = Ok sigHash
    /\ t' = withInputs t (setSignatureScript (txInputs t) i
                            (signatureScriptOf (schnorrSign (auxRand i) sigHash key)))
    /\ eraseTx t' = eraseTx t0
    /\ consistent t0 cache'.
Proof.
  intros E Hc H. unfold signInput in H.
  assert (Hc' : consistent t cache) by (apply (consistent_sameBody t0 t); auto).
  destruct (calculateSigHash_spec t SIGHASH_ALL i cache Hc') as [Es Cs].
  destruct (calculateSigHash t SIGHASH_ALL i cache) as [[sigHash | e] c1]; simpl in *;
    [| discriminate].
  inversion H; subst. exists sigHash.
  rewrite (specSigHash_sameBody t0 t) by auto.
  split; [auto | split; [reflexivity | split]].
  - rewrite <- E. unfold eraseTx, withInputs. simpl.
    rewrite setSignatureScript_erase. reflexivity.
  - apply (consistent_sameBody t t0); auto.
Qed.

(** The signing loop over distinct indices. *)
Lemma signLoop_inv key t0 indices : forall t cache t' cache',
  NoDup indices ->
  eraseTx t = eraseTx t0 -> consistent t0 cache ->
  signLoop key indices t cache = (Ok t', cache') ->
  eraseTx t' = eraseTx t0
  /\ consistent t0 cache'
  /\ List.length (txInputs t') = List.length (txInputs t)
  /\ (forall j, ~ In j indices -> nth_error (txInputs t') j = nth_error (txInputs t) j)
  /\ (forall i x, In i indices -> nth_error (txInputs t) i = Some x ->
        exists sigHash,
          specSigHash t0 SIGHASH_ALL i = Ok sigHash
          /\ nth_error (txInputs t') i
             = Some (mkInput (transactionId x) (index x)
                       (signatureScriptOf (schnorrSign (auxRand i) sigHash key))
                       (sequence x) (sigOpCount x))).
Proof.
  induction indices as [| i rest IH]; simpl; intros t cache t' cache' Hnd E Hc H.
  - inversion H; subst. split; [| split; [| split; [| split]]]; auto. intros i x [].
  - destruct (signInput key t i cache) as [[t1 | e] c1] eqn:Hs; [| discriminate].
    apply (signInput_inv key t0) in Hs; auto.
    destruct Hs as (sigHash & Hh & Ht1 & E1 & C1).
    apply NoDup_cons_iff in Hnd. destruct Hnd as [Hni Hnd'].
    destruct (IH t1 c1 t' cache' Hnd' E1 C1 H) as (E' & C' & Hlen & Hout & Hin).
    assert (Hin1 : txInputs t1 = setSignatureScript (txInputs t) i
                     (signatureScriptOf (schnorrSign (auxRand i) sigHash key)))
      by (rewrite Ht1; reflexivity).
    split; [| split; [| split; [| split]]]; auto.
    + rewrite Hlen, Hin1. apply setSignatureScript_length.
    + intros j Hj. rewrite Hout by tauto. rewrite Hin1.
      apply setSignatureScript_other. intros ->. tauto.
    + intros k x [-> | Hk] Hx.
      * exists sigHash. split; [exact Hh |].
        rewrite Hout by exact Hni. rewrite Hin1.
        apply setSignatureScript_same, Hx.
      * assert (Hne : i <> k) by (intros ->; tauto).
        apply (Hin k x Hk). rewrite Hin1, setSignatureScript_other; auto.
Qed.

(** *** The pipeline of [buildSignedTransaction] *)

Lemma buildSigned_inv params payload :
  buildSignedTransaction params = Ok payload ->
  exists t t' cache,
    buildUnsigned params = Ok t
    /\ signLoop (privateKey params) (seq 0 (List.length (txInputs t))) t emptyCache
       = (Ok t', cache)
    /\ payload = toPayload t'.
Proof.
  unfold buildSignedTransaction. intros H.
  apply bind_Ok_inv in H. destruct H as (t & Ht & H).
  apply bind_Ok_inv in H. destruct H as (t' & Ht' & H).
  inversion H; subst.
  destruct (signLoop _ _ t emptyCache) as [r cache] eqn:E. simpl in Ht'. subst r.
  exists t, t', cache. auto.
Qed.

(** What a successful construction has checked and built. *)
Lemma buildUnsigned_inv params t :
  buildUnsigned params = Ok t ->
  let change := inputTotal params - requestedTotal params - fee params in
  isValidPrivateKey (privateKey params) = true
  /\ inputs params <> []
  /\ outputs params <> []
  /\ 0 <= fee params
  /\ 0 <= change
  /\ txInputs t = map unsignedInput (inputs params)
  /\ Forall2 (utxoFor (addressPrefixes params)) (inputs params) (utxos t)
  /\ Forall (fun o => 0 < toAmount o) (outputs params)
  /\ exists os,
       Forall2 (outputFor (addressPrefixes params)) (outputs params) os
       /\ ((dustOf params <= change
            /\ exists script,
                 Address.addressToScriptPublicKey (changeAddress params)
                   (addressPrefixes params) = Ok script
                 /\ txOutputs t
                    = os ++ [mkOutput change (mkSpk 0 (bytesToHex script))])
           \/ (change < dustOf params /\ txOutputs t = os)).
Proof.
  unfold buildUnsigned, toSafeBigInt, inputTotal, requestedTotal, dustOf. intros H.
  destruct (isValidPrivateKey (privateKey params)) eqn:Hk; simpl in H; [| discriminate].
  destruct (inputs params) as [| i0 ins] eqn:Hi; [discriminate |].
  destruct (outputs params) as [| o0 outs] eqn:Ho; [discriminate |].
  cbn [List.length Nat.eqb] in H.
  destruct (fee params <? 0) eqn:Hf; [discriminate |]. apply Z.ltb_ge in Hf.
  apply bind_Ok_inv in H. destruct H as ([t1 totalInput] & H1 & H).
  apply bind_Ok_inv in H. destruct H as ([t2 totalOutput] & H2 & H).
  apply inputLoop_inv in H1. destruct H1 as (Ht1 & Ho1 & _ & _ & _ & Hin1 & us & Hu1 & Hus).
  apply outputLoop_inv in H2.
  destruct H2 as (Ht2 & Hin2 & Hu2 & _ & _ & _ & Hpos & os & Ho2 & Hos).
  simpl in Ho1, Hin1, Hu1. rewrite Ho1 in Ho2. simpl in Ho2.
  rewrite Hin1 in Hin2. rewrite Hu1 in Hu2.
  rewrite Z.add_0_l in Ht1, Ht2. subst totalInput totalOutput.
  set (change := sumZ (map inAmount (i0 :: ins)) - sumZ (map toAmount (o0 :: outs))
                 - fee params) in *.
  destruct (change <? 0) eqn:Hc; [discriminate |]. apply Z.ltb_ge in Hc.
  split; [reflexivity |]. split; [discriminate |]. split; [discriminate |].
  split; [exact Hf |]. split; [exact Hc |].
  destruct (match dustThreshold params with Some d => d | None => 546 end <=? change)
    eqn:Hd.
  - apply Z.leb_le in Hd.
    apply bind_Ok_inv in H. destruct H as (script & Hs & H). inversion H; subst t.
    simpl. rewrite Hin2, Hu2, Ho2.
    split; [reflexivity |]. split; [exact Hus |]. split; [exact Hpos |].
    exists os. split; [exact Hos |]. left. split; [exact Hd |].
    exists script. auto.
  - apply Z.leb_gt in Hd. inversion H; subst t.
    rewrite Hin2, Hu2, Ho2.
    split; [reflexivity |]. split; [exact Hus |]. split; [exact Hpos |].
    exists os. split; [exact Hos |]. right. auto.
Qed.

(** The signing loop of [buildSignedTransaction] touches the signature
    scripts only, and puts one on every input. *)
Lemma signAll_inv key t t' cache :
  signLoop key (seq 0 (List.length (txInputs t))) t emptyCache = (Ok t', cache) ->
  txOutputs t' = txOutputs t
  /\ List.length (txInputs t') = List.length (txInputs t)
  /\ forall i x, nth_error (txInputs t) i = Some x ->
       exists sigHash,
         specSigHash t SIGHASH_ALL i = Ok sigHash
         /\ nth_error (txInputs t') i
            = Some (mkInput (transactionId x) (index x)
                      (signatureScriptOf (schnorrSign (auxRand i) sigHash key))
                      (sequence x) (sigOpCount x)).
Proof.
  intros H.
  apply (signLoop_inv key t) in H;
    [| apply seq_NoDup | reflexivity | apply consistent_empty].
  destruct H as (E & _ & Hlen & _ & Hin).
  split; [| split; [exact Hlen |]].
  - change (txOutputs (eraseTx t') = txOutputs (eraseTx t)). rewrite E. reflexivity.
  - intros i x Hx. apply Hin; [| exact Hx].
    apply in_seq. split; [lia |]. simpl. apply nth_error_Some. congruence.
Qed.

(** *** Reading amounts back from the payload *)

Lemma parseBigint_toString (z : Z) : parseBigint (bigintToString z) = Some z.
Proof.
  unfold parseBigint, bigintToString.
  rewrite NilZero.isi.
  - simpl. rewrite DecimalZ.of_to. reflexivity.
  - destruct z as [| p | p]; simpl; try discriminate.
    intros H. inversion H as [H1]. revert H1. apply DecimalPos.Unsigned.to_uint_nonnil.
  - destruct z as [| p | p]; simpl; try discriminate.
    intros H. inversion H as [H1]. revert H1. apply DecimalPos.Unsigned.to_uint_nonnil.
Qed.

Lemma payloadOutputTotal_toPayload t :
  payloadOutputTotal (toPayload t) = Some (sumZ (map outAmount (txOutputs t))).
Proof.
  unfold payloadOutputTotal, toPayload. simpl.
  induction (txOutputs t) as [| o os IH]; simpl; [reflexivity |].
  rewrite parseBigint_toString, IH. reflexivity.
Qed.

Lemma outputFor_amounts prefixes outs os :
  Forall2 (outputFor prefixes) outs os -> map outAmount os = map toAmount outs.
Proof.
  induction 1 as [| o out outs os (script & _ & ->) _ IH]; simpl; [reflexivity |].
  rewrite IH. reflexivity.
Qed.

End EngineFacts.

(** * The specification of the signing engine *)

Import Transaction.

(** C2, as stated, fails: the request [dustRequest] (input 1000, output 900,
    fee 0) succeeds, and the outputs of its payload sum to 900, so that
    inputs = outputs + fee does not hold. *)
Lemma fee_conservation_counterexample :
  @buildSignedTransaction samplePrimitives dustRequest = Ok dustPayload
  /\ payloadOutputTotal dustPayload = Some 900
  /\ inputTotal dustRequest <> 900 + fee dustRequest.
Proof.
  split; [vm_compute; reflexivity |].
  split; [vm_compute; reflexivity |].
  vm_compute. discriminate.
Qed.

(** C2, amended: in every successful call the inputs equal the outputs of
    the payload plus the fee plus the leftover that got no change output.
    With [change = inputs - requested outputs - fee >= 0]: when
    [change >= dustThreshold] a change output carries it and
    [inputs = outputs + fee] holds exactly; when [change < dustThreshold]
    the payload holds the requested outputs only and
    [inputs = outputs + fee + change]. *)
Theorem fee_conservation_with_dust {P : Primitives} params payload :
  buildSignedTransaction params = Ok payload ->
  let change := inputTotal params - requestedTotal params - fee params in
  exists total,
    payloadOutputTotal payload = Some total
    /\ 0 <= change
    /\ total + fee params <= inputTotal params
    /\ (dustOf params <= change -> inputTotal params = total + fee params)
    /\ (change < dustOf params ->
        total = requestedTotal params /\ inputTotal params = total + fee params + change).
Proof.
  intros H change.
  apply buildSigned_inv in H. destruct H as (t & t' & cache & Hu & Hs & ->).
  apply signAll_inv in Hs. destruct Hs as (Ho & _ & _).
  apply buildUnsigned_inv in Hu.
  destruct Hu as (_ & _ & _ & Hfee & Hc & _ & _ & _ & os & Hos & Hcase).
  fold change in Hc, Hcase.
  rewrite payloadOutputTotal_toPayload, Ho.
  eexists. split; [reflexivity |]. split; [exact Hc |].
  pose proof (outputFor_amounts _ _ _ Hos) as Ha.
  unfold requestedTotal in *.
  destruct Hcase as [(Hd & script & _ & ->) | (Hd & ->)].
  - rewrite map_app, sumZ_app, Ha. simpl. subst change. unfold requestedTotal in *.
    repeat split; intros; lia.
  - rewrite Ha. subst change. unfold requestedTotal in *.
    repeat split; intros; lia.
Qed.

Lemma fee_conservation_with_dust_witness :
  let change := inputTotal dustRequest - requestedTotal dustRequest - fee dustRequest in
  exists total,
    payloadOutputTotal dustPayload = Some total
    /\ 0 <= change
    /\ total + fee dustRequest <= inputTotal dustRequest
    /\ (dustOf dustRequest <= change -> inputTotal dustRequest = total + fee dustRequest)
    /\ (change < dustOf dustRequest ->
        total = requestedTotal dustRequest
        /\ inputTotal dustRequest = total + fee dustRequest + change).
Proof.
  apply (@fee_conservation_with_dust samplePrimitives dustRequest dustPayload).
  vm_compute. reflexivity.
Defined.

(** C3: in every successful call, with
    [change = inputs - requested outputs - fee], the payload holds the
    requested outputs in order; when [change >= dustThreshold] (546 unless
    the request sets it) exactly one more output follows them, of amount
    [change], with the spend script of the change address and script
    version 0; when [0 <= change < dustThreshold] nothing follows them, and
    the payload has as many outputs as were requested. *)
Theorem change_output_rule {P : Primitives} params payload :
  buildSignedTransaction params = Ok payload ->
  let change := inputTotal params - requestedTotal params - fee params in
  0 <= change
  /\ (dustThreshold params = None -> dustOf params = 546)
  /\ exists os,
       Forall2 (outputFor (addressPrefixes params)) (outputs params) os
       /\ (dustOf params <= change ->
           exists script,
             Address.addressToScriptPublicKey (changeAddress params)
               (addressPrefixes params) = Ok script
             /\ payloadOutputs payload
                = map payloadOutputOf os
                  ++ [mkPayloadOutput (bigintToString change) (mkSpk 0 (bytesToHex script))])
       /\ (change < dustOf params ->
           payloadOutputs payload = map payloadOutputOf os
           /\ List.length (payloadOutputs payload) = List.length (outputs params)).
Proof.
  intros H change.
  apply buildSigned_inv in H. destruct H as (t & t' & cache & Hu & Hs & ->).
  apply signAll_inv in Hs. destruct Hs as (Ho & _ & _).
  apply buildUnsigned_inv in Hu.
  destruct Hu as (_ & _ & _ & _ & Hc & _ & _ & _ & os & Hos & Hcase).
  fold change in Hc, Hcase.
  split; [exact Hc |].
  split; [intros Hn; unfold dustOf; rewrite Hn; reflexivity |].
  exists os. split; [exact Hos |].
  unfold toPayload. simpl. rewrite Ho.
  fold payloadOutputOf.
  destruct Hcase as [(Hd & script & Hr & ->) | (Hd & ->)].
  - split; [| intros; lia]. intros _. exists script. split; [exact Hr |].
    rewrite map_app. reflexivity.
  - split; [intros; lia |]. intros _. split; [reflexivity |].
    rewrite length_map. symmetry. apply (Forall2_length Hos).
Qed.

Lemma change_output_rule_witness :
  let change := inputTotal spendRequest - requestedTotal spendRequest - fee spendRequest in
  0 <= change
  /\ (dustThreshold spendRequest = None -> dustOf spendRequest = 546)
  /\ exists os,
       Forall2 (outputFor (addressPrefixes spendRequest)) (outputs spendRequest) os
       /\ (dustOf spendRequest <= change ->
           exists script,
             Address.addressToScriptPublicKey (changeAddress spendRequest)
               (addressPrefixes spendRequest) = Ok script
             /\ payloadOutputs spendPayload
                = map payloadOutputOf os
                  ++ [mkPayloadOutput (bigintToString change) (mkSpk 0 (bytesToHex script))])
       /\ (change < dustOf spendRequest ->
           payloadOutputs spendPayload = map payloadOutputOf os
           /\ List.length (payloadOutputs spendPayload)
              = List.length (outputs spendRequest)).
Proof.
  apply (@change_output_rule samplePrimitives spendRequest spendPayload).
  vm_compute. reflexivity.
Defined.

(** C4: a call that passes the checks on the private key, the inputs, the
    outputs, the fee and the output amounts, and whose input and output
    addresses resolve, fails with [InsufficientBalance] when the inputs are
    below the outputs plus the fee; it returns no payload. *)
Theorem insufficient_balance {P : Primitives} params :
  isValidPrivateKey (privateKey params) = true ->
  inputs params <> [] ->
  outputs params <> [] ->
  0 <= fee params ->
  Forall (fun i => resolves (addressPrefixes params) (inAddress i)) (inputs params) ->
  Forall (fun o => 0 < toAmount o /\ resolves (addressPrefixes params) (toAddress o))
         (outputs params) ->
  inputTotal params < requestedTotal params + fee params ->
  buildSignedTransaction params = Err InsufficientBalance
  /\ forall payload, buildSignedTransaction params <> Ok payload.
Proof.
  intros Hk Hi Ho Hf Hri Hro Hlt.
  assert (H : buildSignedTransaction params = Err InsufficientBalance).
  { unfold buildSignedTransaction, buildUnsigned, toSafeBigInt.
    rewrite Hk. simpl negb. cbv iota zeta.
    destruct (inputs params) as [| i0 ins] eqn:Ei; [congruence |].
    destruct (outputs params) as [| o0 outs] eqn:Eo; [congruence |].
    cbn [List.length Nat.eqb].
    apply Z.ltb_ge in Hf. rewrite Hf.
    destruct (inputLoop_total (addressPrefixes params) (i0 :: ins)
                (mkTx 0 [] [] 0 DEFAULT_SUBNETWORK_ID []) 0 Hri) as [t1 Ht1].
    rewrite Ht1. cbn [bind].
    destruct (outputLoop_total (addressPrefixes params) (o0 :: outs) t1 0 Hro) as [t2 Ht2].
    rewrite Ht2. cbn [bind].
    unfold inputTotal, requestedTotal in Hlt. rewrite Ei, Eo in Hlt.
    match goal with |- context [?c <? 0] => destruct (c <? 0) eqn:Ec end;
      [reflexivity |].
    apply Z.ltb_ge in Ec. lia. }
  split; [exact H |]. intros payload. rewrite H. discriminate.
Qed.

Lemma resolves_addressA : resolves ["kaspa"%string] addressA.
Proof. eexists. vm_compute. reflexivity. Defined.

Lemma resolves_addressB : resolves ["kaspa"%string] addressB.
Proof. eexists. vm_compute. reflexivity. Defined.

Lemma insufficient_balance_witness :
  @buildSignedTransaction samplePrimitives shortRequest = Err InsufficientBalance
  /\ forall payload, @buildSignedTransaction samplePrimitives shortRequest <> Ok payload.
Proof.
  apply (@insufficient_balance samplePrimitives shortRequest).
  - reflexivity.
  - discriminate.
  - discriminate.
  - simpl. lia.
  - constructor; [exact resolves_addressA | constructor].
  - constructor; [split; [simpl; lia | exact resolves_addressB] | constructor].
  - vm_compute. reflexivity.
Defined.

(** C9, as stated, fails: [badInputRequest] has an output of amount 0, yet
    the call fails with the error of its input address, which is resolved
    before any output amount is looked at. *)
Lemma output_validation_counterexample :
  Exists (fun o => toAmount o <= 0) (outputs badInputRequest)
  /\ @buildSignedTransaction samplePrimitives badInputRequest = Err InvalidFormat
  /\ @buildSignedTransaction samplePrimitives badInputRequest
     <> Err NonPositiveOutputAmount.
Proof.
  split; [constructor; simpl; lia |].
  split; [vm_compute; reflexivity | vm_compute; discriminate].
Qed.

(** C9, amended: the amount of an output is checked inside the output loop,
    after the input loop has resolved the input addresses. A call that passes
    the checks on the private key, the inputs and the fee, whose input
    addresses all resolve, and whose outputs before the first non-positive
    one are positive with addresses that resolve, fails with
    [NonPositiveOutputAmount]. *)
Theorem nonpositive_output_rejected {P : Primitives} params pre bad post :
  isValidPrivateKey (privateKey params) = true ->
  inputs params <> [] ->
  0 <= fee params ->
  Forall (fun i => resolves (addressPrefixes params) (inAddress i)) (inputs params) ->
  outputs params = pre ++ bad :: post ->
  Forall (fun o => 0 < toAmount o /\ resolves (addressPrefixes params) (toAddress o)) pre ->
  toAmount bad <= 0 ->
  buildSignedTransaction params = Err NonPositiveOutputAmount.
Proof.
  intros Hk Hi Hf Hri Ho Hpre Hbad.
  unfold buildSignedTransaction, buildUnsigned, toSafeBigInt.
  rewrite Hk. simpl negb. cbv iota zeta.
  destruct (inputs params) as [| i0 ins] eqn:Ei; [congruence |].
  rewrite Ho.
  destruct (pre ++ bad :: post) as [| o0 outs] eqn:Eo;
    [destruct pre; discriminate |].
  cbn [List.length Nat.eqb].
  apply Z.ltb_ge in Hf. rewrite Hf.
  destruct (inputLoop_total (addressPrefixes params) (i0 :: ins)
              (mkTx 0 [] [] 0 DEFAULT_SUBNETWORK_ID []) 0 Hri) as [t1 Ht1].
  rewrite Ht1. cbn [bind].
  rewrite <- Eo, (outputLoop_nonpositive (addressPrefixes params) pre bad post) by assumption.
  reflexivity.
Qed.

Lemma nonpositive_output_rejected_witness :
  @buildSignedTransaction samplePrimitives zeroOutputRequest = Err NonPositiveOutputAmount.
Proof.
  apply (@nonpositive_output_rejected samplePrimitives zeroOutputRequest
           [mkSigningOutput addressB 100] (mkSigningOutput addressB 0) []).
  - reflexivity.
  - discriminate.
  - simpl. lia.
  - constructor; [exact resolves_addressA | constructor].
  - reflexivity.
  - constructor; [split; [simpl; lia | exact resolves_addressB] | constructor].
  - simpl. lia.
Defined.

(** C10: the amounts of the inputs are not validated. The request
    [zeroInputRequest] holds an input of amount 0, passes every check
    (inputs - outputs - fee = 0) and, with any primitives that accept its
    private key, yields a payload. No check rejects a negative amount either:
    [negativeInputRequest] passes the same checks and only fails when the
    amount is written as an unsigned 64-bit integer for the signature hash,
    with the [RangeError] of [Buffer], which is no error of the taxonomy. *)
Theorem zero_amount_input_accepted {P : Primitives} :
  isValidPrivateKey sampleKey = true ->
  Exists (fun i => inAmount i <= 0) (inputs zeroInputRequest)
  /\ 0 <= inputTotal zeroInputRequest - requestedTotal zeroInputRequest
          - fee zeroInputRequest
  /\ (exists payload, buildSignedTransaction zeroInputRequest = Ok payload)
  /\ (exists t, buildUnsigned negativeInputRequest = Ok t)
  /\ buildSignedTransaction negativeInputRequest = Err RangeError.
Proof.
  intros Hk.
  split; [constructor; simpl; lia |].
  split; [vm_compute; discriminate |].
  split; [| split].
  - unfold buildSignedTransaction, buildUnsigned.
    change (privateKey zeroInputRequest) with sampleKey. rewrite Hk.
    vm_compute. eexists. reflexivity.
  - unfold buildUnsigned.
    change (privateKey negativeInputRequest) with sampleKey. rewrite Hk.
    vm_compute. eexists. reflexivity.
  - unfold buildSignedTransaction, buildUnsigned.
    change (privateKey negativeInputRequest) with sampleKey. rewrite Hk.
    vm_compute. reflexivity.
Qed.

Lemma zero_amount_input_accepted_witness :
  Exists (fun i => inAmount i <= 0) (inputs zeroInputRequest)
  /\ 0 <= inputTotal zeroInputRequest - requestedTotal zeroInputRequest
          - fee zeroInputRequest
  /\ (exists payload, @buildSignedTransaction samplePrimitives zeroInputRequest = Ok payload)
  /\ (exists t, @buildUnsigned samplePrimitives negativeInputRequest = Ok t)
  /\ @buildSignedTransaction samplePrimitives negativeInputRequest = Err RangeError.
Proof.
  apply (@zero_amount_input_accepted samplePrimitives). reflexivity.
Defined.

Lemma bytesToHex_length bytes :
  String.length (bytesToHex bytes) = (2 * List.length bytes)%nat.
Proof.
  induction bytes as [| b rest IH]; simpl; [reflexivity |]. rewrite IH. lia.
Qed.

(** C6: in every payload returned by [buildSignedTransaction] there is one
    input per requested input, and the signature script of the input at
    position [i] is the hex encoding of 66 bytes: [0x41], the 64 bytes of
    the Schnorr signature of the signature hash of input [i] under
    [SIGHASH_ALL] (the uncached hash of the unsigned transaction), and
    [0x01]. The signing primitive is taken to return 64 bytes. *)
Theorem signature_script_format {P : Primitives} params payload :
  (forall aux msg key, List.length (schnorrSign aux msg key) = 64%nat) ->
  buildSignedTransaction params = Ok payload ->
  exists t,
    buildUnsigned params = Ok t
    /\ List.length (payloadInputs payload) = List.length (inputs params)
    /\ forall i, (i < List.length (inputs params))%nat ->
         exists input sigHash signature,
           nth_error (payloadInputs payload) i = Some input
           /\ specSigHash t SIGHASH_ALL i = Ok sigHash
           /\ signature
              = JS.uint8ArrayOf (schnorrSign (auxRand i) sigHash (privateKey params))
           /\ List.length signature = 64%nat
           /\ signatureScript input = bytesToHex ([0x41] ++ signature ++ [0x01])
           /\ String.length (signatureScript input) = 132%nat.
Proof.
  intros Hsig H.
  apply buildSigned_inv in H. destruct H as (t & t' & cache & Hu & Hs & ->).
  exists t. split; [exact Hu |].
  apply signAll_inv in Hs. destruct Hs as (_ & Hlen & Hin).
  apply buildUnsigned_inv in Hu. destruct Hu as (_ & _ & _ & _ & _ & Hti & _).
  assert (Hn : List.length (txInputs t) = List.length (inputs params))
    by (rewrite Hti; apply length_map).
  unfold toPayload; simpl.
  split; [congruence |].
  intros i Hi.
  destruct (nth_error (txInputs t) i) as [x |] eqn:Hx;
    [| apply nth_error_None in Hx; lia].
  destruct (Hin i x Hx) as (sigHash & Hh & Hnth).
  eexists. exists sigHash. eexists.
  split; [exact Hnth |]. split; [exact Hh |]. split; [reflexivity |].
  assert (Hl : List.length
                 (JS.uint8ArrayOf (schnorrSign (auxRand i) sigHash (privateKey params)))
               = 64%nat)
    by (unfold JS.uint8ArrayOf; rewrite length_map; apply Hsig).
  split; [exact Hl |].
  assert (Hscript :
            signatureScriptOf (schnorrSign (auxRand i) sigHash (privateKey params))
            = bytesToHex ([0x41]
                          ++ JS.uint8ArrayOf
                               (schnorrSign (auxRand i) sigHash (privateKey params))
                          ++ [0x01])).
  { unfold signatureScriptOf, JS.uint8ArrayOf. rewrite !map_app. reflexivity. }
  simpl signatureScript. rewrite Hscript.
  split; [reflexivity |].
  rewrite bytesToHex_length, !length_app, Hl. reflexivity.
Qed.

Lemma signature_script_format_witness :
  exists t,
    @buildUnsigned samplePrimitives spendRequest = Ok t
    /\ List.length (payloadInputs spendPayload) = List.length (inputs spendRequest)
    /\ forall i, (i < List.length (inputs spendRequest))%nat ->
         exists input sigHash signature,
           nth_error (payloadInputs spendPayload) i = Some input
           /\ @specSigHash samplePrimitives t SIGHASH_ALL i = Ok sigHash
           /\ signature
              = JS.uint8ArrayOf (@schnorrSign samplePrimitives
                                   (@auxRand samplePrimitives i) sigHash
                                   (privateKey spendRequest))
           /\ List.length signature = 64%nat
           /\ signatureScript input = bytesToHex ([0x41] ++ signature ++ [0x01])
           /\ String.length (signatureScript input) = 132%nat.
Proof.
  apply (@signature_script_format samplePrimitives spendRequest spendPayload).
  - intros aux msg key. cbv [schnorrSign samplePrimitives].
    rewrite length_firstn, !length_app, repeat_length. lia.
  - vm_compute. reflexivity.
Defined.

(** C5: [calculateSigHash] is transparent to its cache. Given any cache that
    earlier calls on the same transaction have produced from the empty one
    (with any hash types and input indices: empty, partly filled or full), it
    returns the result of the uncached computation that recomputes the four
    sub-hashes, hence the same result as with the empty cache and with any
    other such cache; this holds at every index, in range or not. *)
Theorem sighash_cache_transparent {P : Primitives} t hashType inputIndex cache :
  cacheOf t cache ->
  fst (calculateSigHash t hashType inputIndex cache) = specSigHash t hashType inputIndex
  /\ fst (calculateSigHash t hashType inputIndex cache)
     = fst (calculateSigHash t hashType inputIndex emptyCache)
  /\ (forall cache', cacheOf t cache' ->
        fst (calculateSigHash t hashType inputIndex cache')
        = fst (calculateSigHash t hashType inputIndex cache))
  /\ cacheOf t (snd (calculateSigHash t hashType inputIndex cache)).
Proof.
  intros Hc.
  assert (H : forall c, cacheOf t c ->
                fst (calculateSigHash t hashType inputIndex c)
                = specSigHash t hashType inputIndex).
  { intros c Hcc. apply calculateSigHash_spec, cacheOf_consistent, Hcc. }
  split; [apply H, Hc |].
  split; [rewrite (H cache Hc), (H emptyCache (cacheOf_empty t)); reflexivity |].
  split; [intros cache' Hc'; rewrite (H cache Hc), (H cache' Hc'); reflexivity |].
  apply cacheOf_call, Hc.
Qed.

Lemma sighash_cache_transparent_witness :
  let P := samplePrimitives in
  let cache := snd (calculateSigHash spendTransaction SIGHASH_ALL 0 emptyCache) in
  fst (calculateSigHash spendTransaction SIGHASH_ALL 0 cache)
  = specSigHash spendTransaction SIGHASH_ALL 0
  /\ fst (calculateSigHash spendTransaction SIGHASH_ALL 0 cache)
     = fst (calculateSigHash spendTransaction SIGHASH_ALL 0 emptyCache)
  /\ (forall cache', cacheOf spendTransaction cache' ->
        fst (calculateSigHash spendTransaction SIGHASH_ALL 0 cache')
        = fst (calculateSigHash spendTransaction SIGHASH_ALL 0 cache))
  /\ cacheOf spendTransaction (snd (calculateSigHash spendTransaction SIGHASH_ALL 0 cache)).
Proof.
  intros P cache.
  apply (@sighash_cache_transparent samplePrimitives spendTransaction SIGHASH_ALL 0%nat cache).
  apply cacheOf_call, cacheOf_empty.
Defined.

(** * Properties of the address codec *)

Section CodecFacts.
Import JS Address.

Lemma u8_isByte x : isByte (u8 x).
Proof. unfold isByte, u8. apply Z.mod_pos_bound. lia. Qed.

Lemma u8_id x : isByte x -> u8 x = x.
Proof. unfold isByte, u8. intros H. apply Z.mod_small. exact H. Qed.

Lemma uint8ArrayOf_id l : Forall isByte l -> uint8ArrayOf l = l.
Proof.
  induction 1 as [| x l Hx _ IH]; simpl; [reflexivity |].
  rewrite (u8_id x Hx). f_equal. exact IH.
Qed.

Lemma u8set_bytes a : forall i v, Forall isByte a -> Forall isByte (u8set a i v).
Proof.
  induction a as [| x a IH]; intros [| i] v H; simpl; auto;
    inversion H; subst; constructor; auto using u8_isByte.
Qed.

Lemma newUint8Array_bytes n : Forall isByte (newUint8Array n).
Proof.
  unfold newUint8Array. apply Forall_forall. intros x Hx.
  apply repeat_spec in Hx. subst. unfold isByte. lia.
Qed.

(** *** The result of [convertBits] is an array of bytes *)

Lemma cbDrain_bytes fuel to mask : forall s,
  Forall isByte (cb_result s) -> Forall isByte (cb_result (cbDrain fuel to mask s)).
Proof.
  induction fuel as [| fuel IH]; simpl; intros s H; [exact H |].
  destruct (to <=? cb_bits s); [| exact H].
  apply IH. simpl. apply u8set_bytes, H.
Qed.

Lemma cbLoop_bytes from to mask data : forall s s',
  Forall isByte (cb_result s) -> cbLoop from to mask s data = Ok s' ->
  Forall isByte (cb_result s').
Proof.
  induction data as [| value rest IH]; simpl; intros s s' H E.
  - inversion E; subst. exact H.
  - unfold cbStep in E.
    destruct (assertValid _ InvalidValue); simpl in E; [| discriminate].
    eapply IH; [| exact E]. apply cbDrain_bytes. simpl. exact H.
Qed.

Lemma convertBits_bytes data from to strictMode r :
  convertBits data from to strictMode = Ok r -> Forall isByte r.
Proof.
  unfold convertBits. intros E.
  destruct (cbLoop _ _ _ _ data) as [s |] eqn:El; simpl in E; [| discriminate].
  apply cbLoop_bytes in El; [| apply newUint8Array_bytes].
  destruct strictMode; simpl in E.
  - destruct (assertValid _ InvalidPadding); simpl in E; [| discriminate].
    inversion E; subst. exact El.
  - destruct (0 <? cb_bits s); inversion E; subst; auto using u8set_bytes.
Qed.

(** A decoded address holds a version byte and payload bytes. *)
Lemma decodeKaspaAddress_bytes address allowed d :
  decodeKaspaAddress address allowed = Ok d ->
  isByte (version d) /\ Forall isByte (payload d).
Proof.
  unfold decodeKaspaAddress. intros E.
  destruct (normalizeAddress address) as [[p e] |]; simpl in E; [| discriminate].
  destruct (assertValid _ UnknownPrefix); simpl in E; [| discriminate].
  destruct (base32Decode e) as [decoded |]; simpl in E; [| discriminate].
  destruct (assertValid _ InvalidChecksum); simpl in E; [| discriminate].
  destruct (convertBits _ 5 8 true) as [converted |] eqn:Ec; simpl in E; [| discriminate].
  apply convertBits_bytes in Ec.
  destruct converted as [| v rest]; [discriminate |].
  inversion E; subst. simpl. inversion Ec; subst. auto.
Qed.

(** *** 32-bit integer arithmetic *)

Lemma toInt32_isInt32 x : isInt32 (toInt32 x).
Proof.
  unfold isInt32, toInt32.
  pose proof (Z.mod_pos_bound (x + 2 ^ 31) (2 ^ 32) ltac:(lia)). lia.
Qed.

Lemma toInt32_id x : isInt32 x -> toInt32 x = x.
Proof.
  unfold isInt32, toInt32. intros H. rewrite Z.mod_small; lia.
Qed.

Lemma toInt32_mod x : toInt32 x mod 2 ^ 32 = x mod 2 ^ 32.
Proof.
  unfold toInt32.
  rewrite Zminus_mod_idemp_l. f_equal. lia.
Qed.

Lemma mod_compat x y t : x mod 2 ^ 32 = y mod 2 ^ 32 -> 0 <= t <= 32 ->
  x mod 2 ^ t = y mod 2 ^ t.
Proof.
  intros H Ht.
  replace (2 ^ 32) with (2 ^ t * 2 ^ (32 - t)) in H
    by (rewrite <- Z.pow_add_r by lia; f_equal; lia).
  assert (Hp : 0 < 2 ^ t) by (apply Z.pow_pos_nonneg; lia).
  assert (Hq : 0 < 2 ^ (32 - t)) by (apply Z.pow_pos_nonneg; lia).
  apply (f_equal (fun z => z mod 2 ^ t)) in H.
  rewrite !Z.rem_mul_r in H by lia.
  rewrite !(Z.mul_comm (2 ^ t)), !Z.mod_add in H by lia.
  rewrite !Z.mod_mod in H by lia. exact H.
Qed.

Lemma toInt32_mod_le x t : 0 <= t <= 32 -> toInt32 x mod 2 ^ t = x mod 2 ^ t.
Proof. intros. apply mod_compat; auto. apply toInt32_mod. Qed.

Lemma shl_mod a k : 0 <= k < 32 -> shl a k mod 2 ^ 32 = (a * 2 ^ k) mod 2 ^ 32.
Proof.
  intros Hk. unfold shl. rewrite (Z.mod_small k 32) by lia.
  rewrite toInt32_mod, Z.shiftl_mul_pow2 by lia.
  rewrite Z.mul_mod, toInt32_mod, <- Z.mul_mod by lia. reflexivity.
Qed.

Lemma mask_ones t : 0 <= t <= 30 -> shl 1 t - 1 = Z.ones t.
Proof.
  intros Ht. unfold shl. rewrite (Z.mod_small t 32) by lia.
  rewrite (toInt32_id 1) by (unfold isInt32; lia).
  rewrite Z.shiftl_1_l.
  assert (Hp : 0 < 2 ^ t <= 2 ^ 30)
    by (split; [apply Z.pow_pos_nonneg; lia | apply Z.pow_le_mono_r; lia]).
  rewrite (toInt32_id (2 ^ t)) by (unfold isInt32; lia).
  rewrite Z.ones_equiv. lia.
Qed.

Lemma band_ones x t : 0 <= t <= 30 -> band x (Z.ones t) = x mod 2 ^ t.
Proof.
  intros Ht. unfold band.
  assert (Hp : 0 < 2 ^ t <= 2 ^ 30)
    by (split; [apply Z.pow_pos_nonneg; lia | apply Z.pow_le_mono_r; lia]).
  rewrite (toInt32_id (Z.ones t)) by (rewrite Z.ones_equiv; unfold isInt32; lia).
  rewrite Z.land_ones by lia. apply toInt32_mod_le. lia.
Qed.

Lemma div_mod_compat x y b t : x mod 2 ^ 32 = y mod 2 ^ 32 -> 0 <= b -> 0 <= t ->
  b + t <= 32 -> (x / 2 ^ b) mod 2 ^ t = (y / 2 ^ b) mod 2 ^ t.
Proof.
  intros H Hb Ht Hbt.
  apply Z.bits_inj'. intros n Hn.
  rewrite (Z.testbit_mod_pow2 (x / 2 ^ b) t n Ht), (Z.testbit_mod_pow2 (y / 2 ^ b) t n Ht).
  destruct (n <? t) eqn:E; simpl; [| reflexivity].
  apply Z.ltb_lt in E.
  rewrite !Z.div_pow2_bits by lia.
  rewrite <- (Z.mod_pow2_bits_low x 32), <- (Z.mod_pow2_bits_low y 32) by lia.
  rewrite H. reflexivity.
Qed.

Lemma extract_bits acc V b t :
  acc mod 2 ^ 32 = V mod 2 ^ 32 -> 0 <= b -> 0 < t <= 30 -> b + t <= 32 ->
  band (sar acc b) (shl 1 t - 1) = (V / 2 ^ b) mod 2 ^ t.
Proof.
  intros H Hb Ht Hbt.
  rewrite mask_ones, band_ones by lia.
  unfold sar. rewrite (Z.mod_small b 32) by lia.
  rewrite Z.shiftr_div_pow2 by lia.
  apply div_mod_compat; auto; try lia.
  rewrite toInt32_mod. exact H.
Qed.

Lemma shl_band acc V k t :
  acc mod 2 ^ 32 = V mod 2 ^ 32 -> 0 <= k < 32 -> 0 <= t <= 30 ->
  band (shl acc k) (shl 1 t - 1) = (V * 2 ^ k) mod 2 ^ t.
Proof.
  intros H Hk Ht.
  rewrite mask_ones, band_ones by lia.
  apply mod_compat; [| lia].
  rewrite shl_mod by lia.
  rewrite Z.mul_mod, H, <- Z.mul_mod by lia. reflexivity.
Qed.

Lemma push_value acc V value from :
  acc mod 2 ^ 32 = V mod 2 ^ 32 -> 0 <= from < 32 -> 0 <= value < 2 ^ from ->
  bor (shl acc from) value mod 2 ^ 32 = (V * 2 ^ from + value) mod 2 ^ 32.
Proof.
  intros H Hf Hv. unfold bor.
  assert (E : Z.lor (toInt32 (shl acc from)) (toInt32 value) mod 2 ^ 32
              = Z.lor (shl acc from mod 2 ^ 32) (value mod 2 ^ 32)).
  { rewrite <- (toInt32_mod (shl acc from)), <- (toInt32_mod value).
    rewrite <- !Z.land_ones by lia. Z.bitblast. }
  rewrite E, shl_mod by lia.
  rewrite (Z.mul_mod acc), H, <- Z.mul_mod by lia.
  assert (Hv32 : value < 2 ^ 32).
  { assert (2 ^ from <= 2 ^ 32) by (apply Z.pow_le_mono_r; lia). lia. }
  rewrite (Z.mod_small value) by lia.
  rewrite <- (Z.mod_small value (2 ^ from)) at 2 by lia.
  rewrite <- (Z.shiftl_mul_pow2 V) by lia.
  rewrite <- Z.or_to_plus.
  - rewrite <- (Z.mod_small value (2 ^ from)) at 1 by lia.
    rewrite <- !Z.land_ones by lia. Z.bitblast.
  - apply Z.bits_inj'. intros i Hi.
    rewrite Z.land_spec, Z.bits_0, Z.shiftl_spec by lia.
    destruct (Z.lt_ge_cases i from).
    + rewrite Z.testbit_neg_r by lia. reflexivity.
    + rewrite Z.mod_pow2_bits_high by lia. apply andb_false_r.
Qed.

Lemma digitsValue_snoc w l x : digitsValue w (l ++ [x]) = digitsValue w l * 2 ^ w + x.
Proof. unfold digitsValue. rewrite fold_left_app. reflexivity. Qed.

Lemma padTo_u8set L : forall outs v,
  u8set (padTo L outs) (List.length outs) v = padTo L (outs ++ [u8 v]).
Proof.
  unfold padTo. induction L as [| L IH]; intros outs v.
  - simpl. reflexivity.
  - destruct outs as [| o outs].
    + simpl. rewrite Nat.sub_0_r. reflexivity.
    + simpl. f_equal. apply IH.
Qed.

Lemma padTo_full L outs : List.length outs = L -> padTo L outs = outs.
Proof.
  intros <-. unfold padTo. rewrite Nat.sub_diag. simpl. rewrite app_nil_r.
  apply firstn_all.
Qed.

Lemma pow2_pos k : 0 <= k -> 0 < 2 ^ k.
Proof. intros. apply Z.pow_pos_nonneg; lia. Qed.

(** The inner loop empties [bits] down to below [to]. *)
Lemma cbDrain_inv L to V total fuel : forall s outs,
  0 < to <= 8 ->
  cbInv L to V total s outs ->
  cb_bits s <= 32 ->
  (Z.to_nat (cb_bits s) <= fuel)%nat ->
  exists outs',
    cbInv L to V total (cbDrain fuel to (shl 1 to - 1) s) outs'
    /\ cb_bits (cbDrain fuel to (shl 1 to - 1) s) < to.
Proof.
  induction fuel as [| fuel IH]; intros s outs Hto Hinv Hb Hfuel.
  - simpl. exists outs. split; [exact Hinv |].
    destruct Hinv as (_ & _ & _ & _ & H0 & _). lia.
  - simpl. destruct (Z.leb_spec to (cb_bits s)) as [Hle | Hlt].
    + destruct Hinv as (Hr & Hi & Hd & Ha & H0 & Ht & Hv).
      apply (IH _ (outs ++ [(V / 2 ^ (cb_bits s - to)) mod 2 ^ to])); simpl; try lia.
      assert (Hx : band (sar (cb_accumulator s) (cb_bits s - to)) (shl 1 to - 1)
                   = (V / 2 ^ (cb_bits s - to)) mod 2 ^ to)
        by (apply extract_bits; auto; lia).
      assert (Hdig : isDigit to ((V / 2 ^ (cb_bits s - to)) mod 2 ^ to))
        by (apply Z.mod_pos_bound, pow2_pos; lia).
      unfold cbInv; simpl.
      split; [| split; [| split; [| split; [| split; [| split]]]]].
      * rewrite Hr, Hi, padTo_u8set, Hx. do 3 f_equal.
        apply Z.mod_small. destruct Hdig as [Hd0 Hd1]. split; [exact Hd0 |].
        assert (2 ^ to <= 2 ^ 8) by (apply Z.pow_le_mono_r; lia). lia.
      * rewrite Hi, length_app. simpl. lia.
      * apply Forall_app. split; [exact Hd | constructor; [exact Hdig | constructor]].
      * exact Ha.
      * lia.
      * rewrite length_app. simpl. lia.
      * rewrite digitsValue_snoc, Hv.
        replace (2 ^ cb_bits s) with (2 ^ (cb_bits s - to) * 2 ^ to)
          by (rewrite <- Z.pow_add_r by lia; f_equal; lia).
        rewrite <- Z.div_div by (try apply pow2_pos; lia).
        pose proof (Z.div_mod (V / 2 ^ (cb_bits s - to)) (2 ^ to)) as Hdm.
        pose proof (pow2_pos to). lia.
    + exists outs. split; [exact Hinv | exact Hlt].
Qed.

(** One iteration of the outer loop. *)
Lemma cbStep_inv L from to V total s outs value :
  0 < from <= 8 -> 0 < to <= 8 ->
  cbInv L to V total s outs -> cb_bits s < to ->
  0 <= V ->
  isDigit from value ->
  exists s' outs',
    cbStep from to (shl 1 to - 1) s value = Ok s'
    /\ cbInv L to (V * 2 ^ from + value) (total + from) s' outs'
    /\ cb_bits s' < to.
Proof.
  intros Hf Hto Hinv Hlt HV Hval. unfold cbStep.
  assert (Hvalid : (0 <=? value) && (sar value from =? 0) = true).
  { destruct Hval as [H0 H1].
    assert (2 ^ from <= 2 ^ 8) by (apply Z.pow_le_mono_r; lia).
    apply andb_true_intro. split; [apply Z.leb_le; lia |].
    apply Z.eqb_eq. unfold sar. rewrite (Z.mod_small from 32) by lia.
    rewrite toInt32_id by (unfold isInt32; lia).
    rewrite Z.shiftr_div_pow2 by lia. apply Z.div_small. lia. }
  rewrite Hvalid. simpl.
  destruct Hinv as (Hr & Hi & Hd & Ha & H0 & Ht & Hv).
  edestruct (cbDrain_inv L to (V * 2 ^ from + value) (total + from)
               (Z.to_nat (cb_bits s + from))
               (mkCB (cb_result s) (cb_index s)
                     (bor (shl (cb_accumulator s) from) value) (cb_bits s + from))
               outs Hto) as (outs' & Hinv' & Hlt').
  - unfold cbInv; simpl.
    split; [exact Hr |]. split; [exact Hi |]. split; [exact Hd |].
    split; [apply push_value; auto; lia |].
    split; [lia |]. split; [lia |].
    rewrite Hv, Z.pow_add_r by lia.
    rewrite (Z.mul_comm (2 ^ cb_bits s)), <- Z.div_div by (try apply pow2_pos; lia).
    rewrite Z.div_add_l by (pose proof (pow2_pos from); lia).
    rewrite (Z.div_small value) by exact Hval. rewrite Z.add_0_r. reflexivity.
  - simpl. lia.
  - simpl. lia.
  - eexists. exists outs'. split; [reflexivity |]. split; assumption.
Qed.

Lemma fold_digits_nonneg w data : forall V,
  0 <= w -> 0 <= V -> Forall (isDigit w) data ->
  0 <= fold_left (fun a x => a * 2 ^ w + x) data V.
Proof.
  induction data as [| x data IH]; simpl; intros V Hw HV Hd; [exact HV |].
  inversion Hd as [| ? ? [Hx0 Hx1] Hd']; subst.
  apply IH; auto. pose proof (pow2_pos w Hw). nia.
Qed.

(** The outer loop. *)
Lemma cbLoop_inv L from to data : forall V total s outs,
  0 < from <= 8 -> 0 < to <= 8 ->
  cbInv L to V total s outs -> cb_bits s < to ->
  0 <= V ->
  Forall (isDigit from) data ->
  exists s' outs',
    cbLoop from to (shl 1 to - 1) s data = Ok s'
    /\ cbInv L to (fold_left (fun a x => a * 2 ^ from + x) data V)
             (total + from * Z.of_nat (List.length data)) s' outs'
    /\ cb_bits s' < to.
Proof.
  induction data as [| value rest IH]; intros V total s outs Hf Hto Hinv Hlt HV Hd.
  - simpl. exists s, outs. rewrite Z.mul_0_r, Z.add_0_r. auto.
  - inversion Hd as [| ? ? Hval Hrest]; subst.
    destruct (cbStep_inv L from to V total s outs value Hf Hto Hinv Hlt HV Hval)
      as (s1 & outs1 & Hs1 & Hinv1 & Hlt1).
    simpl cbLoop. rewrite Hs1. simpl bind.
    destruct (IH (V * 2 ^ from + value) (total + from) s1 outs1 Hf Hto Hinv1 Hlt1)
      as (s' & outs' & Hs' & Hinv' & Hlt'); auto.
    { destruct Hval. pose proof (pow2_pos from). nia. }
    exists s', outs'. split; [exact Hs' |]. split; [| exact Hlt'].
    simpl fold_left. replace (total + from * Z.of_nat (List.length (value :: rest)))
      with (total + from + from * Z.of_nat (List.length rest))
      by (simpl List.length; lia).
    exact Hinv'.
Qed.

Lemma cbInv_init L to : 0 <= to -> cbInv L to 0 0 (mkCB (newUint8Array L) O 0 0) [].
Proof.
  intros. unfold cbInv, padTo, newUint8Array; simpl.
  rewrite Nat.sub_0_r, firstn_all2 by (rewrite repeat_length; lia).
  repeat split; auto; try lia.
Qed.

Lemma digitsValue_inj w : 0 < w -> forall l1 l2,
  Forall (isDigit w) l1 -> Forall (isDigit w) l2 ->
  List.length l1 = List.length l2 ->
  digitsValue w l1 = digitsValue w l2 -> l1 = l2.
Proof.
  intros Hw. induction l1 as [| x l1 IH] using rev_ind; intros l2 H1 H2 Hl Hv.
  - destruct l2; [reflexivity | discriminate].
  - destruct l2 as [| y l2 _] using rev_ind.
    + rewrite length_app in Hl. simpl in Hl. lia.
    + rewrite !length_app in Hl. simpl in Hl.
      rewrite !digitsValue_snoc in Hv.
      apply Forall_app in H1, H2. destruct H1 as [H1 Hx], H2 as [H2 Hy].
      inversion Hx as [| ? ? [Hx0 Hx1] _]; inversion Hy as [| ? ? [Hy0 Hy1] _]; subst.
      pose proof (pow2_pos w ltac:(lia)) as Hp.
      assert (Hxy : x = y).
      { pose proof (f_equal (fun z => z mod 2 ^ w) Hv) as Hm. simpl in Hm.
        rewrite !(Z.add_comm _ x), !(Z.add_comm _ y), !Z.mod_add, !Z.mod_small in Hm by lia.
        exact Hm. }
      subst y.
      assert (Hv' : digitsValue w l1 = digitsValue w l2) by nia.
      f_equal. apply IH; auto. lia.
Qed.

Lemma convertBits_loose data :
  Forall isByte data ->
  exists symbols,
    convertBits data 8 5 false = Ok symbols
    /\ Forall (isDigit 5) symbols
    /\ 0 <= 5 * Z.of_nat (List.length symbols) - 8 * Z.of_nat (List.length data) < 5
    /\ digitsValue 5 symbols
       = digitsValue 8 data
         * 2 ^ (5 * Z.of_nat (List.length symbols) - 8 * Z.of_nat (List.length data)).
Proof.
  intros Hd. unfold convertBits.
  set (n := Z.of_nat (List.length data)).
  set (L := Z.to_nat (ceilDiv (n * 8) 5)).
  destruct (cbLoop_inv L 8 5 data 0 0 (mkCB (newUint8Array L) O 0 0) [])
    as (s & outs & Hs & Hinv & Hlt); try lia.
  { apply cbInv_init. lia. }
  { simpl. lia. }
  { exact Hd. }
  cbn [negb]. rewrite Hs. cbn [bind].
  destruct Hinv as (Hr & Hi & Hdig & Ha & H0 & Ht & Hv).
  fold (digitsValue 8 data) in Ha, Hv. fold n in Ht.
  set (V := digitsValue 8 data) in *.
  set (k := Z.of_nat (List.length outs)) in *.
  set (b := cb_bits s) in *.
  rewrite Z.add_0_l in Ht.
  destruct (Z.ltb_spec 0 b) as [Hb | Hb].
  - assert (HL : L = S (List.length outs)).
    { unfold L, ceilDiv. replace (- (n * 8)) with (- (k + 1) * 5 + (5 - b)) by lia.
      rewrite Z.div_add_l, Z.div_small by lia. lia. }
    rewrite Hr, Hi, padTo_u8set,
      (shl_band _ V) by (auto; lia).
    assert (Hlast : isDigit 5 ((V * 2 ^ (5 - b)) mod 2 ^ 5))
      by (apply Z.mod_pos_bound; lia).
    rewrite (u8_id _) by (destruct Hlast; unfold isByte; simpl in *; lia).
    rewrite padTo_full by (rewrite length_app; simpl; lia).
    eexists. split; [reflexivity |].
    rewrite length_app. simpl List.length.
    split; [apply Forall_app; split; [exact Hdig | constructor; [exact Hlast | constructor]] |].
    split; [lia |].
    rewrite digitsValue_snoc, Hv.
    match goal with |- _ = _ * 2 ^ ?e => replace e with (5 - b) by lia end.
    assert (Hcase : b = 1 \/ b = 2 \/ b = 3 \/ b = 4) by lia.
    clearbody b V.
    destruct Hcase as [-> | [-> | [-> | ->]]]; simpl Z.sub;
      change (2 ^ 5) with 32; change (2 ^ 4) with 16; change (2 ^ 3) with 8;
      change (2 ^ 2) with 4; change (2 ^ 1) with 2;
      Z.div_mod_to_equations; lia.
  - assert (Hb0 : b = 0) by lia.
    assert (HL : L = List.length outs).
    { unfold L, ceilDiv. replace (- (n * 8)) with (- k * 5) by lia.
      rewrite Z.div_mul by lia. lia. }
    rewrite Hr, padTo_full by auto.
    eexists. split; [reflexivity |]. split; [exact Hdig |].
    split; [lia |].
    rewrite Hv, Hb0.
    match goal with |- _ = _ * 2 ^ ?e => replace e with 0 by lia end.
    rewrite Z.pow_0_r, Z.div_1_r. lia.
Qed.

Lemma convertBits_strict symbols bytes :
  Forall (isDigit 5) symbols -> Forall isByte bytes ->
  0 <= 5 * Z.of_nat (List.length symbols) - 8 * Z.of_nat (List.length bytes) < 5 ->
  digitsValue 5 symbols
  = digitsValue 8 bytes
    * 2 ^ (5 * Z.of_nat (List.length symbols) - 8 * Z.of_nat (List.length bytes)) ->
  convertBits symbols 5 8 true = Ok bytes.
Proof.
  intros Hsym Hbytes Hpad Hval. unfold convertBits.
  set (m := Z.of_nat (List.length symbols)) in *.
  set (n := Z.of_nat (List.length bytes)) in *.
  set (L := Z.to_nat (floorDiv (m * 5) 8)).
  destruct (cbLoop_inv L 5 8 symbols 0 0 (mkCB (newUint8Array L) O 0 0) [])
    as (s & outs & Hs & Hinv & Hlt); try lia.
  { apply cbInv_init. lia. }
  { simpl. lia. }
  { exact Hsym. }
  rewrite Hs. cbn [bind negb].
  destruct Hinv as (Hr & Hi & Hdig & Ha & H0 & Ht & Hv).
  fold (digitsValue 5 symbols) in Ha, Hv. fold m in Ht.
  set (k := Z.of_nat (List.length outs)) in *.
  set (b := cb_bits s) in *.
  rewrite Z.add_0_l in Ht.
  assert (Hk : k = n) by lia.
  assert (Hb : b = 5 * m - 8 * n) by lia.
  rewrite <- Hb in Hval.
  assert (HL : L = List.length outs).
  { unfold L, floorDiv. replace (m * 5) with (b + k * 8) by lia.
    rewrite Z.div_add, Z.div_small by lia. lia. }
  assert (HW : 0 <= digitsValue 8 bytes)
    by (apply fold_digits_nonneg; auto; lia).
  assert (Hcheck : (b <? 5) && (band (shl (cb_accumulator s) (8 - b)) (shl 1 8 - 1) =? 0)
                   = true).
  { apply andb_true_intro. split; [apply Z.ltb_lt; lia |].
    apply Z.eqb_eq.
    rewrite (shl_band _ (digitsValue 5 symbols)) by (auto; lia).
    rewrite Hval, <- Z.mul_assoc, <- Z.pow_add_r by lia.
    replace (b + (8 - b)) with 8 by lia. apply Z.mod_mul. lia. }
  rewrite Hcheck. cbn [assertValid bind].
  rewrite Hr, padTo_full by auto. f_equal.
  apply (digitsValue_inj 8); auto; try lia.
  rewrite Hv, Hval. apply Z.div_mul. pose proof (pow2_pos b). lia.
Qed.

(** *** The checksum polynomial *)

Lemma hl_lor h l : 0 <= l < 2 ^ 32 -> h * 2 ^ 32 + l = Z.lor (Z.shiftl h 32) l.
Proof.
  intros Hl. rewrite Z.or_to_plus; [rewrite Z.shiftl_mul_pow2 by lia; reflexivity |].
  apply Z.bits_inj'. intros i Hi.
  rewrite Z.land_spec, Z.bits_0, Z.shiftl_spec by lia.
  destruct (Z.lt_ge_cases i 32).
  - rewrite Z.testbit_neg_r by lia. reflexivity.
  - rewrite <- (Z.mod_small l (2 ^ 32)) by lia.
    rewrite Z.mod_pow2_bits_high by lia. apply andb_false_r.
Qed.

Lemma hl_testbit h l i : 0 <= l < 2 ^ 32 -> 0 <= i ->
  Z.testbit (h * 2 ^ 32 + l) i = if i <? 32 then Z.testbit l i else Z.testbit h (i - 32).
Proof.
  intros Hl Hi. rewrite hl_lor by exact Hl.
  rewrite Z.lor_spec, Z.shiftl_spec by lia.
  destruct (Z.ltb_spec i 32).
  - rewrite Z.testbit_neg_r by lia. reflexivity.
  - rewrite <- (Z.mod_small l (2 ^ 32)) by lia.
    rewrite Z.mod_pow2_bits_high by lia. apply orb_false_r.
Qed.

Lemma lxor_range k a b : 0 <= k -> 0 <= a < 2 ^ k -> 0 <= b < 2 ^ k ->
  0 <= Z.lxor a b < 2 ^ k.
Proof.
  intros Hk Ha Hb.
  assert (E : Z.lxor a b = Z.lxor a b mod 2 ^ k).
  { rewrite <- (Z.mod_small a (2 ^ k)) at 1 by lia.
    rewrite <- (Z.mod_small b (2 ^ k)) at 1 by lia.
    rewrite <- !Z.land_ones by lia. Z.bitblast. }
  rewrite E. apply Z.mod_pos_bound. apply pow2_pos. lia.
Qed.

Lemma lor_range k a b : 0 <= k -> 0 <= a < 2 ^ k -> 0 <= b < 2 ^ k ->
  0 <= Z.lor a b < 2 ^ k.
Proof.
  intros Hk Ha Hb.
  assert (E : Z.lor a b = Z.lor a b mod 2 ^ k).
  { rewrite <- (Z.mod_small a (2 ^ k)) at 1 by lia.
    rewrite <- (Z.mod_small b (2 ^ k)) at 1 by lia.
    rewrite <- !Z.land_ones by lia. Z.bitblast. }
  rewrite E. apply Z.mod_pos_bound. apply pow2_pos. lia.
Qed.

Lemma lxor_mod32 a b : Z.lxor a b mod 2 ^ 32 = Z.lxor (a mod 2 ^ 32) (b mod 2 ^ 32).
Proof. rewrite <- !Z.land_ones by lia. Z.bitblast. Qed.

Lemma bxor_mod a b : bxor a b mod 2 ^ 32 = Z.lxor (a mod 2 ^ 32) (b mod 2 ^ 32).
Proof. unfold bxor. rewrite lxor_mod32, !toInt32_mod. reflexivity. Qed.

Lemma hl_lxor h1 l1 h2 l2 : 0 <= l1 < 2 ^ 32 -> 0 <= l2 < 2 ^ 32 ->
  Z.lxor (h1 * 2 ^ 32 + l1) (h2 * 2 ^ 32 + l2) = Z.lxor h1 h2 * 2 ^ 32 + Z.lxor l1 l2.
Proof.
  intros H1 H2.
  pose proof (lxor_range 32 l1 l2 ltac:(lia) H1 H2) as H3.
  apply Z.bits_inj'. intros i Hi.
  rewrite Z.lxor_spec, !hl_testbit by assumption.
  destruct (i <? 32); rewrite Z.lxor_spec; reflexivity.
Qed.

Lemma hl_lxor_low h l d : 0 <= l < 2 ^ 32 -> 0 <= d < 2 ^ 32 ->
  Z.lxor (h * 2 ^ 32 + l) d = h * 2 ^ 32 + Z.lxor l d.
Proof.
  intros Hl Hd. pose proof (hl_lxor h l 0 d Hl Hd) as E.
  rewrite Z.mul_0_l, Z.add_0_l, Z.lxor_0_r in E. exact E.
Qed.

Lemma small_toInt32 x : 0 <= x < 2 ^ 31 -> toInt32 x = x.
Proof. intros. apply toInt32_id. unfold isInt32. lia. Qed.

Lemma bxor_small a b : 0 <= a < 256 -> 0 <= b < 256 ->
  bxor a b = Z.lxor a b /\ 0 <= Z.lxor a b < 256.
Proof.
  intros Ha Hb. unfold bxor. rewrite !small_toInt32 by lia.
  split; [reflexivity |]. apply (lxor_range 8); lia.
Qed.

(** One step of the generator loop on the 40-bit value. *)
Lemma gen_step c0 c1 x1 x2 :
  0 <= c0 < 256 -> 0 <= x1 < 256 -> 0 <= x2 < 2 ^ 32 ->
  val40 (bxor c0 x1, bxor c1 x2) = Z.lxor (val40 (c0, c1)) (x1 * 2 ^ 32 + x2)
  /\ 0 <= bxor c0 x1 < 256.
Proof.
  intros H0 H1 H2. unfold val40. simpl.
  destruct (bxor_small c0 x1 H0 H1) as [E R]. rewrite E.
  split; [| exact R].
  rewrite bxor_mod, (Z.mod_small x2) by lia.
  rewrite hl_lxor; auto. apply Z.mod_pos_bound. lia.
Qed.

Lemma polymodGen_val g1 : forall g2 c i c0 c1,
  0 <= c0 < 256 ->
  Forall isByte g1 -> Forall (fun x => 0 <= x < 2 ^ 32) g2 ->
  val40 (polymodGen c i g1 g2 c0 c1) = Z.lxor (val40 (c0, c1)) (genMask c i g1 g2)
  /\ 0 <= fst (polymodGen c i g1 g2 c0 c1) < 256.
Proof.
  induction g1 as [| x1 r1 IH]; intros g2 c i c0 c1 H0 Hg1 Hg2.
  - simpl. rewrite Z.lxor_0_r. auto.
  - destruct g2 as [| x2 r2]; [simpl; rewrite Z.lxor_0_r; auto |].
    inversion Hg1 as [| ? ? Hx1 Hr1]; inversion Hg2 as [| ? ? Hx2 Hr2]; subst.
    simpl. destruct (negb (band c (shl 1 i) =? 0)).
    + destruct (gen_step c0 c1 x1 x2 H0 Hx1 Hx2) as [E R].
      destruct (IH r2 c (i + 1) (bxor c0 x1) (bxor c1 x2) R Hr1 Hr2) as [E' R'].
      split; [| exact R'].
      rewrite E', E, Z.lxor_assoc. reflexivity.
    + apply IH; auto.
Qed.

Lemma generators_ok :
  Forall isByte GENERATOR1 /\ Forall (fun x => 0 <= x < 2 ^ 32) GENERATOR2.
Proof. split; repeat constructor; unfold isByte; lia. Qed.

(** The shift part of [polymodStep]. *)
Lemma polymod_shift c0 c1 d :
  0 <= c0 < 256 -> 0 <= d < 256 ->
  val40 (bor (shl (band c0 7) 5) (shr c1 27), bxor (shl (band c1 134217727) 5) d)
  = Z.lxor ((val40 (c0, c1) mod 2 ^ 35) * 32) d
  /\ 0 <= bor (shl (band c0 7) 5) (shr c1 27) < 256.
Proof.
  intros H0 Hd. unfold val40. cbn [fst snd].
  set (u := c1 mod 2 ^ 32).
  assert (Hu : 0 <= u < 2 ^ 32) by (apply Z.mod_pos_bound; lia).
  (* the high word *)
  assert (Ea : band c0 7 = c0 mod 2 ^ 3) by (apply (band_ones c0 3); lia).
  assert (Ha : 0 <= c0 mod 2 ^ 3 < 8) by (apply Z.mod_pos_bound; lia).
  assert (Es : shl (band c0 7) 5 = (c0 mod 2 ^ 3) * 32).
  { rewrite Ea. unfold shl. change (5 mod 32) with 5.
    rewrite (small_toInt32 (c0 mod 2 ^ 3)) by lia.
    rewrite Z.shiftl_mul_pow2 by lia. change (2 ^ 5) with 32.
    apply small_toInt32. lia. }
  assert (Er : shr c1 27 = u / 2 ^ 27)
    by (unfold shr; change (27 mod 32) with 27; rewrite Z.shiftr_div_pow2 by lia; reflexivity).
  assert (Hr : 0 <= u / 2 ^ 27 < 32)
    by (split; [apply Z.div_pos; lia | apply Z.div_lt_upper_bound; lia]).
  assert (Eh : bor (shl (band c0 7) 5) (shr c1 27) = (c0 mod 2 ^ 3) * 32 + u / 2 ^ 27).
  { rewrite Es, Er. unfold bor. rewrite !small_toInt32 by lia.
    apply Z.or_to_plus.
    apply Z.bits_inj'. intros i Hi.
    rewrite Z.land_spec, Z.bits_0.
    change 32 with (2 ^ 5) at 1. rewrite <- Z.shiftl_mul_pow2, Z.shiftl_spec by lia.
    destruct (Z.lt_ge_cases i 5).
    - rewrite Z.testbit_neg_r by lia. reflexivity.
    - rewrite <- (Z.mod_small (u / 2 ^ 27) (2 ^ 5)) by (change (2 ^ 5) with 32; lia).
      rewrite (Z.mod_pow2_bits_high (u / 2 ^ 27) 5 i) by lia. apply andb_false_r. }
  (* the low word *)
  assert (Eb : band c1 134217727 = u mod 2 ^ 27).
  { change 134217727 with (Z.ones 27). rewrite (band_ones c1 27) by lia. unfold u.
    symmetry. apply (mod_compat (c1 mod 2 ^ 32) c1 27); [| lia].
    apply Z.mod_mod. lia. }
  assert (Hb : 0 <= u mod 2 ^ 27 < 2 ^ 27) by (apply Z.mod_pos_bound; lia).
  assert (El : bxor (shl (band c1 134217727) 5) d mod 2 ^ 32
               = Z.lxor ((u mod 2 ^ 27) * 32) d).
  { rewrite bxor_mod, shl_mod, Eb by lia. change (2 ^ 5) with 32.
    rewrite (Z.mod_small d), (Z.mod_small (u mod 2 ^ 27 * 32)) by lia. reflexivity. }
  rewrite Eh, El. split; [| lia].
  assert (Ev : (c0 * 2 ^ 32 + u) mod 2 ^ 35 = (c0 mod 2 ^ 3) * 2 ^ 32 + u).
  { Z.div_mod_to_equations. lia. }
  rewrite Ev.
  replace (((c0 mod 2 ^ 3) * 2 ^ 32 + u) * 32)
    with (((c0 mod 2 ^ 3) * 32 + u / 2 ^ 27) * 2 ^ 32 + (u mod 2 ^ 27) * 32)
    by (Z.div_mod_to_equations; lia).
  rewrite hl_lxor_low by lia. reflexivity.
Qed.

(** [polymodStep] on the 40-bit value of the state. *)
Lemma polymodStep_val st d :
  0 <= fst st < 256 -> 0 <= d < 256 ->
  val40 (polymodStep st d)
  = Z.lxor (Z.lxor ((val40 st mod 2 ^ 35) * 32) d)
           (genMask (fst st / 2 ^ 3) 0 GENERATOR1 GENERATOR2)
  /\ 0 <= fst (polymodStep st d) < 256.
Proof.
  destruct st as [c0 c1]. cbn [fst]. intros H0 Hd.
  unfold polymodStep.
  destruct (polymod_shift c0 c1 d H0 Hd) as [E R].
  destruct generators_ok as [G1 G2].
  destruct (polymodGen_val GENERATOR1 GENERATOR2 (shr c0 3) 0 _
              (bxor (shl (band c1 134217727) 5) d) R G1 G2) as [E' R'].
  split; [| exact R'].
  rewrite E', E. do 2 f_equal.
  unfold shr. change (3 mod 32) with 3. unfold toUint32.
  rewrite Z.mod_small by lia. apply Z.shiftr_div_pow2. lia.
Qed.

Lemma val40_range st : 0 <= fst st < 256 -> 0 <= val40 st < 2 ^ 40.
Proof.
  intros H. unfold val40.
  pose proof (Z.mod_pos_bound (snd st) (2 ^ 32) ltac:(lia)). lia.
Qed.

Lemma val40_high st : 0 <= fst st < 256 -> val40 st / 2 ^ 35 = fst st / 2 ^ 3.
Proof.
  intros H. unfold val40.
  pose proof (Z.mod_pos_bound (snd st) (2 ^ 32) ltac:(lia)).
  Z.div_mod_to_equations. lia.
Qed.

(** Two states whose values differ by [x], fed [0] and [d]. *)
Lemma polymodStep_linear s t x d :
  0 <= fst s < 256 -> 0 <= fst t < 256 ->
  val40 t = Z.lxor (val40 s) x -> 0 <= x < 2 ^ 35 -> 0 <= d < 32 ->
  val40 (polymodStep t d) = Z.lxor (val40 (polymodStep s 0)) (x * 32 + d).
Proof.
  intros Hs Ht E Hx Hd.
  destruct (polymodStep_val s 0 Hs ltac:(lia)) as [Es _].
  destruct (polymodStep_val t d Ht ltac:(lia)) as [Et _].
  rewrite Es, Et.
  rewrite <- (val40_high s Hs), <- (val40_high t Ht), E.
  assert (Eh : Z.lxor (val40 s) x / 2 ^ 35 = val40 s / 2 ^ 35).
  { rewrite <- !Z.shiftr_div_pow2 by lia. rewrite Z.shiftr_lxor.
    rewrite (Z.shiftr_div_pow2 x), (Z.div_small x) by lia. apply Z.lxor_0_r. }
  rewrite Eh.
  assert (Em : Z.lxor (val40 s) x mod 2 ^ 35 = Z.lxor (val40 s mod 2 ^ 35) x).
  { rewrite <- (Z.mod_small x (2 ^ 35)) at 2 by lia.
    rewrite <- !Z.land_ones by lia. Z.bitblast. }
  rewrite Em.
  assert (Ex : x * 32 + d = Z.lxor (Z.shiftl x 5) d).
  { rewrite Z.shiftl_mul_pow2 by lia. change (2 ^ 5) with 32.
    apply Z.add_nocarry_lxor.
    apply Z.bits_inj'. intros i Hi.
    rewrite Z.land_spec, Z.bits_0.
    change 32 with (2 ^ 5). rewrite <- Z.shiftl_mul_pow2, Z.shiftl_spec by lia.
    destruct (Z.lt_ge_cases i 5).
    - rewrite Z.testbit_neg_r by lia. reflexivity.
    - rewrite <- (Z.mod_small d (2 ^ 5)) by (change (2 ^ 5) with 32; lia).
      rewrite Z.mod_pow2_bits_high by lia. apply andb_false_r. }
  rewrite Ex.
  change 32 with (2 ^ 5). rewrite <- !Z.shiftl_mul_pow2 by lia.
  rewrite Z.shiftl_lxor.
  Z.bitblast.
Qed.

Lemma fold_polymodStep_byte data : forall st,
  0 <= fst st < 256 -> Forall isByte data ->
  0 <= fst (fold_left polymodStep data st) < 256.
Proof.
  induction data as [| d data IH]; simpl; intros st H Hd; [exact H |].
  inversion Hd as [| ? ? Hd0 Hd']; subst.
  apply IH; [| exact Hd']. apply polymodStep_val; assumption.
Qed.

Lemma repeat_isByte n : Forall isByte (repeat 0 n).
Proof. apply Forall_forall. intros x Hx. apply repeat_spec in Hx. subst. unfold isByte. lia. Qed.

(** Feeding the digits [ds] instead of as many zeros adds their value. *)
Lemma fold_polymodStep_linear ds : forall s t x k,
  0 <= fst s < 256 -> 0 <= fst t < 256 ->
  val40 t = Z.lxor (val40 s) x ->
  0 <= k -> 0 <= x < 2 ^ (5 * k) -> k + Z.of_nat (List.length ds) <= 8 ->
  Forall (isDigit 5) ds ->
  val40 (fold_left polymodStep ds t)
  = Z.lxor (val40 (fold_left polymodStep (repeat 0 (List.length ds)) s))
           (fold_left (fun a d => a * 2 ^ 5 + d) ds x).
Proof.
  induction ds as [| d ds IH]; intros s t x k Hs Ht E Hk Hx Hlen Hd.
  - simpl. exact E.
  - inversion Hd as [| ? ? [Hd0 Hd1] Hd']; subst.
    cbn [List.length] in Hlen. cbn [fold_left repeat List.length].
    assert (Hx35 : 0 <= x < 2 ^ 35).
    { assert (2 ^ (5 * k) <= 2 ^ 35) by (apply Z.pow_le_mono_r; lia). lia. }
    change (2 ^ 5) with 32 in *.
    apply (IH _ _ _ (k + 1)).
    + apply polymodStep_val; [exact Hs | lia].
    + apply polymodStep_val; [exact Ht | lia].
    + apply polymodStep_linear; auto.
    + lia.
    + replace (5 * (k + 1)) with (5 * k + 5) by lia.
      rewrite Z.pow_add_r by lia. change (2 ^ 5) with 32. lia.
    + lia.
    + exact Hd'.
Qed.

Lemma isInt32_shiftr x : isInt32 x <-> (Z.shiftr x 31 = 0 \/ Z.shiftr x 31 = -1).
Proof.
  unfold isInt32. rewrite Z.shiftr_div_pow2 by lia.
  split; intros H; Z.div_mod_to_equations; lia.
Qed.

Lemma lxor_isInt32 a b : isInt32 a -> isInt32 b -> isInt32 (Z.lxor a b).
Proof.
  rewrite !isInt32_shiftr, Z.shiftr_lxor.
  intros [-> | ->] [-> | ->]; simpl; auto.
Qed.

Lemma bxor_isInt32 a b : isInt32 (bxor a b).
Proof. apply lxor_isInt32; apply toInt32_isInt32. Qed.

(** Flipping the sign bit of a negative 32-bit integer. *)
Lemma flip_sign c : - 2 ^ 31 <= c < 0 -> Z.lxor c (- 2 ^ 31) = c + 2 ^ 31.
Proof.
  intros Hc.
  assert (Em : c + 2 ^ 31 = c mod 2 ^ 31)
    by (apply Z.mod_unique with (q := -1); lia).
  assert (Ed : c / 2 ^ 31 = Z.opp 1) by (Z.div_mod_to_equations; lia).
  rewrite Em. apply Z.bits_inj'. intros i Hi.
  rewrite Z.lxor_spec.
  change (- 2 ^ 31) with (Z.shiftl (Z.opp 1) 31). rewrite Z.shiftl_spec by lia.
  destruct (Z.lt_ge_cases i 31).
  - rewrite Z.mod_pow2_bits_low, (Z.testbit_neg_r _ (i - 31)) by lia.
    apply xorb_false_r.
  - rewrite Z.mod_pow2_bits_high, (Z.bits_m1 (i - 31)) by lia.
    replace (Z.testbit c i) with (Z.testbit (c / 2 ^ 31) (i - 31))
      by (rewrite Z.div_pow2_bits by lia; f_equal; lia).
    rewrite Ed, Z.bits_m1 by lia. reflexivity.
Qed.

Lemma polymod_val data :
  Forall isByte data ->
  polymod data = Z.lxor (val40 (fold_left polymodStep data (0, 1))) 1.
Proof.
  intros Hd. unfold polymod.
  pose proof (fold_polymodStep_byte data (0, 1) ltac:(simpl; lia) Hd) as Hb.
  destruct (fold_left polymodStep data (0, 1)) as [c0 c1]. simpl in Hb.
  unfold val40. cbn [fst snd].
  change (shl 1 30) with (2 ^ 30). change (shl 1 31) with (- 2 ^ 31).
  rewrite hl_lxor_low by (try apply Z.mod_pos_bound; lia).
  replace (c0 * 2 ^ 30 * 4) with (c0 * 2 ^ 32) by lia. f_equal.
  assert (Em : bxor c1 1 mod 2 ^ 32 = Z.lxor (c1 mod 2 ^ 32) 1)
    by (rewrite bxor_mod; reflexivity).
  rewrite <- Em.
  pose proof (bxor_isInt32 c1 1) as Hc.
  set (c := bxor c1 1) in *. unfold isInt32 in Hc.
  destruct (Z.ltb_spec c 0) as [Hneg | Hpos].
  - unfold bxor. rewrite (toInt32_id c), (toInt32_id (- 2 ^ 31)) by (unfold isInt32; lia).
    rewrite flip_sign by lia.
    apply Z.mod_unique with (q := -1); lia.
  - symmetry. apply Z.mod_small. lia.
Qed.

Lemma checksumDigits_value n : forall checksum,
  0 <= checksum ->
  digitsValue 5 (rev (checksumDigits n checksum)) = checksum mod 2 ^ (5 * Z.of_nat n)
  /\ Forall (isDigit 5) (rev (checksumDigits n checksum))
  /\ List.length (rev (checksumDigits n checksum)) = n.
Proof.
  induction n as [| n IH]; intros checksum Hc.
  - simpl. rewrite Z.mod_1_r. auto.
  - cbn [checksumDigits rev].
    destruct (IH (checksum / 32) ltac:(apply Z.div_pos; lia)) as (Hv & Hd & Hl).
    change 31 with (Z.ones 5). rewrite band_ones by lia.
    rewrite digitsValue_snoc, Hv, length_app, Hl.
    split; [| split].
    + replace (5 * Z.of_nat (S n)) with (5 + 5 * Z.of_nat n) by lia.
      rewrite Z.pow_add_r by lia.
      rewrite Z.rem_mul_r by (try apply Z.pow_nonzero; try apply pow2_pos; lia).
      change (2 ^ 5) with 32. lia.
    + apply Forall_app. split; [exact Hd |].
      constructor; [apply Z.mod_pos_bound; lia | constructor].
    + simpl. lia.
Qed.

(** Feeding the digits of the checksum after the data brings the value of
    the state to 1. *)
Lemma polymod_closing s s8 digits :
  0 <= fst s < 256 ->
  s8 = fold_left polymodStep (repeat 0 8) s ->
  Forall (isDigit 5) digits -> List.length digits = 8%nat ->
  digitsValue 5 digits = Z.lxor (val40 s8) 1 ->
  Z.lxor (val40 (fold_left polymodStep digits s)) 1 = 0.
Proof.
  intros Hs Es8 Hdig Hl Hv.
  rewrite (fold_polymodStep_linear digits s s 0 0);
    [| exact Hs | exact Hs | rewrite Z.lxor_0_r; reflexivity | lia
     | change (2 ^ (5 * 0)) with 1; lia | rewrite Hl; lia | exact Hdig].
  rewrite Hl, <- Es8.
  change (fold_left (fun a d => a * 2 ^ 5 + d) digits 0) with (digitsValue 5 digits).
  rewrite Hv.
  rewrite <- (Z.lxor_assoc (val40 s8) (val40 s8) 1), Z.lxor_nilpotent, Z.lxor_0_l.
  reflexivity.
Qed.

(** The checksum closes the codeword: the polynomial of the data followed by
    its checksum is zero. *)
Lemma polymod_checksum data :
  Forall isByte data ->
  polymod (data ++ checksumToArray (polymod (data ++ newUint8Array 8))) = 0.
Proof.
  intros Hd. unfold newUint8Array.
  remember (fold_left polymodStep data (0, 1)) as s eqn:Es.
  assert (Hs : 0 <= fst s < 256)
    by (subst s; apply fold_polymodStep_byte; [simpl; lia | exact Hd]).
  remember (fold_left polymodStep (repeat 0 8) s) as s8 eqn:Es8.
  assert (Hs8 : 0 <= fst s8 < 256)
    by (subst s8; apply fold_polymodStep_byte; [exact Hs | apply repeat_isByte]).
  assert (Ecs : polymod (data ++ repeat 0 8) = Z.lxor (val40 s8) 1).
  { rewrite polymod_val by (apply Forall_app; split; [exact Hd | apply repeat_isByte]).
    rewrite fold_left_app, <- Es, <- Es8. reflexivity. }
  assert (Hcs : 0 <= Z.lxor (val40 s8) 1 < 2 ^ 40)
    by (apply lxor_range; [lia | apply val40_range; exact Hs8 | lia]).
  rewrite Ecs. unfold checksumToArray.
  destruct (checksumDigits_value 8 (Z.lxor (val40 s8) 1) ltac:(lia)) as (Hv & Hdig & Hl).
  remember (rev (checksumDigits 8 (Z.lxor (val40 s8) 1))) as digits eqn:Edigits.
  change (5 * Z.of_nat 8) with 40 in Hv. rewrite Z.mod_small in Hv by exact Hcs.
  assert (Hdb : Forall isByte digits).
  { eapply Forall_impl; [| exact Hdig].
    intros a [Ha0 Ha1]. unfold isByte. change (2 ^ 5) with 32 in Ha1. lia. }
  rewrite polymod_val by (apply Forall_app; split; assumption).
  rewrite fold_left_app, <- Es.
  exact (polymod_closing s s8 digits Hs Es8 Hdig Hl Hv).
Qed.

(** *** Counting separators *)

Lemma lowerChar_colon c : Ascii.eqb (Str.lowerChar c) Str.colon = Ascii.eqb c Str.colon.
Proof. destruct c as [[] [] [] [] [] [] [] []]; reflexivity. Qed.

Lemma colons_toLowerCase s : Str.colons (Str.toLowerCase s) = Str.colons s.
Proof.
  induction s as [| c s IH]; simpl; [reflexivity |].
  rewrite lowerChar_colon. unfold Str.toLowerCase in IH. rewrite IH. reflexivity.
Qed.

Lemma split_length s : List.length (Str.split s) = S (Str.colons s).
Proof.
  induction s as [| c s IH]; simpl; [reflexivity |].
  destruct (Ascii.eqb c Str.colon); simpl; [rewrite IH; reflexivity |].
  destruct (Str.split s) as [| p ps]; simpl in *; [discriminate | exact IH].
Qed.

Lemma normalizeAddress_format address :
  hasSingleCase address = true -> Str.colons address <> 1%nat ->
  normalizeAddress address = Err InvalidFormat.
Proof.
  intros Hc Hn. unfold normalizeAddress. rewrite Hc. simpl.
  pose proof (split_length (Str.toLowerCase address)) as Hl.
  rewrite colons_toLowerCase in Hl.
  destruct (Str.split (Str.toLowerCase address)) as [| a [| b [| c r]]];
    simpl in Hl; try reflexivity.
  exfalso. apply Hn. congruence.
Qed.

(** *** base32 *)

Lemma charset_symbol v : 0 <= v < 32 ->
  inverseIndex CHARSET_INVERSE_INDEX (charsetAt v) = Some v
  /\ Ascii.eqb (charsetAt v) Str.colon = false
  /\ Str.lowerChar (charsetAt v) = charsetAt v.
Proof.
  intros Hv.
  assert (H : forallb (fun n =>
                match inverseIndex CHARSET_INVERSE_INDEX (charsetAt (Z.of_nat n)) with
                | Some w => w =? Z.of_nat n
                | None => false
                end
                && negb (Ascii.eqb (charsetAt (Z.of_nat n)) Str.colon)
                && Ascii.eqb (Str.lowerChar (charsetAt (Z.of_nat n)))
                             (charsetAt (Z.of_nat n)))
              (seq 0 32) = true) by (vm_compute; reflexivity).
  rewrite forallb_forall in H.
  specialize (H (Z.to_nat v)). rewrite Z2Nat.id in H by lia.
  assert (Hin : In (Z.to_nat v) (seq 0 32)) by (apply in_seq; lia).
  apply H in Hin. apply andb_prop in Hin. destruct Hin as [Hin H3].
  apply andb_prop in Hin. destruct Hin as [H1 H2].
  split; [| split].
  - destruct (inverseIndex CHARSET_INVERSE_INDEX (charsetAt v)) as [w |];
      [| discriminate]. apply Z.eqb_eq in H1. congruence.
  - apply negb_true_iff. exact H2.
  - apply Ascii.eqb_eq. exact H3.
Qed.

Lemma base32_roundtrip symbols :
  Forall (isDigit 5) symbols ->
  exists encoded,
    base32Encode symbols = Ok encoded
    /\ base32Decode encoded = Ok symbols
    /\ Str.colons encoded = 0%nat
    /\ Str.toLowerCase encoded = encoded.
Proof.
  induction 1 as [| v symbols [Hv0 Hv1] _ (encoded & He & Hd & Hc & Hl)].
  - exists EmptyString. auto.
  - change (2 ^ 5) with 32 in Hv1.
    destruct (charset_symbol v ltac:(lia)) as (H1 & H2 & H3).
    exists (String (charsetAt v) encoded).
    cbn [base32Encode base32Decode Str.colons Str.toLowerCase Str.smap].
    assert (Hvalid : (0 <=? v) && (v <? 32) = true)
      by (apply andb_true_intro; split; [apply Z.leb_le | apply Z.ltb_lt]; lia).
    rewrite Hvalid, He, H1, Hd, H2, Hc, H3. cbn [assertValid bind].
    unfold Str.toLowerCase in Hl. rewrite Hl.
    rewrite u8_id by (unfold isByte; lia). auto.
Qed.

(** *** Strings *)

Lemma smap_append f a b : Str.smap f (a ++ b)%string = (Str.smap f a ++ Str.smap f b)%string.
Proof. induction a as [| c a IH]; simpl; [reflexivity | rewrite IH; reflexivity]. Qed.

Lemma lowerChar_idem c : Str.lowerChar (Str.lowerChar c) = Str.lowerChar c.
Proof. destruct c as [[] [] [] [] [] [] [] []]; reflexivity. Qed.

Lemma toLowerCase_idem s : Str.toLowerCase (Str.toLowerCase s) = Str.toLowerCase s.
Proof.
  unfold Str.toLowerCase. induction s as [| c s IH]; simpl; [reflexivity |].
  rewrite lowerChar_idem, IH. reflexivity.
Qed.

Lemma split_nocolon s : Str.colons s = 0%nat -> Str.split s = [s].
Proof.
  induction s as [| c s IH]; simpl; intros H; [reflexivity |].
  destruct (Ascii.eqb c Str.colon); [discriminate |].
  rewrite IH by exact H. reflexivity.
Qed.

Lemma split_join p e : Str.colons p = 0%nat -> Str.colons e = 0%nat ->
  Str.split (p ++ String Str.colon e) = [p; e].
Proof.
  intros Hp He. induction p as [| c p IH]; simpl in *.
  - rewrite split_nocolon by exact He. reflexivity.
  - destruct (Ascii.eqb c Str.colon); [discriminate |].
    rewrite IH by exact Hp. reflexivity.
Qed.

Lemma prefixToArray_bytes p : Forall isByte (prefixToArray p).
Proof.
  induction p as [| c p IH]; simpl; constructor; auto.
  change 31 with (Z.ones 5). rewrite band_ones by lia.
  pose proof (Z.mod_pos_bound (Str.charCode c) (2 ^ 5) ltac:(lia)).
  unfold isByte. change (2 ^ 5) with 32 in *. lia.
Qed.

Lemma isDigit5_isByte l : Forall (isDigit 5) l -> Forall isByte l.
Proof.
  apply Forall_impl. intros a [H0 H1]. change (2 ^ 5) with 32 in H1. unfold isByte. lia.
Qed.

Lemma polymod_range data : Forall isByte data -> 0 <= polymod data < 2 ^ 40.
Proof.
  intros Hd. rewrite polymod_val by exact Hd.
  apply lxor_range; [lia | | lia].
  apply val40_range, fold_polymodStep_byte; [simpl; lia | exact Hd].
Qed.

Lemma toLowerCase_join p e :
  Str.toLowerCase e = e ->
  Str.toLowerCase (Str.toLowerCase p ++ String Str.colon e)
  = (Str.toLowerCase p ++ String Str.colon e)%string.
Proof.
  intros He. pose proof (toLowerCase_idem p) as Hp.
  unfold Str.toLowerCase in *. rewrite smap_append. cbn [Str.smap].
  rewrite Hp, He. reflexivity.
Qed.

(** *** The round trip

    Encoding lower-cases the prefix, and decoding returns the lower-cased
    prefix with the version and the payload. *)
Lemma encode_decode_lowercase bytes prefix v :
  Forall isByte bytes -> isByte v ->
  Str.isAscii prefix = true -> Str.colons prefix = 0%nat ->
  exists address,
    encodeKaspaAddress bytes prefix v = Ok address
    /\ decodeKaspaAddress address [prefix]
       = Ok (mkDecoded (Str.toLowerCase prefix) v bytes)
    /\ (Str.toLowerCase prefix = prefix ->
        decodeKaspaAddress address [prefix] = Ok (mkDecoded prefix v bytes)).
Proof.
  intros Hb Hv _ Hcol.
  assert (HB : Forall isByte (v :: bytes)) by (constructor; assumption).
  set (np := Str.toLowerCase prefix).
  destruct (convertBits_loose (v :: bytes) HB) as (payloadData & Hconv & Hdig & Hpad & Hval).
  destruct (checksumDigits_value 8
              (polymod (uint8ArrayOf (prefixToArray np ++ [0]) ++ payloadData
                        ++ newUint8Array 8))) as (_ & Hcd & Hcl).
  { apply polymod_range.
    apply Forall_app. split; [apply Forall_map, Forall_forall; intros; apply u8_isByte |].
    apply Forall_app. split; [apply isDigit5_isByte, Hdig | apply repeat_isByte]. }
  fold (checksumToArray (polymod (uint8ArrayOf (prefixToArray np ++ [0]) ++ payloadData
                                   ++ newUint8Array 8))) in Hcd, Hcl.
  set (checksum := checksumToArray _) in *.
  assert (Hfull : Forall (isDigit 5) (payloadData ++ uint8ArrayOf checksum)).
  { rewrite (uint8ArrayOf_id checksum) by (apply isDigit5_isByte, Hcd).
    apply Forall_app. split; assumption. }
  destruct (base32_roundtrip _ Hfull) as (encoded & Henc & Hdec & Hcolons & Hlower).
  exists (np ++ String Str.colon encoded)%string.
  assert (Hencode : encodeKaspaAddress bytes prefix v
                    = Ok (np ++ String Str.colon encoded)%string).
  { unfold encodeKaspaAddress. change (Str.toLowerCase prefix) with np.
    rewrite (uint8ArrayOf_id (v :: bytes)) by exact HB.
    rewrite Hconv. cbn [bind]. fold checksum. rewrite Henc. reflexivity. }
  assert (Hdecode : decodeKaspaAddress (np ++ String Str.colon encoded) [prefix]
                    = Ok (mkDecoded np v bytes)).
  { unfold decodeKaspaAddress, normalizeAddress.
    assert (Hlow : Str.toLowerCase (np ++ String Str.colon encoded)
                   = (np ++ String Str.colon encoded)%string)
      by (apply toLowerCase_join, Hlower).
    unfold hasSingleCase. rewrite Hlow, String.eqb_refl. cbn [orb assertValid bind].
    rewrite split_join by (try exact Hcolons; unfold np; rewrite colons_toLowerCase; exact Hcol).
    cbn [bind]. unfold Str.includes. cbn [map existsb].
    change (Str.toLowerCase prefix) with np. rewrite String.eqb_refl.
    cbn [orb assertValid bind].
    rewrite Hdec. cbn [bind].
    assert (Hcheck : hasValidChecksum np (payloadData ++ uint8ArrayOf checksum) = true).
    { unfold hasValidChecksum. apply Z.eqb_eq.
      rewrite (uint8ArrayOf_id checksum) by (apply isDigit5_isByte, Hcd).
      set (D := uint8ArrayOf (prefixToArray np) ++ [0] ++ payloadData).
      assert (E1 : uint8ArrayOf (prefixToArray np) ++ [0] ++ payloadData ++ checksum
                   = D ++ checksum)
        by (unfold D; rewrite <- !app_assoc; reflexivity).
      assert (E2 : uint8ArrayOf (prefixToArray np ++ [0]) ++ payloadData ++ newUint8Array 8
                   = D ++ newUint8Array 8)
        by (unfold D, uint8ArrayOf; rewrite map_app, <- !app_assoc; reflexivity).
      rewrite E1. unfold checksum. rewrite E2.
      apply polymod_checksum.
      apply Forall_app. split; [apply Forall_map, Forall_forall; intros; apply u8_isByte |].
      apply Forall_app. split; [| apply isDigit5_isByte, Hdig].
      constructor; [unfold isByte; lia | constructor]. }
    rewrite Hcheck. cbn [assertValid bind].
    assert (Hfirst : firstn (List.length (payloadData ++ uint8ArrayOf checksum) - 8)
                       (payloadData ++ uint8ArrayOf checksum) = payloadData).
    { rewrite length_app. unfold uint8ArrayOf. rewrite length_map, Hcl.
      rewrite Nat.add_sub. rewrite firstn_app, Nat.sub_diag, firstn_all. simpl.
      apply app_nil_r. }
    rewrite Hfirst.
    rewrite (convertBits_strict payloadData (v :: bytes)); auto. }
  split; [exact Hencode |]. split; [exact Hdecode |].
  intros E. rewrite Hdecode. subst np. rewrite E. reflexivity.
Qed.

End CodecFacts.

(** * The specification of the address codec *)

Import Address.

(** C1: for every valid triple (payload bytes, version byte, and a prefix
    that is a lower-case ASCII string without [':']),
    [encodeKaspaAddress] returns an address and [decodeKaspaAddress] of that
    address, with the prefix as the allowed set, succeeds and returns exactly
    the prefix, the version and the payload. *)
Theorem encode_decode_roundtrip payload prefix version :
  validTriple payload prefix version ->
  exists address,
    encodeKaspaAddress payload prefix version = Ok address
    /\ decodeKaspaAddress address [prefix] = Ok (mkDecoded prefix version payload).
Proof.
  intros (Hp & Hv & Ha & Hc & Hl).
  destruct (encode_decode_lowercase payload prefix version Hp Hv Ha Hc)
    as (address & He & _ & Hd).
  exists address. split; [exact He | exact (Hd Hl)].
Qed.

Lemma encode_decode_roundtrip_witness :
  exists address,
    encodeKaspaAddress (repeat 1 32) "kaspa" 0 = Ok address
    /\ decodeKaspaAddress address ["kaspa"%string] = Ok (mkDecoded "kaspa" 0 (repeat 1 32)).
Proof.
  apply (encode_decode_roundtrip (repeat 1 32) "kaspa" 0).
  unfold validTriple. split; [| split; [| split; [| split]]].
  - apply Forall_forall. intros x Hx. apply repeat_spec in Hx. subst.
    unfold JS.isByte. lia.
  - unfold JS.isByte. lia.
  - reflexivity.
  - reflexivity.
  - reflexivity.
Defined.

(** C8, as stated, fails: ["aB"] holds no [':'] and mixes cases, and
    [decodeKaspaAddress] rejects it as a mixed-case address, the check that
    runs first. *)
Lemma decode_format_counterexample :
  Str.colons "aB" <> 1%nat
  /\ decodeKaspaAddress "aB" DEFAULT_ALLOWED_PREFIXES = Err MixedCase.
Proof. split; [vm_compute; discriminate | vm_compute; reflexivity]. Qed.

(** C8, amended: [decodeKaspaAddress] checks the case of the address before
    it looks for the separator. An (ASCII) address that does not hold exactly
    one [':'] fails with [InvalidFormat] when it is in a single case, and
    with [MixedCase] when it mixes upper and lower case. *)
Theorem decode_format_error address allowed :
  Str.isAscii address = true ->
  Str.colons address <> 1%nat ->
  (hasSingleCase address = true ->
   decodeKaspaAddress address allowed = Err InvalidFormat)
  /\ (hasSingleCase address = false ->
      decodeKaspaAddress address allowed = Err MixedCase).
Proof.
  intros _ Hn. split; intros Hc; unfold decodeKaspaAddress.
  - rewrite (normalizeAddress_format address Hc Hn). reflexivity.
  - unfold normalizeAddress. rewrite Hc. reflexivity.
Qed.

Lemma decode_format_error_witness :
  (hasSingleCase "kaspa" = true ->
   decodeKaspaAddress "kaspa" DEFAULT_ALLOWED_PREFIXES = Err InvalidFormat)
  /\ (hasSingleCase "kaspa" = false ->
      decodeKaspaAddress "kaspa" DEFAULT_ALLOWED_PREFIXES = Err MixedCase).
Proof.
  apply (decode_format_error "kaspa" DEFAULT_ALLOWED_PREFIXES).
  - reflexivity.
  - vm_compute. discriminate.
Defined.

(** C7: for an address that [decodeKaspaAddress] accepts, with version 0
    [addressToScriptPublicKey] returns the 34 bytes [0x20], payload, [0xac]
    when the payload has 32 bytes and fails with [InvalidKeyLength]
    otherwise; with a version other than 0, 1 and 8 it fails with
    [UnsupportedVersion]. *)
Theorem spend_script_of_version0 address allowed d :
  decodeKaspaAddress address allowed = Ok d ->
  (version d = 0 ->
   (List.length (payload d) = 32%nat ->
    addressToScriptPublicKey address allowed = Ok ([0x20] ++ payload d ++ [0xac])
    /\ List.length ([0x20] ++ payload d ++ [0xac]) = 34%nat)
   /\ (List.length (payload d) <> 32%nat ->
       addressToScriptPublicKey address allowed = Err InvalidKeyLength))
  /\ (version d <> 0 -> version d <> 1 -> version d <> 8 ->
      addressToScriptPublicKey address allowed = Err UnsupportedVersion).
Proof.
  intros Hd. unfold addressToScriptPublicKey. rewrite Hd. simpl bind.
  destruct (decodeKaspaAddress_bytes _ _ _ Hd) as [_ Hp].
  split.
  - intros Hv. rewrite Hv. simpl Z.eqb. cbv iota. split.
    + intros Hl. rewrite Hl. simpl.
      split; [| rewrite length_app; simpl; lia].
      unfold JS.uint8ArrayOf. rewrite map_app. fold (JS.uint8ArrayOf (payload d)).
      rewrite (uint8ArrayOf_id _ Hp). reflexivity.
    + intros Hl. apply Nat.eqb_neq in Hl. rewrite Hl. reflexivity.
  - intros H0 H1 H8.
    apply Z.eqb_neq in H0, H1, H8. rewrite H0, H1, H8. reflexivity.
Qed.

Lemma spend_script_of_version0_witness :
  let d := mkDecoded "kaspa"
             0 [95; 255; 60; 77; 161; 143; 69; 173; 205; 212; 153; 228; 70; 17; 233; 255;
                241; 72; 186; 105; 219; 60; 78; 162; 221; 217; 85; 252; 70; 165; 149; 34] in
  (version d = 0 ->
   (List.length (payload d) = 32%nat ->
    addressToScriptPublicKey Transaction.addressA ["kaspa"%string]
    = Ok ([0x20] ++ payload d ++ [0xac])
    /\ List.length ([0x20] ++ payload d ++ [0xac]) = 34%nat)
   /\ (List.length (payload d) <> 32%nat ->
       addressToScriptPublicKey Transaction.addressA ["kaspa"%string]
       = Err InvalidKeyLength))
  /\ (version d <> 0 -> version d <> 1 -> version d <> 8 ->
      addressToScriptPublicKey Transaction.addressA ["kaspa"%string]
      = Err UnsupportedVersion).
Proof.
  intros d.
  apply (spend_script_of_version0 Transaction.addressA ["kaspa"%string] d).
  vm_compute. reflexivity.
Defined.

(** * Further properties of the address codec *)

Section MoreCodecFacts.
Import JS.

(** *** Strict conversion from 5-bit symbols to bytes *)

Lemma convertBits_strict_cases symbols :
  Forall (isDigit 5) symbols ->
  let n := Z.of_nat (List.length symbols) in
  let b := (5 * n) mod 8 in
  let V := digitsValue 5 symbols in
  (b < 5 /\ V mod 2 ^ b = 0 ->
   exists bytes,
     convertBits symbols 5 8 true = Ok bytes
     /\ Forall isByte bytes
     /\ Z.of_nat (List.length bytes) = (5 * n) / 8
     /\ digitsValue 8 bytes = V / 2 ^ b)
  /\ (~ (b < 5 /\ V mod 2 ^ b = 0) ->
      convertBits symbols 5 8 true = Err InvalidPadding).
Proof.
  intros Hsym n b V. unfold convertBits.
  fold n.
  set (L := Z.to_nat (floorDiv (n * 5) 8)).
  destruct (cbLoop_inv L 5 8 symbols 0 0 (mkCB (newUint8Array L) O 0 0) [])
    as (s & outs & Hs & Hinv & Hlt); try lia.
  { apply cbInv_init. lia. }
  { simpl. lia. }
  { exact Hsym. }
  rewrite Hs. cbn [bind negb].
  destruct Hinv as (Hr & Hi & Hdig & Ha & H0 & Ht & Hv).
  fold (digitsValue 5 symbols) in Ha, Hv. fold V in Ha, Hv. fold n in Ht.
  set (k := Z.of_nat (List.length outs)) in *.
  rewrite Z.add_0_l in Ht.
  assert (Hb : cb_bits s = b).
  { unfold b. rewrite <- Ht. rewrite Z.add_comm, Z.mul_comm, Z.mod_add by lia.
    symmetry. apply Z.mod_small. lia. }
  assert (Hk : k = (5 * n) / 8).
  { rewrite <- Ht. rewrite Z.add_comm, Z.mul_comm, Z.div_add by lia.
    rewrite Z.div_small by lia. lia. }
  assert (HL : L = List.length outs).
  { unfold L, floorDiv. replace (n * 5) with (5 * n) by lia. rewrite <- Hk. unfold k. lia. }
  assert (Hb8 : 0 <= b < 8) by (rewrite <- Hb; lia).
  assert (Hpad : band (shl (cb_accumulator s) (8 - b)) (shl 1 8 - 1)
                 = (V * 2 ^ (8 - b)) mod 2 ^ 8)
    by (apply shl_band; auto; lia).
  assert (Hzero : (V * 2 ^ (8 - b)) mod 2 ^ 8 = 0 <-> V mod 2 ^ b = 0).
  { replace (2 ^ 8) with (2 ^ b * 2 ^ (8 - b))
      by (rewrite <- Z.pow_add_r by lia; f_equal; lia).
    pose proof (pow2_pos b ltac:(lia)). pose proof (pow2_pos (8 - b) ltac:(lia)).
    rewrite Z.mul_mod_distr_r by lia. nia. }
  rewrite Hb, Hpad.
  split.
  - intros [Hb5 Hz].
    assert (Hcheck : (b <? 5) && ((V * 2 ^ (8 - b)) mod 2 ^ 8 =? 0) = true).
    { apply andb_true_intro. split; [apply Z.ltb_lt; lia |].
      apply Z.eqb_eq, Hzero, Hz. }
    rewrite Hcheck. cbn [assertValid bind].
    rewrite Hr, padTo_full by auto.
    exists outs. split; [reflexivity |].
    split; [eapply Forall_impl; [| exact Hdig]; intros a [Ha0 Ha1];
            change (2 ^ 8) with 256 in Ha1; unfold isByte; lia |].
    split; [exact Hk |]. rewrite Hv, Hb. reflexivity.
  - intros Hn.
    assert (Hcheck : (b <? 5) && ((V * 2 ^ (8 - b)) mod 2 ^ 8 =? 0) = false).
    { apply andb_false_iff.
      destruct (Z.ltb_spec b 5) as [Hlt5 | Hge5]; [right | left; reflexivity].
      apply Z.eqb_neq. intros Hz. apply Hn. split; [exact Hlt5 | apply Hzero, Hz]. }
    rewrite Hcheck. reflexivity.
Qed.


Lemma convertBits_strict_sound symbols bytes :
  Forall (isDigit 5) symbols ->
  convertBits symbols 5 8 true = Ok bytes ->
  Forall isByte bytes
  /\ 0 <= 5 * Z.of_nat (List.length symbols) - 8 * Z.of_nat (List.length bytes) < 5
  /\ digitsValue 5 symbols
     = digitsValue 8 bytes
       * 2 ^ (5 * Z.of_nat (List.length symbols) - 8 * Z.of_nat (List.length bytes)).
Proof.
  intros Hsym Hok.
  destruct (convertBits_strict_cases symbols Hsym) as [Hyes Hno].
  set (n := Z.of_nat (List.length symbols)) in *.
  set (b := (5 * n) mod 8) in *.
  set (V := digitsValue 5 symbols) in *.
  cbv zeta in Hyes, Hno.
  assert (Hdec : (b < 5 /\ V mod 2 ^ b = 0) \/ ~ (b < 5 /\ V mod 2 ^ b = 0)).
  { destruct (Z.ltb_spec b 5); [| right; lia].
    destruct (Z.eq_dec (V mod 2 ^ b) 0); [left; split; assumption | right; tauto]. }
  destruct Hdec as [Hy | Hn]; [| rewrite (Hno Hn) in Hok; discriminate].
  destruct (Hyes Hy) as (bytes' & Hc & Hby & Hlen & Hval).
  rewrite Hc in Hok. injection Hok as <-.
  pose proof (Z.div_mod (5 * n) 8 ltac:(lia)) as Hdm. fold b in Hdm.
  assert (Eb : 5 * n - 8 * Z.of_nat (List.length bytes') = b) by lia.
  destruct Hy as [Hb5 Hz].
  pose proof (Z.mod_pos_bound (5 * n) 8 ltac:(lia)) as Hb8. fold b in Hb8.
  split; [exact Hby |]. rewrite Eb. split; [lia |].
  rewrite Hval.
  pose proof (Z.div_mod V (2 ^ b) ltac:(apply Z.pow_nonzero; lia)). lia.
Qed.

Lemma convertBits_strict_error symbols e :
  Forall (isDigit 5) symbols ->
  convertBits symbols 5 8 true = Err e -> e = InvalidPadding.
Proof.
  intros Hsym Herr.
  destruct (convertBits_strict_cases symbols Hsym) as [Hyes Hno].
  set (n := Z.of_nat (List.length symbols)) in *.
  set (b := (5 * n) mod 8) in *.
  set (V := digitsValue 5 symbols) in *.
  cbv zeta in Hyes, Hno.
  assert (Hdec : (b < 5 /\ V mod 2 ^ b = 0) \/ ~ (b < 5 /\ V mod 2 ^ b = 0)).
  { destruct (Z.ltb_spec b 5); [| right; lia].
    destruct (Z.eq_dec (V mod 2 ^ b) 0); [left; split; assumption | right; tauto]. }
  destruct Hdec as [Hy | Hn].
  - destruct (Hyes Hy) as (bytes' & Hc & _). congruence.
  - rewrite (Hno Hn) in Herr. congruence.
Qed.

(** *** base32 *)

Lemma inverseIndex_charset ch v :
  inverseIndex CHARSET_INVERSE_INDEX ch = Some v -> 0 <= v < 32 /\ charsetAt v = ch.
Proof.
  destruct ch as [[] [] [] [] [] [] [] []]; cbv - [Z.le Z.lt];
    intros H; try discriminate H; injection H as <-; (split; [lia | reflexivity]).
Qed.

Lemma base32Decode_sound s : forall l,
  base32Decode s = Ok l ->
  Forall (isDigit 5) l
  /\ base32Encode l = Ok s
  /\ List.length l = String.length s
  /\ Str.colons s = 0%nat.
Proof.
  induction s as [| ch s IH]; intros l H.
  - injection H as <-. simpl. auto.
  - cbn [base32Decode] in H.
    destruct (inverseIndex CHARSET_INVERSE_INDEX ch) as [v |] eqn:Hv; [| discriminate].
    destruct (base32Decode s) as [l' | e]; [| discriminate].
    cbn [bind] in H. injection H as <-.
    destruct (IH l' eq_refl) as (Hd & He & Hl & Hc).
    destruct (inverseIndex_charset ch v Hv) as [Hr Hch].
    destruct (charset_symbol v Hr) as (_ & Hcol & _). rewrite Hch in Hcol.
    rewrite u8_id by (unfold isByte; lia).
    split; [constructor; [change (2 ^ 5) with 32; exact Hr | exact Hd] |].
    cbn [base32Encode Str.colons String.length List.length].
    assert (Hvalid : (0 <=? v) && (v <? 32) = true)
      by (apply andb_true_intro; split; [apply Z.leb_le | apply Z.ltb_lt]; lia).
    rewrite Hvalid, He, Hch, Hcol, Hl, Hc. cbn [assertValid bind]. auto.
Qed.

Lemma base32Decode_error s e : base32Decode s = Err e -> e = InvalidCharacter.
Proof.
  induction s as [| ch s IH]; cbn [base32Decode]; [discriminate |].
  destruct (inverseIndex CHARSET_INVERSE_INDEX ch); [| congruence].
  destruct (base32Decode s); cbn [bind]; [discriminate |].
  intros H. injection H as <-. apply IH. reflexivity.
Qed.

Lemma base32Decode_app s1 s2 l1 l2 :
  base32Decode s1 = Ok l1 -> base32Decode s2 = Ok l2 ->
  base32Decode (s1 ++ s2) = Ok (l1 ++ l2).
Proof.
  revert l1. induction s1 as [| ch s1 IH]; intros l1 H1 H2.
  - injection H1 as <-. exact H2.
  - cbn [base32Decode append] in *.
    destruct (inverseIndex CHARSET_INVERSE_INDEX ch); [| discriminate].
    destruct (base32Decode s1) as [l' |]; [| discriminate].
    cbn [bind] in H1. injection H1 as <-.
    rewrite (IH l' eq_refl H2). reflexivity.
Qed.

Lemma base32Decode_app_inv s1 s2 l :
  base32Decode (s1 ++ s2) = Ok l ->
  exists l1 l2, base32Decode s1 = Ok l1 /\ base32Decode s2 = Ok l2 /\ l = l1 ++ l2.
Proof.
  revert l. induction s1 as [| ch s1 IH]; intros l H.
  - exists [], l. auto.
  - cbn [base32Decode append] in *.
    destruct (inverseIndex CHARSET_INVERSE_INDEX ch); [| discriminate].
    destruct (base32Decode (s1 ++ s2)) as [l' |] eqn:E; [| discriminate].
    cbn [bind] in H. injection H as <-.
    destruct (IH l' eq_refl) as (l1 & l2 & H1 & H2 & ->).
    rewrite H1. cbn [bind]. exists (u8 z :: l1), l2. auto.
Qed.

(** *** The checksum determines the last eight symbols *)

Lemma polymod_checksum_unique data cs :
  Forall isByte data -> Forall (isDigit 5) cs -> List.length cs = 8%nat ->
  polymod (data ++ cs) = 0 ->
  cs = checksumToArray (polymod (data ++ newUint8Array 8)).
Proof.
  intros Hd Hcs Hl Hz. unfold newUint8Array.
  remember (fold_left polymodStep data (0, 1)) as s eqn:Es.
  assert (Hs : 0 <= fst s < 256)
    by (subst s; apply fold_polymodStep_byte; [simpl; lia | exact Hd]).
  remember (fold_left polymodStep (repeat 0 8) s) as s8 eqn:Es8.
  assert (Hs8 : 0 <= fst s8 < 256)
    by (subst s8; apply fold_polymodStep_byte; [exact Hs | apply repeat_isByte]).
  assert (Ecs : polymod (data ++ repeat 0 8) = Z.lxor (val40 s8) 1).
  { rewrite polymod_val by (apply Forall_app; split; [exact Hd | apply repeat_isByte]).
    rewrite fold_left_app, <- Es, <- Es8. reflexivity. }
  assert (Hrange : 0 <= Z.lxor (val40 s8) 1 < 2 ^ 40)
    by (apply lxor_range; [lia | apply val40_range; exact Hs8 | lia]).
  rewrite polymod_val in Hz
    by (apply Forall_app; split; [exact Hd | apply isDigit5_isByte, Hcs]).
  rewrite fold_left_app, <- Es in Hz.
  rewrite (fold_polymodStep_linear cs s s 0 0) in Hz;
    [| exact Hs | exact Hs | rewrite Z.lxor_0_r; reflexivity | lia
     | change (2 ^ (5 * 0)) with 1; lia | rewrite Hl; lia | exact Hcs].
  rewrite Hl, <- Es8 in Hz.
  change (fold_left (fun a d => a * 2 ^ 5 + d) cs 0) with (digitsValue 5 cs) in Hz.
  assert (Hv : digitsValue 5 cs = Z.lxor (val40 s8) 1).
  { apply Z.lxor_eq.
    rewrite <- Z.lxor_assoc, (Z.lxor_comm (digitsValue 5 cs)). exact Hz. }
  rewrite Ecs. unfold checksumToArray.
  destruct (checksumDigits_value 8 (Z.lxor (val40 s8) 1) ltac:(lia)) as (Hv' & Hdig & Hl').
  change (5 * Z.of_nat 8) with 40 in Hv'. rewrite Z.mod_small in Hv' by exact Hrange.
  apply (digitsValue_inj 5); [lia | exact Hcs | exact Hdig | congruence | congruence].
Qed.


(** *** A changed symbol changes the checksum polynomial *)

Lemma polymodStep_shift st d :
  0 <= fst st < 256 -> 0 <= d < 256 ->
  val40 (polymodStep st d) = Z.lxor (polymodShift (val40 st)) d
  /\ 0 <= fst (polymodStep st d) < 256.
Proof.
  intros Hs Hd. destruct (polymodStep_val st d Hs Hd) as [Hv Hb].
  split; [| exact Hb].
  rewrite Hv. unfold polymodShift. rewrite (val40_high st Hs).
  rewrite !Z.lxor_assoc. f_equal. apply Z.lxor_comm.
Qed.

Lemma genMask_low_inj c c' :
  0 <= c < 32 -> 0 <= c' < 32 ->
  genMask c 0 GENERATOR1 GENERATOR2 mod 32 = genMask c' 0 GENERATOR1 GENERATOR2 mod 32 ->
  c = c'.
Proof.
  intros Hc Hc' H.
  assert (Hall : forallb (fun a => forallb (fun b =>
                   negb (genMask (Z.of_nat a) 0 GENERATOR1 GENERATOR2 mod 32
                         =? genMask (Z.of_nat b) 0 GENERATOR1 GENERATOR2 mod 32)
                   || Nat.eqb a b) (seq 0 32)) (seq 0 32) = true)
    by (vm_compute; reflexivity).
  rewrite forallb_forall in Hall.
  specialize (Hall (Z.to_nat c) ltac:(apply in_seq; lia)).
  rewrite forallb_forall in Hall.
  specialize (Hall (Z.to_nat c') ltac:(apply in_seq; lia)).
  rewrite !Z2Nat.id in Hall by lia.
  apply Z.eqb_eq in H. rewrite H in Hall. cbn [negb orb] in Hall.
  apply Nat.eqb_eq in Hall. lia.
Qed.

Lemma lxor_shift_low a g : Z.lxor (a * 32) g mod 32 = g mod 32.
Proof.
  change 32 with (2 ^ 5). rewrite <- Z.shiftl_mul_pow2 by lia.
  rewrite <- !Z.land_ones by lia. Z.bitblast.
  rewrite (Z.testbit_neg_r a l) by lia. reflexivity.
Qed.

Lemma lxor_cancel_r a b g : Z.lxor a g = Z.lxor b g -> a = b.
Proof.
  intros H.
  rewrite <- (Z.lxor_0_r a), <- (Z.lxor_0_r b), <- (Z.lxor_nilpotent g).
  rewrite <- !Z.lxor_assoc, H. reflexivity.
Qed.

Lemma polymodShift_inj u v :
  0 <= u < 2 ^ 40 -> 0 <= v < 2 ^ 40 -> polymodShift u = polymodShift v -> u = v.
Proof.
  intros Hu Hv H. unfold polymodShift in H.
  assert (Hcu : 0 <= u / 2 ^ 35 < 32)
    by (split; [apply Z.div_pos; lia | apply Z.div_lt_upper_bound; lia]).
  assert (Hcv : 0 <= v / 2 ^ 35 < 32)
    by (split; [apply Z.div_pos; lia | apply Z.div_lt_upper_bound; lia]).
  assert (Hc : u / 2 ^ 35 = v / 2 ^ 35).
  { apply genMask_low_inj; [exact Hcu | exact Hcv |].
    transitivity (Z.lxor (u mod 2 ^ 35 * 32)
                    (genMask (u / 2 ^ 35) 0 GENERATOR1 GENERATOR2) mod 32);
      [symmetry; apply lxor_shift_low | rewrite H; apply lxor_shift_low]. }
  rewrite Hc in H. apply lxor_cancel_r in H.
  pose proof (Z.div_mod u (2 ^ 35) ltac:(lia)).
  pose proof (Z.div_mod v (2 ^ 35) ltac:(lia)). lia.
Qed.

Lemma fold_polymodStep_inj data : forall s t,
  0 <= fst s < 256 -> 0 <= fst t < 256 -> Forall isByte data ->
  val40 s <> val40 t ->
  val40 (fold_left polymodStep data s) <> val40 (fold_left polymodStep data t).
Proof.
  induction data as [| d data IH]; intros s t Hs Ht Hd Hne; [exact Hne |].
  inversion Hd as [| ? ? Hd0 Hd']; subst. cbn [fold_left].
  destruct (polymodStep_shift s d Hs Hd0) as [Es Hs'].
  destruct (polymodStep_shift t d Ht Hd0) as [Et Ht'].
  apply IH; auto.
  rewrite Es, Et. intros E. apply lxor_cancel_r in E.
  apply Hne, polymodShift_inj; auto using val40_range.
Qed.

Lemma polymod_substitution pre a b post :
  Forall isByte pre -> isByte a -> isByte b -> Forall isByte post ->
  a <> b ->
  polymod (pre ++ a :: post) <> polymod (pre ++ b :: post).
Proof.
  intros Hpre Ha Hb Hpost Hne.
  rewrite !polymod_val by (apply Forall_app; split; [| constructor]; assumption).
  rewrite !fold_left_app. cbn [fold_left].
  set (s := fold_left polymodStep pre (0, 1)).
  assert (Hs : 0 <= fst s < 256)
    by (apply fold_polymodStep_byte; [simpl; lia | exact Hpre]).
  destruct (polymodStep_shift s a Hs Ha) as [Ea Hsa].
  destruct (polymodStep_shift s b Hs Hb) as [Eb Hsb].
  intros E. apply lxor_cancel_r in E. revert E.
  apply fold_polymodStep_inj; auto.
  rewrite Ea, Eb. intros E.
  rewrite (Z.lxor_comm _ a), (Z.lxor_comm _ b) in E.
  apply lxor_cancel_r in E. contradiction.
Qed.

(** *** Strings *)

Lemma split_single s e : Str.split s = [e] -> s = e /\ Str.colons s = 0%nat.
Proof.
  intros H. pose proof (split_length s) as Hl. rewrite H in Hl. simpl in Hl.
  assert (Hc : Str.colons s = 0%nat) by lia.
  rewrite (split_nocolon s Hc) in H. split; [congruence | exact Hc].
Qed.

Lemma split_inv s : forall p e,
  Str.split s = [p; e] ->
  s = (p ++ String Str.colon e)%string /\ Str.colons p = 0%nat /\ Str.colons e = 0%nat.
Proof.
  induction s as [| c s IH]; intros p e H; [discriminate |].
  cbn [Str.split] in H.
  destruct (Ascii.eqb c Str.colon) eqn:Hc.
  - apply Ascii.eqb_eq in Hc. subst c.
    injection H as <- H. apply split_single in H. destruct H as [-> H].
    simpl. auto.
  - destruct (Str.split s) as [| p' ps] eqn:Hs; [discriminate |].
    injection H as <- ->.
    destruct (IH p' e eq_refl) as (-> & Hp & He).
    cbn [Str.colons append]. rewrite Hc. auto.
Qed.

Lemma toLowerCase_parts p e :
  Str.toLowerCase (p ++ String Str.colon e) = (p ++ String Str.colon e)%string ->
  Str.toLowerCase p = p /\ Str.toLowerCase e = e.
Proof.
  unfold Str.toLowerCase. induction p as [| c p IH]; cbn [append Str.smap]; intros H.
  - injection H as H. auto.
  - injection H as Hc H. destruct (IH H) as [Hp He]. rewrite Hc, Hp. auto.
Qed.

Lemma lowerChar_upperChar c : Str.lowerChar (Str.upperChar c) = Str.lowerChar c.
Proof. destruct c as [[] [] [] [] [] [] [] []]; reflexivity. Qed.

Lemma upperChar_idem c : Str.upperChar (Str.upperChar c) = Str.upperChar c.
Proof. destruct c as [[] [] [] [] [] [] [] []]; reflexivity. Qed.

Lemma toLowerCase_toUpperCase s : Str.toLowerCase (Str.toUpperCase s) = Str.toLowerCase s.
Proof.
  unfold Str.toLowerCase, Str.toUpperCase.
  induction s as [| c s IH]; simpl; [reflexivity |].
  rewrite lowerChar_upperChar, IH. reflexivity.
Qed.

Lemma toUpperCase_idem s : Str.toUpperCase (Str.toUpperCase s) = Str.toUpperCase s.
Proof.
  unfold Str.toUpperCase. induction s as [| c s IH]; simpl; [reflexivity |].
  rewrite upperChar_idem, IH. reflexivity.
Qed.

Lemma length_smap f s : String.length (Str.smap f s) = String.length s.
Proof. induction s as [| c s IH]; simpl; [reflexivity | rewrite IH; reflexivity]. Qed.

Lemma length_append (a b : string) :
  String.length (a ++ b) = (String.length a + String.length b)%nat.
Proof. induction a as [| c a IH]; simpl; [reflexivity | rewrite IH; reflexivity]. Qed.

(** *** The steps of decoding *)

Lemma decodeKaspaAddress_inv address allowed d :
  decodeKaspaAddress address allowed = Ok d ->
  exists e syms,
    hasSingleCase address = true
    /\ Str.split (Str.toLowerCase address) = [prefix d; e]
    /\ Str.includes (map Str.toLowerCase allowed) (prefix d) = true
    /\ base32Decode e = Ok syms
    /\ hasValidChecksum (prefix d) syms = true
    /\ convertBits (firstn (List.length syms - 8) syms) 5 8 true
       = Ok (version d :: payload d).
Proof.
  unfold decodeKaspaAddress, normalizeAddress. intros H.
  destruct (hasSingleCase address) eqn:H1; [| discriminate].
  cbn [assertValid bind] in H.
  destruct (Str.split (Str.toLowerCase address)) as [| p [| e [| x r]]] eqn:H2;
    try discriminate.
  cbn [bind] in H.
  destruct (Str.includes (map Str.toLowerCase allowed) p) eqn:H3; [| discriminate].
  cbn [assertValid bind] in H.
  destruct (base32Decode e) as [syms |] eqn:H4; [| discriminate].
  cbn [bind] in H.
  destruct (hasValidChecksum p syms) eqn:H5; [| discriminate].
  cbn [assertValid bind] in H.
  destruct (convertBits (firstn (List.length syms - 8) syms) 5 8 true) as [[| v rest] |]
    eqn:H6; try discriminate.
  cbn [bind] in H. injection H as <-. cbn [prefix version payload].
  exists e, syms.
  split; [reflexivity |]. split; [reflexivity |]. split; [exact H3 |].
  split; [exact H4 |]. split; [exact H5 | exact H6].
Qed.

Lemma decodeKaspaAddress_intro address allowed p e syms v rest :
  hasSingleCase address = true ->
  Str.split (Str.toLowerCase address) = [p; e] ->
  Str.includes (map Str.toLowerCase allowed) p = true ->
  base32Decode e = Ok syms ->
  hasValidChecksum p syms = true ->
  convertBits (firstn (List.length syms - 8) syms) 5 8 true = Ok (v :: rest) ->
  decodeKaspaAddress address allowed = Ok (mkDecoded p v rest).
Proof.
  intros H1 H2 H3 H4 H5 H6. unfold decodeKaspaAddress, normalizeAddress.
  rewrite H1. cbn [assertValid bind]. rewrite H2. cbn [bind].
  rewrite H3. cbn [assertValid bind]. rewrite H4. cbn [bind].
  rewrite H5. cbn [assertValid bind]. rewrite H6. reflexivity.
Qed.


Lemma colons_append a b : Str.colons (a ++ b) = (Str.colons a + Str.colons b)%nat.
Proof.
  induction a as [| c a IH]; cbn [append Str.colons]; [reflexivity | rewrite IH; lia].
Qed.

Lemma inverseIndex_inj c1 c2 v :
  inverseIndex CHARSET_INVERSE_INDEX c1 = Some v ->
  inverseIndex CHARSET_INVERSE_INDEX c2 = Some v -> c1 = c2.
Proof.
  intros H1 H2. apply inverseIndex_charset in H1, H2.
  destruct H1 as [_ <-], H2 as [_ <-]. reflexivity.
Qed.

Lemma base32Decode_lower s l : base32Decode s = Ok l -> Str.toLowerCase s = s.
Proof.
  intros H. apply base32Decode_sound in H. destruct H as (Hd & He & _).
  destruct (base32_roundtrip l Hd) as (encoded & He' & _ & _ & Hl). congruence.
Qed.

(** The address as the decoder reads it: the prefix, the separator and the
    symbols. *)
Lemma decodeKaspaAddress_shape address allowed d :
  decodeKaspaAddress address allowed = Ok d ->
  exists e syms,
    hasSingleCase address = true
    /\ Str.toLowerCase address = (prefix d ++ String Str.colon e)%string
    /\ Str.colons (prefix d) = 0%nat
    /\ Str.toLowerCase (prefix d) = prefix d
    /\ Str.includes (map Str.toLowerCase allowed) (prefix d) = true
    /\ base32Decode e = Ok syms
    /\ hasValidChecksum (prefix d) syms = true
    /\ convertBits (firstn (List.length syms - 8) syms) 5 8 true
       = Ok (version d :: payload d).
Proof.
  intros H. apply decodeKaspaAddress_inv in H.
  destruct H as (e & syms & H1 & H2 & H3 & H4 & H5 & H6).
  destruct (split_inv _ _ _ H2) as (Ea & Hp & He).
  assert (Hl : Str.toLowerCase (prefix d ++ String Str.colon e)
               = (prefix d ++ String Str.colon e)%string)
    by (rewrite <- Ea; apply toLowerCase_idem).
  apply toLowerCase_parts in Hl. destruct Hl as [Hlp _].
  exists e, syms.
  split; [exact H1 |]. split; [exact Ea |]. split; [exact Hp |]. split; [exact Hlp |].
  split; [exact H3 |]. split; [exact H4 |]. split; [exact H5 | exact H6].
Qed.

(** An address in lower case that reads as prefix, separator and symbols
    fails on its checksum when the symbols do not close the polynomial. *)
Lemma decodeKaspaAddress_checksum p e syms allowed :
  Str.toLowerCase p = p -> Str.colons p = 0%nat ->
  Str.includes (map Str.toLowerCase allowed) p = true ->
  base32Decode e = Ok syms ->
  hasValidChecksum p syms = false ->
  decodeKaspaAddress (p ++ String Str.colon e) allowed = Err InvalidChecksum.
Proof.
  intros Hlp Hcp Hin Hdec Hcs.
  assert (Hle : Str.toLowerCase e = e) by (eapply base32Decode_lower; exact Hdec).
  assert (Hce : Str.colons e = 0%nat) by (eapply base32Decode_sound; exact Hdec).
  assert (Hlow : Str.toLowerCase (p ++ String Str.colon e) = (p ++ String Str.colon e)%string).
  { rewrite <- Hlp at 2. rewrite <- Hlp at 1. apply toLowerCase_join, Hle. }
  unfold decodeKaspaAddress, normalizeAddress, hasSingleCase.
  rewrite Hlow, String.eqb_refl. cbn [orb assertValid bind].
  rewrite (split_join p e Hcp Hce). cbn [bind].
  rewrite Hin. cbn [assertValid bind]. rewrite Hdec. cbn [bind].
  rewrite Hcs. reflexivity.
Qed.


(** The symbols that pass [hasValidChecksum] end in the checksum that
    [encodeKaspaAddress] computes. *)
Lemma hasValidChecksum_iff p payloadData cs :
  Forall (isDigit 5) payloadData -> Forall (isDigit 5) cs -> List.length cs = 8%nat ->
  hasValidChecksum p (payloadData ++ cs) = true
  <-> cs = checksumToArray
             (polymod (uint8ArrayOf (prefixToArray p ++ [0]) ++ payloadData
                       ++ newUint8Array 8)).
Proof.
  intros Hp Hcs Hl.
  set (D := uint8ArrayOf (prefixToArray p) ++ [0] ++ payloadData).
  assert (HD : Forall isByte D).
  { apply Forall_app. split; [apply Forall_map, Forall_forall; intros; apply u8_isByte |].
    apply Forall_app. split; [| apply isDigit5_isByte, Hp].
    constructor; [unfold isByte; lia | constructor]. }
  assert (E1 : uint8ArrayOf (prefixToArray p) ++ [0] ++ payloadData ++ cs = D ++ cs)
    by (unfold D; rewrite <- !app_assoc; reflexivity).
  assert (E2 : uint8ArrayOf (prefixToArray p ++ [0]) ++ payloadData ++ newUint8Array 8
               = D ++ newUint8Array 8)
    by (unfold D, uint8ArrayOf; rewrite map_app, <- !app_assoc; reflexivity).
  unfold hasValidChecksum. rewrite E1, E2, Z.eqb_eq.
  split.
  - intros Hz. apply polymod_checksum_unique; assumption.
  - intros ->. apply polymod_checksum. exact HD.
Qed.

(** Decoding inverts encoding: an accepted address is the encoding of what it
    decodes to, up to the case of its letters. *)
Lemma decode_encode address allowed d :
  decodeKaspaAddress address allowed = Ok d ->
  encodeKaspaAddress (payload d) (prefix d) (version d) = Ok (Str.toLowerCase address).
Proof.
  intros Hd.
  destruct (decodeKaspaAddress_shape _ _ _ Hd)
    as (e & syms & _ & Ea & Hcp & Hlp & Hin & Hdec & Hcs & Hconv).
  destruct (decodeKaspaAddress_bytes _ _ _ Hd) as [Hv Hp].
  assert (HB : Forall isByte (version d :: payload d)) by (constructor; assumption).
  destruct (base32Decode_sound _ _ Hdec) as (Hdig & Henc & Hlen & _).
  remember (firstn (List.length syms - 8) syms) as data eqn:Edata.
  remember (skipn (List.length syms - 8) syms) as cs eqn:Ecs.
  assert (Hsyms : data ++ cs = syms) by (subst data cs; apply firstn_skipn).
  assert (Hdc : Forall (isDigit 5) data /\ Forall (isDigit 5) cs)
    by (apply Forall_app; rewrite Hsyms; exact Hdig).
  destruct Hdc as [Hdd Hdcs].
  destruct (convertBits_strict_sound data _ Hdd Hconv) as (_ & Hpad & Hval).
  assert (Hld : List.length data = (List.length syms - 8)%nat).
  { subst data. rewrite length_firstn. lia. }
  assert (Hlc : List.length cs = 8%nat).
  { subst cs. rewrite length_skipn. cbn [List.length] in Hpad. lia. }
  destruct (convertBits_loose _ HB) as (pd & Hc & Hdg & Hpad' & Hval').
  assert (Hpd : pd = data).
  { assert (Hll : List.length pd = List.length data) by lia.
    apply (digitsValue_inj 5); [lia | exact Hdg | exact Hdd | exact Hll |].
    rewrite Hval, Hval', Hll. reflexivity. }
  subst pd.
  rewrite <- Hsyms in Hcs.
  apply (hasValidChecksum_iff _ _ _ Hdd Hdcs Hlc) in Hcs.
  unfold encodeKaspaAddress. rewrite Hlp.
  rewrite (uint8ArrayOf_id _ HB), Hc. cbn [bind].
  rewrite <- Hcs, (uint8ArrayOf_id cs) by (apply isDigit5_isByte, Hdcs).
  rewrite Hsyms, Henc. cbn [bind]. rewrite Ea. reflexivity.
Qed.

(** The result of decoding depends on the address through its lower-case
    form, and on the allowed prefixes through their lower-case forms. *)
Lemma decodeKaspaAddress_lower address allowed :
  hasSingleCase address = true ->
  decodeKaspaAddress address allowed = decodeKaspaAddress (Str.toLowerCase address) allowed.
Proof.
  intros H. unfold decodeKaspaAddress, normalizeAddress.
  rewrite H. unfold hasSingleCase at 1.
  rewrite toLowerCase_idem, String.eqb_refl. reflexivity.
Qed.

Lemma decodeKaspaAddress_allowed address allowed allowed' :
  map Str.toLowerCase allowed = map Str.toLowerCase allowed' ->
  decodeKaspaAddress address allowed = decodeKaspaAddress address allowed'.
Proof. intros H. unfold decodeKaspaAddress. rewrite H. reflexivity. Qed.

Lemma hasSingleCase_toUpperCase address : hasSingleCase (Str.toUpperCase address) = true.
Proof.
  unfold hasSingleCase. rewrite toUpperCase_idem, String.eqb_refl. apply orb_true_r.
Qed.

(** Decoding with another list of allowed prefixes: the same result when
    the prefix of the address is in the list, [UnknownPrefix] when not. *)
Lemma decodeKaspaAddress_prefixes address allowed allowed' d :
  decodeKaspaAddress address allowed = Ok d ->
  decodeKaspaAddress address allowed'
  = if Str.includes (map Str.toLowerCase allowed') (prefix d) then Ok d
    else Err UnknownPrefix.
Proof.
  intros H. apply decodeKaspaAddress_inv in H.
  destruct H as (e & syms & H1 & H2 & H3 & H4 & H5 & H6).
  unfold decodeKaspaAddress, normalizeAddress.
  rewrite H1. cbn [assertValid bind]. rewrite H2. cbn [bind].
  destruct (Str.includes (map Str.toLowerCase allowed') (prefix d)); [| reflexivity].
  cbn [assertValid bind]. rewrite H4. cbn [bind]. rewrite H5. cbn [assertValid bind].
  rewrite H6. destruct d; reflexivity.
Qed.

Lemma includes_In l s : Str.includes l s = true <-> In s l.
Proof.
  unfold Str.includes. rewrite existsb_exists. split.
  - intros (x & Hx & E). apply String.eqb_eq in E. subst. exact Hx.
  - intros H. exists s. split; [exact H | apply String.eqb_refl].
Qed.

(** The errors of decoding. *)
Lemma decodeKaspaAddress_errors address allowed e :
  decodeKaspaAddress address allowed = Err e -> isDecodeError e = true.
Proof.
  unfold decodeKaspaAddress, normalizeAddress. intros H.
  destruct (hasSingleCase address); [| injection H as <-; reflexivity].
  cbn [assertValid bind] in H.
  destruct (Str.split (Str.toLowerCase address)) as [| p [| enc [| x r]]];
    try (injection H as <-; reflexivity).
  cbn [bind] in H.
  destruct (Str.includes (map Str.toLowerCase allowed) p);
    [| injection H as <-; reflexivity].
  cbn [assertValid bind] in H.
  destruct (base32Decode enc) as [syms | e'] eqn:Hdec.
  2:{ cbn [bind] in H. injection H as <-.
      rewrite (base32Decode_error _ _ Hdec). reflexivity. }
  cbn [bind] in H.
  destruct (hasValidChecksum p syms); [| injection H as <-; reflexivity].
  cbn [assertValid bind] in H.
  destruct (base32Decode_sound _ _ Hdec) as (Hdig & _).
  assert (Hdd : Forall (isDigit 5) (firstn (List.length syms - 8) syms)).
  { rewrite <- (firstn_skipn (List.length syms - 8) syms) in Hdig.
    apply Forall_app in Hdig. apply Hdig. }
  destruct (convertBits (firstn (List.length syms - 8) syms) 5 8 true) as [[| v rest] | e']
    eqn:Hconv; cbn [bind] in H; try discriminate.
  - injection H as <-. reflexivity.
  - injection H as <-. rewrite (convertBits_strict_error _ _ Hdd Hconv). reflexivity.
Qed.


(** *** The shape of an encoded address *)

Lemma encodeKaspaAddress_shape bytes p v :
  Forall isByte bytes -> isByte v ->
  exists encoded syms,
    encodeKaspaAddress bytes p v = Ok (Str.toLowerCase p ++ String Str.colon encoded)%string
    /\ base32Decode encoded = Ok syms
    /\ Z.of_nat (String.length encoded)
       = (8 * (Z.of_nat (List.length bytes) + 1) + 4) / 5 + 8.
Proof.
  intros Hb Hv.
  assert (HB : Forall isByte (v :: bytes)) by (constructor; assumption).
  set (np := Str.toLowerCase p).
  destruct (convertBits_loose (v :: bytes) HB) as (payloadData & Hconv & Hdig & Hpad & Hval).
  destruct (checksumDigits_value 8
              (polymod (uint8ArrayOf (prefixToArray np ++ [0]) ++ payloadData
                        ++ newUint8Array 8))) as (_ & Hcd & Hcl).
  { apply polymod_range.
    apply Forall_app. split; [apply Forall_map, Forall_forall; intros; apply u8_isByte |].
    apply Forall_app. split; [apply isDigit5_isByte, Hdig | apply repeat_isByte]. }
  fold (checksumToArray (polymod (uint8ArrayOf (prefixToArray np ++ [0]) ++ payloadData
                                   ++ newUint8Array 8))) in Hcd, Hcl.
  set (checksum := checksumToArray _) in *.
  assert (Hfull : Forall (isDigit 5) (payloadData ++ uint8ArrayOf checksum)).
  { rewrite (uint8ArrayOf_id checksum) by (apply isDigit5_isByte, Hcd).
    apply Forall_app. split; assumption. }
  destruct (base32_roundtrip _ Hfull) as (encoded & Henc & Hdec & _).
  exists encoded, (payloadData ++ uint8ArrayOf checksum).
  split; [| split; [exact Hdec |]].
  - unfold encodeKaspaAddress. change (Str.toLowerCase p) with np.
    rewrite (uint8ArrayOf_id (v :: bytes)) by exact HB.
    rewrite Hconv. cbn [bind]. fold checksum. rewrite Henc. reflexivity.
  - destruct (base32Decode_sound _ _ Hdec) as (_ & _ & Hlen & _).
    rewrite <- Hlen, length_app. unfold uint8ArrayOf. rewrite length_map, Hcl.
    cbn [List.length] in Hpad.
    set (n := Z.of_nat (List.length bytes)) in *.
    set (m := Z.of_nat (List.length payloadData)) in *.
    assert (Hm : m = (8 * (n + 1) + 4) / 5).
    { apply Z.div_unique with (r := 8 * (n + 1) + 4 - 5 * m); lia. }
    rewrite <- Hm. unfold m. lia.
Qed.

(** *** The spend scripts *)

Lemma addressToScriptPublicKey_inv address allowed script :
  addressToScriptPublicKey address allowed = Ok script ->
  exists d,
    decodeKaspaAddress address allowed = Ok d
    /\ ((version d = 0 /\ List.length (payload d) = 32%nat
         /\ script = [0x20] ++ payload d ++ [0xac])
        \/ (version d = 1 /\ List.length (payload d) = 33%nat
            /\ script = [0x21] ++ payload d ++ [0xab])
        \/ (version d = 8 /\ List.length (payload d) = 32%nat
            /\ script = [0xaa; 0x20] ++ payload d ++ [0x87])).
Proof.
  unfold addressToScriptPublicKey. intros H.
  destruct (decodeKaspaAddress address allowed) as [d |] eqn:Hd; [| discriminate].
  cbn [bind] in H. exists d. split; [reflexivity |].
  destruct (decodeKaspaAddress_bytes _ _ _ Hd) as [_ Hp].
  assert (Hid : forall a b, uint8ArrayOf (a ++ payload d ++ b)
                            = uint8ArrayOf a ++ payload d ++ uint8ArrayOf b).
  { intros a b. unfold uint8ArrayOf. rewrite !map_app.
    fold (uint8ArrayOf (payload d)). rewrite (uint8ArrayOf_id _ Hp). reflexivity. }
  destruct (Z.eqb_spec (version d) 0) as [E0 | _].
  { destruct (Nat.eqb_spec (List.length (payload d)) 32) as [El | _]; [| discriminate].
    cbn [assertValid bind] in H. rewrite Hid in H. injection H as <-.
    left. split; [exact E0 | split; [exact El | reflexivity]]. }
  destruct (Z.eqb_spec (version d) 1) as [E1 | _].
  { destruct (Nat.eqb_spec (List.length (payload d)) 33) as [El | _]; [| discriminate].
    cbn [assertValid bind] in H. rewrite Hid in H. injection H as <-.
    right; left. split; [exact E1 | split; [exact El | reflexivity]]. }
  destruct (Z.eqb_spec (version d) 8) as [E8 | _]; [| discriminate].
  destruct (Nat.eqb_spec (List.length (payload d)) 32) as [El | _]; [| discriminate].
  cbn [assertValid bind] in H. rewrite Hid in H. injection H as <-.
  right; right. split; [exact E8 | split; [exact El | reflexivity]].
Qed.


Lemma repeat_bytes b n : isByte b -> Forall isByte (repeat b n).
Proof. intros Hb. apply Forall_forall. intros x Hx. apply repeat_spec in Hx. subst. exact Hb. Qed.


(** *** Validity for a network *)

Lemma isKaspaAddressForNetwork_iff address q :
  isKaspaAddressForNetwork address q = true
  <-> exists d, decodeKaspaAddress address [q] = Ok d /\ prefix d = Str.toLowerCase q.
Proof.
  unfold isKaspaAddressForNetwork. split.
  - destruct (decodeKaspaAddress address [q]) as [d |] eqn:Hd; [| discriminate].
    intros _. exists d. split; [reflexivity |].
    destruct (decodeKaspaAddress_shape _ _ _ Hd) as (e & syms & _ & _ & _ & _ & Hin & _).
    apply includes_In in Hin. destruct Hin as [E | []]. congruence.
  - intros (d & -> & _). reflexivity.
Qed.

Lemma isValidKaspaAddress_guard address network :
  Wallet.isValidKaspaAddress address network
  = isKaspaAddressForNetwork address (Wallet.prefix network).
Proof.
  unfold Wallet.isValidKaspaAddress.
  destruct (String.eqb_spec address EmptyString) as [-> | _]; reflexivity.
Qed.

Lemma isKaspaAddressForNetwork_other address q q' :
  isKaspaAddressForNetwork address q = true ->
  isKaspaAddressForNetwork address q' = String.eqb (Str.toLowerCase q) (Str.toLowerCase q').
Proof.
  intros H. apply isKaspaAddressForNetwork_iff in H. destruct H as (d & Hd & Hp).
  unfold isKaspaAddressForNetwork.
  rewrite (decodeKaspaAddress_prefixes _ _ [q'] _ Hd), Hp.
  unfold Str.includes. cbn [map existsb]. rewrite orb_false_r.
  destruct (String.eqb (Str.toLowerCase q) (Str.toLowerCase q')); reflexivity.
Qed.


Lemma addressToScriptPublicKey_errors address allowed e :
  addressToScriptPublicKey address allowed = Err e -> isAddressError e = true.
Proof.
  unfold addressToScriptPublicKey, isAddressError. intros H.
  destruct (decodeKaspaAddress address allowed) as [d | e'] eqn:Hd.
  - cbn [bind] in H.
    destruct (version d =? 0); [| destruct (version d =? 1); [| destruct (version d =? 8)]];
      try (destruct (Nat.eqb _ _); cbn [assertValid bind] in H; [discriminate |]);
      injection H as <-; reflexivity.
  - cbn [bind] in H. injection H as <-.
    rewrite (decodeKaspaAddress_errors _ _ _ Hd). reflexivity.
Qed.

(** Distinct payloads or versions have distinct addresses. *)
Lemma encode_injective payload1 version1 payload2 version2 prefix :
  Forall isByte payload1 -> isByte version1 ->
  Forall isByte payload2 -> isByte version2 ->
  Str.isAscii prefix = true -> Str.colons prefix = 0%nat ->
  payload1 <> payload2 \/ version1 <> version2 ->
  exists address1 address2,
    encodeKaspaAddress payload1 prefix version1 = Ok address1
    /\ encodeKaspaAddress payload2 prefix version2 = Ok address2
    /\ address1 <> address2.
Proof.
  intros Hp1 Hv1 Hp2 Hv2 Ha Hc Hne.
  destruct (encode_decode_lowercase payload1 prefix version1 Hp1 Hv1 Ha Hc)
    as (a1 & He1 & Hd1 & _).
  destruct (encode_decode_lowercase payload2 prefix version2 Hp2 Hv2 Ha Hc)
    as (a2 & He2 & Hd2 & _).
  exists a1, a2. split; [exact He1 |]. split; [exact He2 |].
  intros E. subst a2. rewrite Hd1 in Hd2. injection Hd2 as Hv Hp.
  destruct Hne as [Hne | Hne]; contradiction.
Qed.

End MoreCodecFacts.

(** * Further properties of the signing engine *)

Section MoreEngineFacts.
Import JS.
Context {P : Primitives}.

(** *** The integer writes of the writer *)

Lemma leBytes_spec n : forall value,
  List.length (leBytes n value) = n
  /\ Forall isByte (leBytes n value)
  /\ leValue (leBytes n value) = value mod 2 ^ (8 * Z.of_nat n).
Proof.
  induction n as [| n IH]; intros value.
  - cbn [leBytes List.length leValue]. rewrite Z.mod_1_r. auto.
  - cbn [leBytes List.length leValue].
    destruct (IH (value / 256)) as (Hl & Hb & Hv).
    split; [rewrite Hl; reflexivity |].
    split; [constructor; [apply Z.mod_pos_bound; lia | exact Hb] |].
    rewrite Hv.
    replace (8 * Z.of_nat (S n)) with (8 + 8 * Z.of_nat n) by lia.
    rewrite Z.pow_add_r by lia. change (2 ^ 8) with 256.
    rewrite Z.rem_mul_r by (try apply Z.pow_nonzero; try apply pow2_pos; lia).
    reflexivity.
Qed.

Lemma writeUIntLE_Ok n w value :
  0 <= value < 2 ^ (8 * Z.of_nat n) -> writeUIntLE n w value = Ok (w ++ leBytes n value).
Proof.
  intros [H0 H1]. unfold writeUIntLE, writeRaw.
  apply Z.leb_le in H0. apply Z.ltb_lt in H1. rewrite H0, H1. reflexivity.
Qed.

Lemma writeUIntLE_inv n w value w' :
  writeUIntLE n w value = Ok w' ->
  0 <= value < 2 ^ (8 * Z.of_nat n) /\ w' = w ++ leBytes n value.
Proof.
  unfold writeUIntLE, writeRaw.
  destruct (Z.leb_spec 0 value); [| discriminate].
  destruct (Z.ltb_spec value (2 ^ (8 * Z.of_nat n))); [| discriminate].
  cbn [andb]. intros H'. injection H' as <-. auto.
Qed.

Lemma writeUIntLE_Err n w value e :
  writeUIntLE n w value = Err e ->
  e = RangeError /\ ~ 0 <= value < 2 ^ (8 * Z.of_nat n).
Proof.
  unfold writeUIntLE, writeRaw.
  destruct (Z.leb_spec 0 value); destruct (Z.ltb_spec value (2 ^ (8 * Z.of_nat n)));
    cbn [andb]; try discriminate; intros H'; injection H' as <-; split; auto; lia.
Qed.

(** *** Loops of writes *)

Lemma forEachWrite_Ok {A : Type} (f : list Z -> A -> Result (list Z)) (ok : A -> Prop) :
  (forall w x, ok x -> exists w', f w x = Ok w') ->
  forall l w, Forall ok l -> exists w', forEachWrite f w l = Ok w'.
Proof.
  intros Hf. induction l as [| x l IH]; intros w Hl; cbn [forEachWrite].
  - eauto.
  - inversion Hl as [| ? ? Hx Hl']; subst.
    destruct (Hf w x Hx) as [w1 E]. rewrite E. cbn [bind]. apply IH, Hl'.
Qed.

Lemma forEachWrite_inv {A : Type} (f : list Z -> A -> Result (list Z)) (ok : A -> Prop) :
  (forall w x w', f w x = Ok w' -> ok x) ->
  forall l w w', forEachWrite f w l = Ok w' -> Forall ok l.
Proof.
  intros Hf. induction l as [| x l IH]; intros w w' H; cbn [forEachWrite] in H.
  - constructor.
  - apply bind_Ok_inv in H. destruct H as (w1 & E & H).
    constructor; [exact (Hf _ _ _ E) | exact (IH _ _ H)].
Qed.

Lemma forEachWrite_Err {A : Type} (f : list Z -> A -> Result (list Z)) :
  (forall w x e, f w x = Err e -> e = RangeError) ->
  forall l w e, forEachWrite f w l = Err e -> e = RangeError.
Proof.
  intros Hf. induction l as [| x l IH]; intros w e H; cbn [forEachWrite] in H.
  - discriminate.
  - destruct (f w x) as [w1 | e1] eqn:E; cbn [bind] in H.
    + exact (IH _ _ H).
    + injection H as <-. exact (Hf _ _ _ E).
Qed.

Lemma hashOutpoint_Ok w input :
  0 <= index input < 2 ^ 32 -> exists w', hashOutpoint w input = Ok w'.
Proof. intros H. unfold hashOutpoint, writeUInt32LE. rewrite writeUIntLE_Ok by exact H. eauto. Qed.

Lemma hashOutpoint_inv w input w' :
  hashOutpoint w input = Ok w' -> 0 <= index input < 2 ^ 32.
Proof. unfold hashOutpoint, writeUInt32LE. intros H. apply writeUIntLE_inv in H. apply H. Qed.

Lemma hashOutput_Ok w output :
  0 <= outAmount output < 2 ^ 64 -> 0 <= spkVersion (outScriptPublicKey output) < 2 ^ 16 ->
  exists w', hashOutput w output = Ok w'.
Proof.
  intros Ha Hv. unfold hashOutput, writeUInt64LE, writeUInt16LE, writeVarBytes.
  rewrite writeUIntLE_Ok by exact Ha. cbn [bind].
  rewrite writeUIntLE_Ok by exact Hv. cbn [bind]. eauto.
Qed.

Lemma hashOutput_inv w output w' :
  hashOutput w output = Ok w' ->
  0 <= outAmount output < 2 ^ 64 /\ 0 <= spkVersion (outScriptPublicKey output) < 2 ^ 16.
Proof.
  unfold hashOutput, writeUInt64LE, writeUInt16LE. intros H.
  apply bind_Ok_inv in H. destruct H as (w1 & E1 & H).
  apply bind_Ok_inv in H. destruct H as (w2 & E2 & H).
  apply writeUIntLE_inv in E1, E2. split; [apply E1 | apply E2].
Qed.

(** *** When the signature hash under [SIGHASH_ALL] is defined *)

Lemma specSigHash_ALL_Ok t i input utxo :
  0 <= txVersion t < 2 ^ 16 ->
  Forall (fun x => 0 <= index x < 2 ^ 32 /\ 0 <= sequence x < 2 ^ 64) (txInputs t) ->
  Forall (fun o => 0 <= outAmount o < 2 ^ 64
                   /\ 0 <= spkVersion (outScriptPublicKey o) < 2 ^ 16) (txOutputs t) ->
  0 <= lockTime t < 2 ^ 64 ->
  nth_error (txInputs t) i = Some input ->
  nth_error (utxos t) i = Some utxo ->
  0 <= utxoAmount utxo < 2 ^ 64 ->
  exists h, specSigHash t SIGHASH_ALL i = Ok h.
Proof.
  intros Hv Hin Hout Hlt Hi Hu Ha.
  assert (Hxi : 0 <= index input < 2 ^ 32 /\ 0 <= sequence input < 2 ^ 64).
  { apply nth_error_In in Hi. rewrite Forall_forall in Hin. apply Hin, Hi. }
  destruct (forEachWrite_Ok hashOutpoint _ (fun w x Hx => hashOutpoint_Ok w x (proj1 Hx))
              (txInputs t) [] Hin) as [w1 E1].
  destruct (forEachWrite_Ok (fun w x => writeUInt64LE w (sequence x)) _
              (fun w x Hx => ex_intro _ _ (writeUIntLE_Ok 8 w (sequence x) (proj2 Hx)))
              (txInputs t) [] Hin) as [w2 E2].
  destruct (forEachWrite_Ok (fun w (_ : SerializableInput) => writeUInt8 w 1) (fun _ => True)
              (fun w x _ => ex_intro _ _ (writeUIntLE_Ok 1 w 1 ltac:(simpl; lia)))
              (txInputs t) []) as [w3 E3].
  { apply Forall_forall. auto. }
  destruct (forEachWrite_Ok hashOutput _
              (fun w x Hx => hashOutput_Ok w x (proj1 Hx) (proj2 Hx))
              (txOutputs t) [] Hout) as [w4 E4].
  unfold specSigHash, specPreviousOutputsHash, specSequencesHash, specSigOpCountsHash,
    specOutputsHash, writeUInt16LE, writeUInt64LE, writeUInt8, writeVarBytes in *.
  change (isSigHashAnyoneCanPay SIGHASH_ALL) with false.
  change (isSigHashSingle SIGHASH_ALL) with false.
  change (isSigHashNone SIGHASH_ALL) with false.
  cbn [orb].
  rewrite (writeUIntLE_Ok 2 [] (txVersion t)) by exact Hv. cbn [bind].
  rewrite E1. cbn [bind]. rewrite E2. cbn [bind]. rewrite E3. cbn [bind].
  rewrite Hi, Hu. cbn [defined bind].
  match goal with
  | |- context [hashOutpoint ?w input] =>
      destruct (hashOutpoint_Ok w input (proj1 Hxi)) as [w5 E5]; rewrite E5
  end.
  cbn [bind].
  rewrite (writeUIntLE_Ok 2 w5 0) by (simpl; lia). cbn [bind].
  rewrite writeUIntLE_Ok by exact Ha. cbn [bind].
  rewrite writeUIntLE_Ok by apply Hxi. cbn [bind].
  rewrite writeUIntLE_Ok by (simpl; lia). cbn [bind].
  rewrite E4. cbn [bind].
  rewrite writeUIntLE_Ok by exact Hlt. cbn [bind].
  rewrite writeUIntLE_Ok by (simpl; lia). cbn [bind].
  rewrite writeUIntLE_Ok by (change SIGHASH_ALL with 1; simpl; lia). cbn [bind].
  eauto.
Qed.


Lemma specSigHash_ALL_inv t i h :
  specSigHash t SIGHASH_ALL i = Ok h ->
  Forall (fun x => 0 <= index x < 2 ^ 32) (txInputs t)
  /\ Forall (fun o => 0 <= outAmount o < 2 ^ 64) (txOutputs t)
  /\ exists input utxo,
       nth_error (txInputs t) i = Some input
       /\ nth_error (utxos t) i = Some utxo
       /\ 0 <= utxoAmount utxo < 2 ^ 64.
Proof.
  unfold specSigHash, specPreviousOutputsHash, specSequencesHash, specSigOpCountsHash,
    specOutputsHash.
  change (isSigHashAnyoneCanPay SIGHASH_ALL) with false.
  change (isSigHashSingle SIGHASH_ALL) with false.
  change (isSigHashNone SIGHASH_ALL) with false.
  cbn [orb]. intros H.
  apply bind_Ok_inv in H. destruct H as (w0 & _ & H).
  apply bind_Ok_inv in H. destruct H as (h1 & E1 & H).
  apply bind_Ok_inv in E1. destruct E1 as (w1 & E1 & _).
  apply bind_Ok_inv in H. destruct H as (h2 & _ & H).
  apply bind_Ok_inv in H. destruct H as (h3 & _ & H).
  apply bind_Ok_inv in H. destruct H as (input & Ei & H).
  apply bind_Ok_inv in H. destruct H as (w5 & _ & H).
  apply bind_Ok_inv in H. destruct H as (w6 & _ & H).
  apply bind_Ok_inv in H. destruct H as (utxo & Eu & H).
  apply bind_Ok_inv in H. destruct H as (w7 & _ & H).
  apply bind_Ok_inv in H. destruct H as (w8 & Ea & H).
  apply bind_Ok_inv in H. destruct H as (w9 & _ & H).
  apply bind_Ok_inv in H. destruct H as (w10 & _ & H).
  apply bind_Ok_inv in H. destruct H as (h4 & E4 & H).
  apply bind_Ok_inv in E4. destruct E4 as (w4 & E4 & _).
  split; [exact (forEachWrite_inv hashOutpoint _ hashOutpoint_inv _ _ _ E1) |].
  split.
  - exact (forEachWrite_inv hashOutput _
             (fun w x w' E => proj1 (hashOutput_inv w x w' E)) _ _ _ E4).
  - exists input, utxo.
    destruct (nth_error (txInputs t) i); [| discriminate].
    destruct (nth_error (utxos t) i); [| discriminate].
    cbn [defined] in Ei, Eu. injection Ei as ->. injection Eu as ->.
    unfold writeUInt64LE in Ea. apply writeUIntLE_inv in Ea.
    split; [reflexivity |]. split; [reflexivity | apply Ea].
Qed.

Lemma hashOutpoint_Err w input e : hashOutpoint w input = Err e -> e = RangeError.
Proof.
  unfold hashOutpoint, writeUInt32LE. intros H. apply writeUIntLE_Err in H. apply H.
Qed.

Lemma hashOutput_Err w output e : hashOutput w output = Err e -> e = RangeError.
Proof.
  unfold hashOutput, writeUInt64LE, writeUInt16LE, writeVarBytes. intros H.
  destruct (writeUIntLE 8 w (outAmount output)) as [w1 | e1] eqn:E1; cbn [bind] in H.
  - destruct (writeUIntLE 2 w1 _) as [w2 | e2] eqn:E2; cbn [bind] in H; [discriminate |].
    injection H as <-. apply writeUIntLE_Err in E2. apply E2.
  - injection H as <-. apply writeUIntLE_Err in E1. apply E1.
Qed.

Lemma finalize_forEachWrite_Err {A : Type} (f : list Z -> A -> Result (list Z)) l w e :
  (forall w x e0, f w x = Err e0 -> e0 = RangeError) ->
  bind (forEachWrite f w l) (fun w => Ok (finalize w)) = Err e -> e = RangeError.
Proof.
  intros Hf H.
  destruct (forEachWrite f w l) eqn:E; cbn [bind] in H; [discriminate |].
  injection H as <-. exact (forEachWrite_Err f Hf _ _ _ E).
Qed.

Lemma writeUIntLE_RangeError n w v e : writeUIntLE n w v = Err e -> e = RangeError.
Proof. intros H. apply writeUIntLE_Err in H. apply H. Qed.

Lemma specPreviousOutputsHash_Err t hashType e :
  specPreviousOutputsHash t hashType = Err e -> e = RangeError.
Proof.
  unfold specPreviousOutputsHash. destruct (isSigHashAnyoneCanPay hashType); [discriminate |].
  apply finalize_forEachWrite_Err. exact hashOutpoint_Err.
Qed.

Lemma specSequencesHash_Err t hashType e :
  specSequencesHash t hashType = Err e -> e = RangeError.
Proof.
  unfold specSequencesHash.
  destruct (isSigHashSingle hashType || isSigHashAnyoneCanPay hashType
            || isSigHashNone hashType); [discriminate |].
  apply finalize_forEachWrite_Err. intros w x e0. apply writeUIntLE_RangeError.
Qed.

Lemma specSigOpCountsHash_Err t hashType e :
  specSigOpCountsHash t hashType = Err e -> e = RangeError.
Proof.
  unfold specSigOpCountsHash. destruct (isSigHashAnyoneCanPay hashType); [discriminate |].
  apply finalize_forEachWrite_Err. intros w x e0. apply writeUIntLE_RangeError.
Qed.

Lemma specOutputsHash_Err t i hashType e :
  specOutputsHash t i hashType = Err e -> e = RangeError.
Proof.
  unfold specOutputsHash. destruct (isSigHashNone hashType); [discriminate |].
  destruct (isSigHashSingle hashType).
  - destruct (nth_error (txOutputs t) i) as [output |]; [| discriminate].
    destruct (hashOutput [] output) eqn:E; cbn [bind]; [discriminate |].
    intros H. injection H as <-. exact (hashOutput_Err _ _ _ E).
  - apply finalize_forEachWrite_Err. exact hashOutput_Err.
Qed.

(** At an index that holds an input and a UTXO, the signature hash fails
    only on an integer outside the range of its field. *)
Lemma specSigHash_Err t hashType i e :
  (i < List.length (txInputs t))%nat -> (i < List.length (utxos t))%nat ->
  specSigHash t hashType i = Err e -> e = RangeError.
Proof.
  intros Hi Hu.
  destruct (nth_error (txInputs t) i) as [input |] eqn:Ei;
    [| apply nth_error_None in Ei; lia].
  destruct (nth_error (utxos t) i) as [utxo |] eqn:Eu;
    [| apply nth_error_None in Eu; lia].
  unfold specSigHash, writeUInt16LE, writeUInt64LE, writeUInt8, writeVarBytes.
  rewrite Ei, Eu. cbn [defined].
  intros H.
  repeat match type of H with
  | bind ?r _ = Err _ =>
      let E := fresh "E" in
      destruct r eqn:E; cbn [bind] in H;
      [| injection H as <-;
         first [ exact (writeUIntLE_RangeError _ _ _ _ E)
               | exact (hashOutpoint_Err _ _ _ E)
               | exact (specPreviousOutputsHash_Err _ _ _ E)
               | exact (specSequencesHash_Err _ _ _ E)
               | exact (specSigOpCountsHash_Err _ _ _ E)
               | exact (specOutputsHash_Err _ _ _ _ E)
               | discriminate ] ]
  end.
  discriminate.
Qed.


(** *** The signing loop runs to its end *)

Lemma eraseTx_setSignatureScript t i script :
  eraseTx (withInputs t (setSignatureScript (txInputs t) i script)) = eraseTx t.
Proof.
  unfold eraseTx, withInputs. simpl. rewrite setSignatureScript_erase. reflexivity.
Qed.

Lemma signInput_spec key t0 t i cache :
  eraseTx t = eraseTx t0 -> consistent t0 cache ->
  fst (signInput key t i cache)
  = bind (specSigHash t0 SIGHASH_ALL i)
      (fun sigHash =>
         Ok (withInputs t (setSignatureScript (txInputs t) i
                             (signatureScriptOf (schnorrSign (auxRand i) sigHash key)))))
  /\ consistent t0 (snd (signInput key t i cache)).
Proof.
  intros E Hc. unfold signInput.
  assert (Hc' : consistent t cache) by (apply (consistent_sameBody t0 t); auto).
  destruct (calculateSigHash_spec t SIGHASH_ALL i cache Hc') as [Es Cs].
  rewrite (specSigHash_sameBody t t0) in Es by exact E.
  apply (consistent_sameBody t t0) in Cs; [| exact E].
  destruct (calculateSigHash t SIGHASH_ALL i cache) as [[sigHash | e] c1];
    cbn [fst snd] in *; rewrite <- Es; cbn [bind]; auto.
Qed.

Lemma signLoop_total key t0 indices : forall t cache,
  eraseTx t = eraseTx t0 -> consistent t0 cache ->
  (forall i, In i indices -> exists h, specSigHash t0 SIGHASH_ALL i = Ok h) ->
  exists t' cache', signLoop key indices t cache = (Ok t', cache').
Proof.
  induction indices as [| i rest IH]; intros t cache E Hc Hall; cbn [signLoop].
  - eauto.
  - destruct (signInput_spec key t0 t i cache E Hc) as [Hs Cs].
    destruct (Hall i (or_introl eq_refl)) as [h Hh]. rewrite Hh in Hs. cbn [bind] in Hs.
    destruct (signInput key t i cache) as [[t1 | e] c1] eqn:Es; cbn [fst snd] in *;
      [| discriminate].
    injection Hs as ->.
    apply IH; auto.
    + rewrite eraseTx_setSignatureScript. exact E.
    + intros j Hj. apply Hall. right. exact Hj.
Qed.

Lemma signLoop_Err key t0 indices : forall t cache e cache',
  eraseTx t = eraseTx t0 -> consistent t0 cache ->
  signLoop key indices t cache = (Err e, cache') ->
  exists i, In i indices /\ specSigHash t0 SIGHASH_ALL i = Err e.
Proof.
  induction indices as [| i rest IH]; intros t cache e cache' E Hc H; cbn [signLoop] in H.
  - discriminate.
  - destruct (signInput_spec key t0 t i cache E Hc) as [Hs Cs].
    destruct (signInput key t i cache) as [[t1 | e1] c1] eqn:Es; cbn [fst snd] in *.
    + destruct (specSigHash t0 SIGHASH_ALL i) as [h |] eqn:Hh; cbn [bind] in Hs;
        [| discriminate].
      injection Hs as ->.
      destruct (IH _ _ _ _ ltac:(rewrite eraseTx_setSignatureScript; exact E) Cs H)
        as (j & Hj & Ej).
      exists j. split; [right; exact Hj | exact Ej].
    + injection H as <- _.
      destruct (specSigHash t0 SIGHASH_ALL i) as [h |] eqn:Hh; cbn [bind] in Hs;
        [discriminate |].
      exists i. split; [left; reflexivity | congruence].
Qed.

(** *** The unsigned transaction *)

Lemma buildUnsigned_header params t :
  buildUnsigned params = Ok t ->
  txVersion t = 0 /\ lockTime t = 0 /\ subnetworkId t = DEFAULT_SUBNETWORK_ID
  /\ List.length (utxos t) = List.length (inputs params).
Proof.
  unfold buildUnsigned, toSafeBigInt. intros H.
  destruct (isValidPrivateKey (privateKey params)); cbn [negb] in H; [| discriminate].
  destruct (Nat.eqb (List.length (inputs params)) 0); [discriminate |].
  destruct (Nat.eqb (List.length (outputs params)) 0); [discriminate |].
  destruct (fee params <? 0); [discriminate |].
  apply bind_Ok_inv in H. destruct H as ([t1 totalInput] & H1 & H).
  apply bind_Ok_inv in H. destruct H as ([t2 totalOutput] & H2 & H).
  apply inputLoop_inv in H1. destruct H1 as (_ & _ & V1 & L1 & S1 & _ & us & Hu1 & Hus).
  apply outputLoop_inv in H2. destruct H2 as (_ & _ & Hu2 & V2 & L2 & S2 & _).
  cbn [txVersion lockTime subnetworkId utxos] in V1, L1, S1, Hu1.
  assert (Hlen : List.length (utxos t2) = List.length (inputs params)).
  { rewrite Hu2, Hu1. cbn [app]. symmetry. eapply Forall2_length. exact Hus. }
  destruct (totalInput - totalOutput - fee params <? 0); [discriminate |].
  destruct (_ <=? _).
  - apply bind_Ok_inv in H. destruct H as (script & _ & H). injection H as <-.
    cbn [pushOutput txVersion lockTime subnetworkId utxos].
    repeat split; congruence.
  - injection H as <-. repeat split; congruence.
Qed.

Lemma Forall2_nth_error {A B : Type} (R : A -> B -> Prop) l1 l2 :
  Forall2 R l1 l2 -> forall i x, nth_error l1 i = Some x ->
  exists y, nth_error l2 i = Some y /\ R x y.
Proof.
  induction 1 as [| a b l1 l2 Hab _ IH]; intros i x Hx.
  - destruct i; discriminate.
  - destruct i as [| i]; cbn [nth_error] in *.
    + injection Hx as <-. eauto.
    + apply IH, Hx.
Qed.


Lemma buildUnsigned_total params :
  isValidPrivateKey (privateKey params) = true ->
  inputs params <> [] -> outputs params <> [] -> 0 <= fee params ->
  Forall (fun i => resolves (addressPrefixes params) (inAddress i)) (inputs params) ->
  Forall (fun o => 0 < toAmount o /\ resolves (addressPrefixes params) (toAddress o))
         (outputs params) ->
  0 <= inputTotal params - requestedTotal params - fee params ->
  (dustOf params <= inputTotal params - requestedTotal params - fee params ->
   resolves (addressPrefixes params) (changeAddress params)) ->
  exists t, buildUnsigned params = Ok t.
Proof.
  intros Hk Hi Ho Hf Hri Hro Hc Hch.
  unfold buildUnsigned, toSafeBigInt.
  rewrite Hk. cbn [negb].
  destruct (inputs params) as [| i0 ins] eqn:Ei; [congruence |].
  destruct (outputs params) as [| o0 outs] eqn:Eo; [congruence |].
  cbn [List.length Nat.eqb].
  pose proof Hf as Hf'. apply Z.ltb_ge in Hf'. rewrite Hf'.
  destruct (inputLoop_total (addressPrefixes params) (i0 :: ins)
              (mkTx 0 [] [] 0 DEFAULT_SUBNETWORK_ID []) 0 Hri) as [t1 Ht1].
  rewrite Ht1. cbn [bind].
  destruct (outputLoop_total (addressPrefixes params) (o0 :: outs) t1 0 Hro) as [t2 Ht2].
  rewrite Ht2. cbn [bind].
  unfold inputTotal, requestedTotal, dustOf in Hc, Hch. rewrite Ei, Eo in Hc, Hch.
  rewrite !Z.add_0_l.
  apply Z.ltb_ge in Hc. rewrite Hc.
  destruct (Z.leb_spec (match dustThreshold params with Some d => d | None => 546 end)
              (sumZ (map inAmount (i0 :: ins)) - sumZ (map toAmount (o0 :: outs))
               - fee params)) as [Hd | Hd].
  - destruct (Hch Hd) as [script Hs]. rewrite Hs. cbn [bind]. eauto.
  - eauto.
Qed.

(** The signature hashes of the unsigned transaction are defined when the
    amounts and output indices of the request are in range. *)
Lemma unsigned_sighash_defined params t :
  buildUnsigned params = Ok t ->
  Forall (fun i => 0 <= inAmount i < 2 ^ 64 /\ 0 <= vOut i < 2 ^ 32) (inputs params) ->
  Forall (fun o => toAmount o < 2 ^ 64) (outputs params) ->
  (dustOf params <= inputTotal params - requestedTotal params - fee params ->
   inputTotal params - requestedTotal params - fee params < 2 ^ 64) ->
  forall i, (i < List.length (txInputs t))%nat ->
    exists h, specSigHash t SIGHASH_ALL i = Ok h.
Proof.
  intros Hu Hin Hout Hch i Hi.
  destruct (buildUnsigned_header _ _ Hu) as (Hv & Hl & _ & _).
  apply buildUnsigned_inv in Hu. cbv zeta in Hu.
  destruct Hu as (_ & _ & _ & _ & Hc & Hti & Hus & Hpos & os & Hos & Hto).
  assert (Hx : exists x, nth_error (inputs params) i = Some x).
  { destruct (nth_error (inputs params) i) as [x |] eqn:Ex; [eauto |].
    apply nth_error_None in Ex. rewrite Hti, length_map in Hi. lia. }
  destruct Hx as [x Ex].
  destruct (Forall2_nth_error _ _ _ Hus i x Ex) as (u & Eu & _ & Hua).
  assert (Hxr : 0 <= inAmount x < 2 ^ 64 /\ 0 <= vOut x < 2 ^ 32).
  { rewrite Forall_forall in Hin. apply Hin. eapply nth_error_In. exact Ex. }
  assert (Hos' : Forall (fun o => 0 <= outAmount o < 2 ^ 64
                                  /\ 0 <= spkVersion (outScriptPublicKey o) < 2 ^ 16) os).
  { clear - Hos Hpos Hout. induction Hos as [| o out outs os (script & _ & ->) _ IH].
    - constructor.
    - inversion Hpos; inversion Hout; subst.
      constructor; [cbn [outAmount outScriptPublicKey spkVersion]; lia | auto]. }
  apply (specSigHash_ALL_Ok t i (unsignedInput x) u).
  - rewrite Hv. lia.
  - rewrite Hti. apply Forall_map. eapply Forall_impl; [| exact Hin].
    intros a [_ Ha]. cbn [unsignedInput index sequence]. lia.
  - destruct Hto as [(Hd & script & _ & ->) | (_ & ->)]; [| exact Hos'].
    apply Forall_app. split; [exact Hos' |].
    constructor; [| constructor].
    cbn [outAmount outScriptPublicKey spkVersion]. specialize (Hch Hd). lia.
  - rewrite Hl. lia.
  - rewrite Hti, nth_error_map, Ex. reflexivity.
  - exact Eu.
  - rewrite Hua. apply Hxr.
Qed.

(** A signed transaction has passed every integer write of the signature
    hash: the amounts and output indices are in the range of their fields. *)
Lemma unsigned_sighash_ranges params t :
  buildUnsigned params = Ok t ->
  (forall i, (i < List.length (txInputs t))%nat ->
     exists h, specSigHash t SIGHASH_ALL i = Ok h) ->
  Forall (fun i => 0 <= inAmount i < 2 ^ 64 /\ 0 <= vOut i < 2 ^ 32) (inputs params)
  /\ Forall (fun o => toAmount o < 2 ^ 64) (outputs params)
  /\ (dustOf params <= inputTotal params - requestedTotal params - fee params ->
      inputTotal params - requestedTotal params - fee params < 2 ^ 64).
Proof.
  intros Hu Hall.
  apply buildUnsigned_inv in Hu. cbv zeta in Hu.
  destruct Hu as (_ & Hne & _ & _ & Hc & Hti & Hus & Hpos & os & Hos & Hto).
  assert (Hlen : List.length (txInputs t) = List.length (inputs params))
    by (rewrite Hti; apply length_map).
  assert (H0 : Forall (fun x => 0 <= index x < 2 ^ 32) (txInputs t)
               /\ Forall (fun o => 0 <= outAmount o < 2 ^ 64) (txOutputs t)).
  { destruct (Hall 0%nat) as [h Hh].
    - rewrite Hlen. destruct (inputs params); [congruence | simpl; lia].
    - apply specSigHash_ALL_inv in Hh. destruct Hh as (H1 & H2 & _). auto. }
  destruct H0 as [Hidx Hamt].
  split; [| split].
  - apply Forall_forall. intros x Hx.
    apply In_nth_error in Hx. destruct Hx as [i Ex].
    assert (Hi : (i < List.length (txInputs t))%nat)
      by (rewrite Hlen; apply nth_error_Some; congruence).
    destruct (Hall i Hi) as [h Hh].
    apply specSigHash_ALL_inv in Hh. destruct Hh as (_ & _ & input & u & Ei & Eu & Ha).
    destruct (Forall2_nth_error _ _ _ Hus i x Ex) as (u' & Eu' & _ & Hua).
    assert (u' = u) by congruence. subst u'.
    split; [rewrite <- Hua; exact Ha |].
    rewrite Hti in Hidx. rewrite Forall_map, Forall_forall in Hidx.
    apply (Hidx x). eapply nth_error_In. exact Ex.
  - assert (Hos' : Forall (fun o => 0 <= outAmount o < 2 ^ 64) os).
    { destruct Hto as [(_ & script & _ & E) | (_ & E)]; rewrite E in Hamt.
      - apply Forall_app in Hamt. apply Hamt.
      - exact Hamt. }
    clear - Hos Hos'. induction Hos as [| o out outs os (script & _ & ->) _ IH].
    + constructor.
    + inversion Hos'; subst. constructor; [cbn [outAmount] in *; lia | auto].
  - intros Hd. destruct Hto as [(_ & script & _ & E) | (Hlt & _)]; [| lia].
    rewrite E in Hamt. apply Forall_app in Hamt. destruct Hamt as [_ Hamt].
    inversion Hamt; subst. cbn [outAmount] in *. lia.
Qed.


(** *** The errors of the construction *)

Lemma isAddressError_build e : isAddressError e = true -> isBuildError e = true.
Proof. intros H. unfold isBuildError. rewrite H. reflexivity. Qed.

Lemma inputLoop_errors prefixes ins : forall t total e,
  inputLoop prefixes ins t total = Err e -> isAddressError e = true.
Proof.
  induction ins as [| i ins IH]; intros t total e H; cbn [inputLoop] in H; [discriminate |].
  destruct (Address.addressToScriptPublicKey (inAddress i) prefixes) as [script | e1] eqn:E;
    cbn [bind] in H.
  - exact (IH _ _ _ H).
  - injection H as <-. exact (addressToScriptPublicKey_errors _ _ _ E).
Qed.

Lemma outputLoop_errors prefixes outs : forall t total e,
  outputLoop prefixes outs t total = Err e ->
  e = NonPositiveOutputAmount \/ isAddressError e = true.
Proof.
  induction outs as [| o outs IH]; intros t total e H; cbn [outputLoop] in H;
    [discriminate |].
  destruct (toSafeBigInt (toAmount o) <=? 0); [injection H as <-; left; reflexivity |].
  destruct (Address.addressToScriptPublicKey (toAddress o) prefixes) as [script | e1] eqn:E;
    cbn [bind] in H.
  - exact (IH _ _ _ H).
  - injection H as <-. right. exact (addressToScriptPublicKey_errors _ _ _ E).
Qed.

Lemma buildUnsigned_errors params e :
  buildUnsigned params = Err e -> isBuildError e = true /\ e <> RangeError.
Proof.
  unfold buildUnsigned. intros H.
  destruct (isValidPrivateKey (privateKey params)); cbn [negb] in H;
    [| injection H as <-; split; [reflexivity | discriminate]].
  destruct (Nat.eqb (List.length (inputs params)) 0);
    [injection H as <-; split; [reflexivity | discriminate] |].
  destruct (Nat.eqb (List.length (outputs params)) 0);
    [injection H as <-; split; [reflexivity | discriminate] |].
  destruct (toSafeBigInt (fee params) <? 0);
    [injection H as <-; split; [reflexivity | discriminate] |].
  destruct (inputLoop _ _ _ _) as [[t1 totalInput] | e1] eqn:E1; cbn [bind] in H.
  2:{ injection H as <-. apply inputLoop_errors in E1.
      split; [apply isAddressError_build, E1 | intros ->; discriminate]. }
  destruct (outputLoop _ _ _ _) as [[t2 totalOutput] | e2] eqn:E2; cbn [bind] in H.
  2:{ injection H as <-. apply outputLoop_errors in E2.
      destruct E2 as [-> | E2]; [split; [reflexivity | discriminate] |].
      split; [apply isAddressError_build, E2 | intros ->; discriminate]. }
  destruct (_ <? 0); [injection H as <-; split; [reflexivity | discriminate] |].
  destruct (_ <=? _); [| discriminate].
  destruct (Address.addressToScriptPublicKey _ _) as [script | e3] eqn:E3; cbn [bind] in H;
    [discriminate |].
  injection H as <-. apply addressToScriptPublicKey_errors in E3.
  split; [apply isAddressError_build, E3 | intros ->; discriminate].
Qed.

Lemma buildSigned_errors params e :
  buildSignedTransaction params = Err e ->
  (buildUnsigned params = Err e /\ e <> RangeError)
  \/ (e = RangeError /\ exists t, buildUnsigned params = Ok t).
Proof.
  unfold buildSignedTransaction. intros H.
  destruct (buildUnsigned params) as [t | e1] eqn:Hu; cbn [bind] in H.
  - right.
    destruct (signLoop _ _ t emptyCache) as [[t' | e2] cache] eqn:Hs; cbn [fst bind] in H;
      [discriminate |].
    injection H as <-.
    apply (signLoop_Err _ t) in Hs; [| reflexivity | apply consistent_empty].
    destruct Hs as (i & Hi & Hs). apply in_seq in Hi.
    destruct (buildUnsigned_header _ _ Hu) as (_ & _ & _ & Hlen).
    pose proof Hu as Hu'. apply buildUnsigned_inv in Hu'. cbv zeta in Hu'.
    destruct Hu' as (_ & _ & _ & _ & _ & Hti & _).
    assert (Hl : List.length (txInputs t) = List.length (inputs params))
      by (rewrite Hti; apply length_map).
    split; [| eauto].
    apply (specSigHash_Err t SIGHASH_ALL i); [lia | lia | exact Hs].
  - left. injection H as <-. split; [reflexivity |].
    apply (buildUnsigned_errors _ _ Hu).
Qed.


Lemma inputLoop_first_error prefixes pre bad post e : forall t total,
  Forall (fun i => resolves prefixes (inAddress i)) pre ->
  Address.addressToScriptPublicKey (inAddress bad) prefixes = Err e ->
  inputLoop prefixes (pre ++ bad :: post) t total = Err e.
Proof.
  induction pre as [| i pre IH]; intros t total Hpre Hbad; cbn [app inputLoop].
  - rewrite Hbad. reflexivity.
  - inversion Hpre as [| ? ? [script Hs] Hpre']; subst.
    rewrite Hs. cbn [bind]. apply IH; assumption.
Qed.

(** The signature hash through the cache, from the empty cache. *)
Lemma calculateSigHash_empty t hashType i :
  fst (calculateSigHash t hashType i emptyCache) = specSigHash t hashType i.
Proof. apply calculateSigHash_spec, consistent_empty. Qed.


(** *** The requests that are answered with a payload *)

Lemma buildSigned_signable params payload :
  buildSignedTransaction params = Ok payload -> signable params.
Proof.
  unfold signable. intros H.
  apply buildSigned_inv in H. destruct H as (t & t' & cache & Hu & Hs & _).
  apply signAll_inv in Hs. destruct Hs as (_ & _ & Hin).
  assert (Hall : forall i, (i < List.length (txInputs t))%nat ->
                   exists h, specSigHash t SIGHASH_ALL i = Ok h).
  { intros i Hi.
    destruct (nth_error (txInputs t) i) as [x |] eqn:Ex;
      [| apply nth_error_None in Ex; lia].
    destruct (Hin i x Ex) as (h & Hh & _). eauto. }
  destruct (unsigned_sighash_ranges _ _ Hu Hall) as (Hri & Hro & Hrc).
  apply buildUnsigned_inv in Hu. cbv zeta in Hu.
  destruct Hu as (Hk & Hi & Ho & Hf & Hc & _ & Hus & Hpos & os & Hos & Hto).
  split; [exact Hk |]. split; [exact Hi |]. split; [exact Ho |]. split; [exact Hf |].
  split; [| split; [| split; [exact Hc |]]].
  - clear - Hus Hri. induction Hus as [| x u ins us [Hx _] _ IH].
    + constructor.
    + inversion Hri; subst. constructor; [| auto].
      split; [eexists; exact Hx | assumption].
  - clear - Hos Hpos Hro. induction Hos as [| o out outs os (script & Hs & _) _ IH].
    + constructor.
    + inversion Hpos; inversion Hro; subst. constructor; [| auto].
      split; [eexists; exact Hs | lia].
  - intros Hd. split; [| exact (Hrc Hd)].
    destruct Hto as [(_ & script & Hs & _) | (Hlt & _)]; [eexists; exact Hs | lia].
Qed.

Lemma signable_buildSigned params :
  signable params -> exists payload, buildSignedTransaction params = Ok payload.
Proof.
  unfold signable.
  intros (Hk & Hi & Ho & Hf & Hin & Hout & Hc & Hch).
  destruct (buildUnsigned_total params Hk Hi Ho Hf) as [t Hu]; auto.
  { eapply Forall_impl; [| exact Hin]. intros a Ha. apply Ha. }
  { eapply Forall_impl; [| exact Hout].
    intros a [Hr [Ha0 Ha1]]. split; [exact Ha0 | exact Hr]. }
  { intros Hd. apply (Hch Hd). }
  assert (Hall : forall i, In i (seq 0 (List.length (txInputs t))) ->
                   exists h, specSigHash t SIGHASH_ALL i = Ok h).
  { intros i Hi'. apply in_seq in Hi'.
    apply (unsigned_sighash_defined params t Hu); [| | | lia].
    - eapply Forall_impl; [| exact Hin]. intros a Ha. split; apply Ha.
    - eapply Forall_impl; [| exact Hout]. intros a [_ [_ Ha]]. exact Ha.
    - intros Hd. apply (Hch Hd). }
  destruct (signLoop_total (privateKey params) t _ t emptyCache eq_refl
              (consistent_empty t) Hall) as (t' & cache' & Hs).
  exists (toPayload t'). unfold buildSignedTransaction.
  rewrite Hu. cbn [bind]. rewrite Hs. reflexivity.
Qed.




(** The inputs of a payload are the requested ones, in their order, with
    sequence 0 and one signature operation each. *)
Lemma buildSigned_inputs params payload :
  buildSignedTransaction params = Ok payload ->
  map eraseScript (payloadInputs payload) = map unsignedInput (inputs params).
Proof.
  intros H.
  apply buildSigned_inv in H. destruct H as (t & t' & cache & Hu & Hs & ->).
  apply (signLoop_inv _ t) in Hs; [| apply seq_NoDup | reflexivity | apply consistent_empty].
  destruct Hs as (E & _).
  apply buildUnsigned_inv in Hu. cbv zeta in Hu.
  destruct Hu as (_ & _ & _ & _ & _ & Hti & _).
  assert (Ei : map eraseScript (txInputs t') = map eraseScript (txInputs t))
    by (change (txInputs (eraseTx t') = txInputs (eraseTx t)); rewrite E; reflexivity).
  unfold toPayload. cbn [payloadInputs]. rewrite Ei, Hti, map_map.
  apply map_ext. intros x. reflexivity.
Qed.

(** An integer write appends the bytes of the value, least significant
    first, and fails outside the range of the field. *)
Lemma writeUIntLE_roundtrip bytes w value :
  (0 <= value < 2 ^ (8 * Z.of_nat bytes) ->
   exists written,
     writeUIntLE bytes w value = Ok (w ++ written)
     /\ List.length written = bytes
     /\ Forall isByte written
     /\ leValue written = value)
  /\ (~ 0 <= value < 2 ^ (8 * Z.of_nat bytes) ->
      writeUIntLE bytes w value = Err RangeError).
Proof.
  split.
  - intros Hr. exists (leBytes bytes value).
    destruct (leBytes_spec bytes value) as (Hl & Hb & Hv).
    split; [apply writeUIntLE_Ok, Hr |]. split; [exact Hl |]. split; [exact Hb |].
    rewrite Hv. apply Z.mod_small, Hr.
  - intros Hn. destruct (writeUIntLE bytes w value) as [w' | e] eqn:E.
    + apply writeUIntLE_inv in E. tauto.
    + apply writeUIntLE_Err in E. destruct E as [-> _]. reflexivity.
Qed.

(** *** The hex encoding of the wallet *)

Lemma byteHex b :
  0 <= b < 256 ->
  Wallet.padStart2 (Wallet.toString16 b)
  = String (hexDigit (b / 16)) (String (hexDigit (b mod 16)) EmptyString).
Proof.
  intros Hb. unfold Wallet.toString16.
  destruct (Z.ltb_spec b 16) as [Hlt | Hge].
  - rewrite Z.div_small, Z.mod_small by lia. reflexivity.
  - reflexivity.
Qed.

Lemma concat_cons (x : string) l :
  String.concat EmptyString (x :: l) = (x ++ String.concat EmptyString l)%string.
Proof.
  destruct l as [| y l]; cbn [String.concat]; [| reflexivity].
  induction x as [| c x IH]; cbn [append]; [reflexivity | rewrite <- IH; reflexivity].
Qed.

(** The hex encoding of [src/lib/wallet.ts] is that of the signing engine. *)
Lemma uint8ArrayToHex_bytesToHex arr :
  Wallet.uint8ArrayToHex arr = bytesToHex arr.
Proof.
  unfold Wallet.uint8ArrayToHex.
  induction arr as [| b arr IH]; [reflexivity |].
  cbn [map bytesToHex]. rewrite concat_cons, IH.
  rewrite byteHex by apply u8_isByte. reflexivity.
Qed.

End MoreEngineFacts.

(** * Properties of the coin selection *)

Section SelectionFacts.
Import WalletStore.

(** *** Descending order *)









(** *** The selection loop *)







End SelectionFacts.

(** * The address codec: conversions, checksum and scripts *)

(** X1: on bytes, [convertBits] from 8 to 5 bits without strict mode does
    not fail; it returns ceil(8n/5) symbols for n bytes, each below 32, and
    converting these symbols back from 5 to 8 bits in strict mode returns
    the bytes. *)
Theorem convertBits_roundtrip data :
  Forall JS.isByte data ->
  exists symbols,
    convertBits data 8 5 false = Ok symbols
    /\ Z.of_nat (List.length symbols) = (8 * Z.of_nat (List.length data) + 4) / 5
    /\ Forall (fun x => 0 <= x < 32) symbols
    /\ convertBits symbols 5 8 true = Ok data.
Proof.
  intros Hd.
  destruct (convertBits_loose data Hd) as (symbols & Hc & Hdig & Hpad & Hval).
  exists symbols. split; [exact Hc |].
  split.
  - set (n := Z.of_nat (List.length data)) in *.
    set (m := Z.of_nat (List.length symbols)) in *.
    apply Z.div_unique with (r := 8 * n + 4 - 5 * m); lia.
  - split; [exact Hdig |].
    apply convertBits_strict; assumption.
Qed.

Lemma convertBits_roundtrip_witness :
  exists symbols,
    convertBits [255; 0; 171] 8 5 false = Ok symbols
    /\ Z.of_nat (List.length symbols) = (8 * Z.of_nat (List.length [255; 0; 171]) + 4) / 5
    /\ Forall (fun x => 0 <= x < 32) symbols
    /\ convertBits symbols 5 8 true = Ok [255; 0; 171].
Proof.
  apply (convertBits_roundtrip [255; 0; 171]).
  repeat constructor; unfold JS.isByte; lia.
Defined.

(** X2: the strict conversion of 5-bit symbols to bytes succeeds exactly
    when the bits left over after the last whole byte are fewer than 5 and
    all zero; the bytes are then the leading bits of the symbols. In every
    other case it fails with [InvalidPadding], and it never fails with
    [InvalidValue] on symbols below 32. *)
Theorem convertBits_strict_padding symbols :
  Forall (fun x => 0 <= x < 32) symbols ->
  let spare := (5 * Z.of_nat (List.length symbols)) mod 8 in
  let value := digitsValue 5 symbols in
  (exists bytes,
     convertBits symbols 5 8 true = Ok bytes
     /\ spare < 5
     /\ Z.of_nat (List.length bytes) = (5 * Z.of_nat (List.length symbols)) / 8
     /\ value = digitsValue 8 bytes * 2 ^ spare)
  \/ (convertBits symbols 5 8 true = Err InvalidPadding
      /\ (5 <= spare \/ value mod 2 ^ spare <> 0)).
Proof.
  intros Hsym spare value.
  destruct (convertBits_strict_cases symbols Hsym) as [Hyes Hno].
  fold spare value in Hyes, Hno.
  destruct (Z.ltb_spec spare 5) as [Hlt | Hge].
  - destruct (Z.eq_dec (value mod 2 ^ spare) 0) as [Hz | Hnz].
    + left. destruct (Hyes (conj Hlt Hz)) as (bytes & Hc & _ & Hl & Hv).
      exists bytes. split; [exact Hc |]. split; [exact Hlt |]. split; [exact Hl |].
      rewrite Hv.
      pose proof (Z.mod_pos_bound (5 * Z.of_nat (List.length symbols)) 8 ltac:(lia)) as Hs.
      fold spare in Hs.
      pose proof (Z.div_mod value (2 ^ spare) ltac:(apply Z.pow_nonzero; lia)). lia.
    + right. split; [apply Hno; tauto | right; exact Hnz].
  - right. split; [apply Hno; lia | left; exact Hge].
Qed.

Lemma convertBits_strict_padding_witness :
  let symbols := [31; 31] in
  let spare := (5 * Z.of_nat (List.length symbols)) mod 8 in
  let value := digitsValue 5 symbols in
  (exists bytes,
     convertBits symbols 5 8 true = Ok bytes
     /\ spare < 5
     /\ Z.of_nat (List.length bytes) = (5 * Z.of_nat (List.length symbols)) / 8
     /\ value = digitsValue 8 bytes * 2 ^ spare)
  \/ (convertBits symbols 5 8 true = Err InvalidPadding
      /\ (5 <= spare \/ value mod 2 ^ spare <> 0)).
Proof.
  apply (convertBits_strict_padding [31; 31]).
  repeat constructor; lia.
Defined.

(** X3: [base32Decode] and [base32Encode] are inverse on what
    [base32Decode] accepts: the decoded symbols are below 32, one per
    character, and encode back to the same string. [base32Decode] fails only
    with [InvalidCharacter]. *)
Theorem base32_decode_encode s :
  (forall symbols,
     base32Decode s = Ok symbols ->
     base32Encode symbols = Ok s
     /\ List.length symbols = String.length s
     /\ Forall (fun x => 0 <= x < 32) symbols)
  /\ (forall e, base32Decode s = Err e -> e = InvalidCharacter).
Proof.
  split.
  - intros symbols H. destruct (base32Decode_sound s symbols H) as (Hd & He & Hl & _).
    split; [exact He |]. split; [exact Hl | exact Hd].
  - intros e H. exact (base32Decode_error s e H).
Qed.

(** X4: for a prefix and payload symbols, exactly one sequence of eight
    symbols passes [hasValidChecksum] after them: the checksum that
    [encodeKaspaAddress] computes and appends. *)
Theorem checksum_unique prefix payloadData cs :
  Forall (fun x => 0 <= x < 32) payloadData ->
  Forall (fun x => 0 <= x < 32) cs ->
  List.length cs = 8%nat ->
  hasValidChecksum prefix (payloadData ++ cs) = true
  <-> cs = checksumToArray
             (polymod (JS.uint8ArrayOf (prefixToArray prefix ++ [0]) ++ payloadData
                       ++ JS.newUint8Array 8)).
Proof.
  intros Hp Hcs Hl. apply hasValidChecksum_iff; assumption.
Qed.

Lemma checksum_unique_witness :
  hasValidChecksum "a" ([0; 0] ++ [25; 0; 26; 5; 28; 12; 3; 23]) = true
  <-> [25; 0; 26; 5; 28; 12; 3; 23]
      = checksumToArray
          (polymod (JS.uint8ArrayOf (prefixToArray "a" ++ [0]) ++ [0; 0]
                    ++ JS.newUint8Array 8)).
Proof.
  apply (checksum_unique "a" [0; 0] [25; 0; 26; 5; 28; 12; 3; 23]).
  - repeat constructor; lia.
  - repeat constructor; lia.
  - reflexivity.
Defined.

(** X5: a single wrong symbol is detected. If a lower-case address is
    accepted by [decodeKaspaAddress], the address obtained by replacing one
    character after the separator by another character of the alphabet is
    rejected with [InvalidChecksum]. *)
Theorem decode_detects_substitution p e1 c1 c2 e2 allowed d :
  let address1 := (p ++ String Str.colon (e1 ++ String c1 e2))%string in
  let address2 := (p ++ String Str.colon (e1 ++ String c2 e2))%string in
  Str.isAscii address1 = true ->
  Str.toLowerCase address1 = address1 ->
  decodeKaspaAddress address1 allowed = Ok d ->
  inverseIndex CHARSET_INVERSE_INDEX c2 <> None ->
  c2 <> c1 ->
  decodeKaspaAddress address2 allowed = Err InvalidChecksum.
Proof.
  intros address1 address2 _ Hlow Hd Hc2 Hne.
  destruct (decodeKaspaAddress_shape _ _ _ Hd)
    as (e & syms & _ & Ea & Hcp & Hlp & Hin & Hdec & Hcs & _).
  rewrite Hlow in Ea.
  assert (Hce : Str.colons e = 0%nat) by (eapply base32Decode_sound; exact Hdec).
  assert (Hcount : Str.colons address1 = 1%nat).
  { rewrite Ea, colons_append. cbn [Str.colons]. rewrite Hcp, Hce. reflexivity. }
  unfold address1 in Hcount. rewrite colons_append in Hcount. cbn [Str.colons] in Hcount.
  change (Ascii.eqb Str.colon Str.colon) with true in Hcount. cbv iota in Hcount.
  assert (Hsplit : Str.split address1 = [p; (e1 ++ String c1 e2)%string])
    by (apply split_join; lia).
  rewrite Ea, (split_join _ _ Hcp Hce) in Hsplit.
  injection Hsplit as Ep Ee. subst e.
  rewrite Ep in *. clear Ep.
  destruct (base32Decode_app_inv _ _ _ Hdec) as (l1 & l2' & Hd1 & Hd2 & ->).
  cbn [base32Decode] in Hd2.
  destruct (inverseIndex CHARSET_INVERSE_INDEX c1) as [v1 |] eqn:Hv1; [| discriminate].
  destruct (base32Decode e2) as [l2 |] eqn:Hd2'; [| discriminate].
  cbn [bind] in Hd2. injection Hd2 as <-.
  destruct (inverseIndex CHARSET_INVERSE_INDEX c2) as [v2 |] eqn:Hv2; [| contradiction].
  assert (Hdec2 : base32Decode (e1 ++ String c2 e2) = Ok (l1 ++ JS.u8 v2 :: l2)).
  { apply base32Decode_app; [exact Hd1 |].
    cbn [base32Decode]. rewrite Hv2, Hd2'. reflexivity. }
  apply (decodeKaspaAddress_checksum p _ _ allowed Hlp Hcp Hin Hdec2).
  destruct (inverseIndex_charset _ _ Hv1) as [Hr1 _].
  destruct (inverseIndex_charset _ _ Hv2) as [Hr2 _].
  assert (Hv : v2 <> v1).
  { intros E. subst v2. apply Hne. exact (inverseIndex_inj _ _ _ Hv2 Hv1). }
  destruct (base32Decode_sound _ _ Hd1) as (Hdig1 & _).
  destruct (base32Decode_sound _ _ Hd2') as (Hdig2 & _).
  unfold hasValidChecksum in *. apply Z.eqb_eq in Hcs. apply Z.eqb_neq.
  rewrite (u8_id v1) in Hcs by (unfold JS.isByte; lia).
  rewrite (u8_id v2) by (unfold JS.isByte; lia).
  set (pre := JS.uint8ArrayOf (prefixToArray p) ++ [0] ++ l1).
  assert (E : forall v, JS.uint8ArrayOf (prefixToArray p) ++ [0] ++ l1 ++ v :: l2
                        = pre ++ v :: l2)
    by (intros v; unfold pre; rewrite <- !app_assoc; reflexivity).
  rewrite E in Hcs. rewrite E, <- Hcs.
  apply polymod_substitution; try (unfold JS.isByte; lia); try assumption.
  - apply Forall_app. split; [apply Forall_map, Forall_forall; intros; apply u8_isByte |].
    constructor; [unfold JS.isByte; lia | apply isDigit5_isByte, Hdig1].
  - apply isDigit5_isByte, Hdig2.
Qed.

Lemma decode_detects_substitution_witness :
  decodeKaspaAddress "kaspa:qp0l80zd5x85ttwd6jv7g3s3a8llzj96d8dncn4zmhv4tlzx5k2jyqh70xmfj"
    ["kaspa"%string] = Err InvalidChecksum.
Proof.
  eapply (decode_detects_substitution "kaspa" "qp0l" "7" "8"
            "0zd5x85ttwd6jv7g3s3a8llzj96d8dncn4zmhv4tlzx5k2jyqh70xmfj" ["kaspa"%string]).
  - reflexivity.
  - reflexivity.
  - vm_compute. reflexivity.
  - vm_compute. discriminate.
  - discriminate.
Defined.

(** X6: [encodeKaspaAddress] inverts [decodeKaspaAddress]. An accepted
    address is the encoding of the prefix, version and payload it decodes to,
    up to the case of its letters; hence two addresses that decode to the
    same result are equal up to case. *)
Theorem decode_encode_canonical address allowed d :
  Str.isAscii address = true ->
  decodeKaspaAddress address allowed = Ok d ->
  encodeKaspaAddress (payload d) (prefix d) (version d) = Ok (Str.toLowerCase address)
  /\ (forall address' allowed',
        Str.isAscii address' = true ->
        decodeKaspaAddress address' allowed' = Ok d ->
        Str.toLowerCase address' = Str.toLowerCase address).
Proof.
  intros _ Hd. pose proof (decode_encode _ _ _ Hd) as He.
  split; [exact He |].
  intros address' allowed' _ Hd'. apply decode_encode in Hd'. congruence.
Qed.

Lemma decode_encode_canonical_witness :
  let d := mkDecoded "kaspa" 0 (repeat 1 32) in
  encodeKaspaAddress (payload d) (prefix d) (version d)
  = Ok (Str.toLowerCase (Str.toUpperCase addressB))
  /\ (forall address' allowed',
        Str.isAscii address' = true ->
        decodeKaspaAddress address' allowed' = Ok d ->
        Str.toLowerCase address' = Str.toLowerCase (Str.toUpperCase addressB)).
Proof.
  intros d.
  apply (decode_encode_canonical (Str.toUpperCase addressB) ["KASPA"%string] d).
  - reflexivity.
  - vm_compute. reflexivity.
Defined.

(** X7: decoding does not depend on case, when one case is used
    throughout: the upper-case form of a lower-case address decodes to the
    same result, and so does the address with the allowed prefixes given in
    upper case. *)
Theorem decode_case_insensitive address allowed :
  Str.isAscii address = true ->
  Forall (fun p => Str.isAscii p = true) allowed ->
  Str.toLowerCase address = address ->
  decodeKaspaAddress (Str.toUpperCase address) allowed = decodeKaspaAddress address allowed
  /\ decodeKaspaAddress address (map Str.toUpperCase allowed)
     = decodeKaspaAddress address allowed.
Proof.
  intros _ _ Hl. split.
  - rewrite decodeKaspaAddress_lower by apply hasSingleCase_toUpperCase.
    rewrite toLowerCase_toUpperCase, Hl. reflexivity.
  - apply decodeKaspaAddress_allowed. rewrite map_map.
    apply map_ext. intros p. apply toLowerCase_toUpperCase.
Qed.

Lemma decode_case_insensitive_witness :
  decodeKaspaAddress (Str.toUpperCase addressA) ["kaspa"%string]
  = decodeKaspaAddress addressA ["kaspa"%string]
  /\ decodeKaspaAddress addressA (map Str.toUpperCase ["kaspa"%string])
     = decodeKaspaAddress addressA ["kaspa"%string].
Proof.
  apply (decode_case_insensitive addressA ["kaspa"%string]).
  - reflexivity.
  - repeat constructor.
  - reflexivity.
Defined.

(** X8: the allowed prefixes matter only through the prefix of the
    address. The prefix of a decoded address is one of the allowed prefixes
    in lower case; with another list the address decodes to the same result
    when its prefix is in the list, and fails with [UnknownPrefix] when it is
    not. *)
Theorem decode_allowed_prefixes address allowed d :
  Str.isAscii address = true ->
  decodeKaspaAddress address allowed = Ok d ->
  In (prefix d) (map Str.toLowerCase allowed)
  /\ forall allowed',
       (In (prefix d) (map Str.toLowerCase allowed') ->
        decodeKaspaAddress address allowed' = Ok d)
       /\ (~ In (prefix d) (map Str.toLowerCase allowed') ->
           decodeKaspaAddress address allowed' = Err UnknownPrefix).
Proof.
  intros _ Hd. split.
  - destruct (decodeKaspaAddress_shape _ _ _ Hd) as (e & syms & _ & _ & _ & _ & Hin & _).
    apply includes_In, Hin.
  - intros allowed'. rewrite (decodeKaspaAddress_prefixes _ _ allowed' _ Hd).
    destruct (Str.includes (map Str.toLowerCase allowed') (prefix d)) eqn:Hin.
    + split; [reflexivity |]. intros Hn. exfalso. apply Hn, includes_In, Hin.
    + split; [| reflexivity]. intros Hi. apply includes_In in Hi. congruence.
Qed.

Lemma decode_allowed_prefixes_witness :
  let d := mkDecoded "kaspa" 0 (repeat 1 32) in
  In (prefix d) (map Str.toLowerCase DEFAULT_ALLOWED_PREFIXES)
  /\ forall allowed',
       (In (prefix d) (map Str.toLowerCase allowed') ->
        decodeKaspaAddress addressB allowed' = Ok d)
       /\ (~ In (prefix d) (map Str.toLowerCase allowed') ->
           decodeKaspaAddress addressB allowed' = Err UnknownPrefix).
Proof.
  intros d.
  apply (decode_allowed_prefixes addressB DEFAULT_ALLOWED_PREFIXES d).
  - reflexivity.
  - vm_compute. reflexivity.
Defined.

(** X9: the errors of the codec. [decodeKaspaAddress] fails only with
    [MixedCase], [InvalidFormat], [UnknownPrefix], [InvalidCharacter],
    [InvalidChecksum], [InvalidPadding] or [EmptyPayload];
    [addressToScriptPublicKey] adds [UnsupportedVersion], [InvalidKeyLength]
    and [InvalidHashLength]. The error [InvalidValue] of [convertBits] and
    [base32Encode] is never raised by either. *)
Theorem address_error_taxonomy address allowed e :
  (decodeKaspaAddress address allowed = Err e -> isDecodeError e = true)
  /\ (addressToScriptPublicKey address allowed = Err e -> isAddressError e = true).
Proof.
  split; [apply decodeKaspaAddress_errors | apply addressToScriptPublicKey_errors].
Qed.

(** X10: the spend scripts of the other two kinds of address. For an
    accepted address of version 1 the script is [0x21], the 33-byte payload,
    [0xab], and a payload of another length fails with [InvalidKeyLength];
    for version 8 it is [0xaa 0x20], the 32-byte payload, [0x87], and a
    payload of another length fails with [InvalidHashLength]. Both scripts
    have 35 bytes. *)
Theorem spend_script_of_versions_1_8 address allowed d :
  decodeKaspaAddress address allowed = Ok d ->
  (version d = 1 ->
   (List.length (payload d) = 33%nat ->
    addressToScriptPublicKey address allowed = Ok ([0x21] ++ payload d ++ [0xab])
    /\ List.length ([0x21] ++ payload d ++ [0xab]) = 35%nat)
   /\ (List.length (payload d) <> 33%nat ->
       addressToScriptPublicKey address allowed = Err InvalidKeyLength))
  /\ (version d = 8 ->
      (List.length (payload d) = 32%nat ->
       addressToScriptPublicKey address allowed = Ok ([0xaa; 0x20] ++ payload d ++ [0x87])
       /\ List.length ([0xaa; 0x20] ++ payload d ++ [0x87]) = 35%nat)
      /\ (List.length (payload d) <> 32%nat ->
          addressToScriptPublicKey address allowed = Err InvalidHashLength)).
Proof.
  intros Hd. unfold addressToScriptPublicKey. rewrite Hd. cbn [bind].
  destruct (decodeKaspaAddress_bytes _ _ _ Hd) as [_ Hp].
  assert (Hid : forall a b, JS.uint8ArrayOf (a ++ payload d ++ b)
                            = JS.uint8ArrayOf a ++ payload d ++ JS.uint8ArrayOf b).
  { intros a b. unfold JS.uint8ArrayOf. rewrite !map_app.
    fold (JS.uint8ArrayOf (payload d)). rewrite (uint8ArrayOf_id _ Hp). reflexivity. }
  split; intros Hv; rewrite Hv; cbn [Z.eqb Pos.eqb]; cbv iota; split; intros Hl.
  - rewrite Hl, Hid. cbn [Nat.eqb assertValid bind].
    split; [reflexivity | rewrite !length_app, Hl; reflexivity].
  - apply Nat.eqb_neq in Hl. rewrite Hl. reflexivity.
  - rewrite Hl, Hid. cbn [Nat.eqb assertValid bind].
    split; [reflexivity | rewrite !length_app, Hl; reflexivity].
  - apply Nat.eqb_neq in Hl. rewrite Hl. reflexivity.
Qed.

Lemma spend_script_of_versions_1_8_witness :
  let d := mkDecoded "kaspatest" 8 (repeat 3 32) in
  (version d = 1 ->
   (List.length (payload d) = 33%nat ->
    addressToScriptPublicKey addressScriptHash ["kaspatest"%string]
    = Ok ([0x21] ++ payload d ++ [0xab])
    /\ List.length ([0x21] ++ payload d ++ [0xab]) = 35%nat)
   /\ (List.length (payload d) <> 33%nat ->
       addressToScriptPublicKey addressScriptHash ["kaspatest"%string]
       = Err InvalidKeyLength))
  /\ (version d = 8 ->
      (List.length (payload d) = 32%nat ->
       addressToScriptPublicKey addressScriptHash ["kaspatest"%string]
       = Ok ([0xaa; 0x20] ++ payload d ++ [0x87])
       /\ List.length ([0xaa; 0x20] ++ payload d ++ [0x87]) = 35%nat)
      /\ (List.length (payload d) <> 32%nat ->
          addressToScriptPublicKey addressScriptHash ["kaspatest"%string]
          = Err InvalidHashLength)).
Proof.
  intros d.
  apply (spend_script_of_versions_1_8 addressScriptHash ["kaspatest"%string] d).
  vm_compute. reflexivity.
Defined.

(** X11: the spend script determines the kind and the payload of the
    address. Two addresses, on any networks, with the same spend script
    decode to the same version and the same payload; a spend script has 34
    or 35 bytes. *)
Theorem spend_script_determines_key address1 allowed1 address2 allowed2 script :
  addressToScriptPublicKey address1 allowed1 = Ok script ->
  addressToScriptPublicKey address2 allowed2 = Ok script ->
  exists d1 d2,
    decodeKaspaAddress address1 allowed1 = Ok d1
    /\ decodeKaspaAddress address2 allowed2 = Ok d2
    /\ version d1 = version d2
    /\ payload d1 = payload d2
    /\ (List.length script = 34%nat \/ List.length script = 35%nat).
Proof.
  intros H1 H2.
  apply addressToScriptPublicKey_inv in H1, H2.
  destruct H1 as (d1 & Hd1 & C1), H2 as (d2 & Hd2 & C2).
  exists d1, d2. split; [exact Hd1 |]. split; [exact Hd2 |].
  assert (Hlen : forall a b (x y : list Z), List.length x = List.length y ->
                   a :: x ++ [b] = a :: y ++ [b] -> x = y).
  { intros a b x y Hl E. injection E as E. apply app_inv_tail in E. exact E. }
  destruct C1 as [(V1 & L1 & S1) | [(V1 & L1 & S1) | (V1 & L1 & S1)]];
    destruct C2 as [(V2 & L2 & S2) | [(V2 & L2 & S2) | (V2 & L2 & S2)]];
    rewrite S1 in S2; cbn [app] in S2; try discriminate S2;
    try (exfalso; apply (f_equal (@List.length Z)) in S2; cbn [List.length] in S2;
         rewrite !length_app in S2; cbn [List.length] in S2; lia).
  - split; [congruence |]. split; [eapply Hlen; [congruence | exact S2] |].
    left. rewrite S1, !length_app, L1. reflexivity.
  - split; [congruence |]. split; [eapply Hlen; [congruence | exact S2] |].
    right. rewrite S1, !length_app, L1. reflexivity.
  - split; [congruence |].
    injection S2 as S2. apply app_inv_tail in S2.
    split; [exact S2 |]. right. rewrite S1, !length_app, L1. reflexivity.
Qed.

Lemma spend_script_determines_key_witness :
  exists d1 d2,
    decodeKaspaAddress addressB ["kaspa"%string] = Ok d1
    /\ decodeKaspaAddress (Str.toUpperCase addressB) DEFAULT_ALLOWED_PREFIXES = Ok d2
    /\ version d1 = version d2
    /\ payload d1 = payload d2
    /\ (List.length ([0x20] ++ repeat 1 32 ++ [0xac]) = 34%nat
        \/ List.length ([0x20] ++ repeat 1 32 ++ [0xac]) = 35%nat).
Proof.
  apply (spend_script_determines_key addressB ["kaspa"%string]
           (Str.toUpperCase addressB) DEFAULT_ALLOWED_PREFIXES
           ([0x20] ++ repeat 1 32 ++ [0xac])).
  - vm_compute. reflexivity.
  - vm_compute. reflexivity.
Defined.

(** X12: the shape of an encoded address. For payload bytes and a version
    byte [encodeKaspaAddress] does not fail, whatever the prefix; the address
    is the prefix in lower case, [':'], and ceil(8(n+1)/5) + 8 characters of
    the alphabet for a payload of n bytes, that is 61 characters for a
    32-byte payload. *)
Theorem encoded_address_shape payload prefix version :
  Forall JS.isByte payload -> JS.isByte version ->
  exists encoded symbols,
    encodeKaspaAddress payload prefix version
    = Ok (Str.toLowerCase prefix ++ String Str.colon encoded)%string
    /\ base32Decode encoded = Ok symbols
    /\ Z.of_nat (String.length encoded)
       = (8 * (Z.of_nat (List.length payload) + 1) + 4) / 5 + 8
    /\ (List.length payload = 32%nat -> String.length encoded = 61%nat).
Proof.
  intros Hp Hv.
  destruct (encodeKaspaAddress_shape payload prefix version Hp Hv)
    as (encoded & syms & He & Hd & Hl).
  exists encoded, syms. split; [exact He |]. split; [exact Hd |]. split; [exact Hl |].
  intros H32. rewrite H32 in Hl. change ((8 * (Z.of_nat 32 + 1) + 4) / 5 + 8) with 61 in Hl.
  lia.
Qed.

Lemma encoded_address_shape_witness :
  exists encoded symbols,
    encodeKaspaAddress (repeat 1 32) "Kaspa" 0
    = Ok (Str.toLowerCase "Kaspa" ++ String Str.colon encoded)%string
    /\ base32Decode encoded = Ok symbols
    /\ Z.of_nat (String.length encoded)
       = (8 * (Z.of_nat (List.length (repeat 1 32)) + 1) + 4) / 5 + 8
    /\ (List.length (repeat 1 32) = 32%nat -> String.length encoded = 61%nat).
Proof.
  apply (encoded_address_shape (repeat 1 32) "Kaspa" 0).
  - apply repeat_bytes. unfold JS.isByte. lia.
  - unfold JS.isByte. lia.
Defined.

(** X13: from a public key to its spend script. The address that
    [publicKeyToKaspaAddress] makes of a 32-byte key decodes to version 0 and
    the key, [addressToScriptPublicKey] turns it into [0x20], the key,
    [0xac], and it has 62 characters after its prefix. *)
Theorem publicKey_address_script publicKey prefix :
  Forall JS.isByte publicKey -> List.length publicKey = 32%nat ->
  Str.isAscii prefix = true -> Str.colons prefix = 0%nat ->
  exists address,
    publicKeyToKaspaAddress publicKey prefix = Ok address
    /\ decodeKaspaAddress address [prefix]
       = Ok (mkDecoded (Str.toLowerCase prefix) 0 publicKey)
    /\ addressToScriptPublicKey address [prefix] = Ok ([0x20] ++ publicKey ++ [0xac])
    /\ String.length address = (String.length prefix + 62)%nat.
Proof.
  intros Hk Hl Ha Hc.
  assert (H0 : JS.isByte 0) by (unfold JS.isByte; lia).
  destruct (encode_decode_lowercase publicKey prefix 0 Hk H0 Ha Hc) as (address & He & Hd & _).
  exists address. unfold publicKeyToKaspaAddress.
  split; [exact He |]. split; [exact Hd |]. split.
  - unfold addressToScriptPublicKey. rewrite Hd. cbn [bind version payload Z.eqb].
    rewrite Hl. cbn [Nat.eqb assertValid bind].
    unfold JS.uint8ArrayOf. rewrite !map_app. fold (JS.uint8ArrayOf publicKey).
    rewrite (uint8ArrayOf_id _ Hk). reflexivity.
  - destruct (encodeKaspaAddress_shape publicKey prefix 0 Hk H0)
      as (encoded & syms & He' & _ & Hlen).
    rewrite He in He'. injection He' as ->.
    rewrite length_append. cbn [String.length]. unfold Str.toLowerCase.
    rewrite length_smap, Hl in *.
    change ((8 * (Z.of_nat 32 + 1) + 4) / 5 + 8) with 61 in Hlen. lia.
Qed.

Lemma publicKey_address_script_witness :
  exists address,
    publicKeyToKaspaAddress (repeat 1 32) "kaspa" = Ok address
    /\ decodeKaspaAddress address ["kaspa"%string]
       = Ok (mkDecoded (Str.toLowerCase "kaspa") 0 (repeat 1 32))
    /\ addressToScriptPublicKey address ["kaspa"%string]
       = Ok ([0x20] ++ repeat 1 32 ++ [0xac])
    /\ String.length address = (String.length "kaspa" + 62)%nat.
Proof.
  apply (publicKey_address_script (repeat 1 32) "kaspa").
  - apply repeat_bytes. unfold JS.isByte. lia.
  - reflexivity.
  - reflexivity.
  - reflexivity.
Defined.

(** * The wallet: addresses, networks and account indices *)

(** X14: the address the wallet derives for an account, the encoding of
    its public key under the prefix of the network, passes
    [isValidKaspaAddress] for this network and for no network whose prefix
    differs (up to case). *)
Theorem derived_address_valid publicKey network :
  Forall JS.isByte publicKey ->
  Str.isAscii (Wallet.prefix network) = true ->
  Str.colons (Wallet.prefix network) = 0%nat ->
  exists address,
    publicKeyToKaspaAddress publicKey (Wallet.prefix network) = Ok address
    /\ Wallet.isValidKaspaAddress address network = true
    /\ forall network',
         Str.isAscii (Wallet.prefix network') = true ->
         Str.toLowerCase (Wallet.prefix network') <> Str.toLowerCase (Wallet.prefix network) ->
         Wallet.isValidKaspaAddress address network' = false.
Proof.
  intros Hk Ha Hc.
  assert (H0 : JS.isByte 0) by (unfold JS.isByte; lia).
  destruct (encode_decode_lowercase publicKey _ 0 Hk H0 Ha Hc) as (address & He & Hd & _).
  exists address. split; [exact He |].
  assert (Hv : isKaspaAddressForNetwork address (Wallet.prefix network) = true)
    by (unfold isKaspaAddressForNetwork; rewrite Hd; reflexivity).
  split; [rewrite isValidKaspaAddress_guard; exact Hv |].
  intros network' _ Hne.
  rewrite isValidKaspaAddress_guard, (isKaspaAddressForNetwork_other _ _ _ Hv).
  apply String.eqb_neq. congruence.
Qed.

Lemma derived_address_valid_witness :
  exists address,
    publicKeyToKaspaAddress (repeat 1 32) (Wallet.prefix Wallet.mainnet) = Ok address
    /\ Wallet.isValidKaspaAddress address Wallet.mainnet = true
    /\ forall network',
         Str.isAscii (Wallet.prefix network') = true ->
         Str.toLowerCase (Wallet.prefix network')
         <> Str.toLowerCase (Wallet.prefix Wallet.mainnet) ->
         Wallet.isValidKaspaAddress address network' = false.
Proof.
  apply (derived_address_valid (repeat 1 32) Wallet.mainnet).
  - apply repeat_bytes. unfold JS.isByte. lia.
  - reflexivity.
  - reflexivity.
Defined.



(** X16: [accountIndexToBytes] returns the four bytes of the index modulo
    2^32, most significant first. Indices are told apart exactly up to 2^32:
    the index [i + 2^32] gives the bytes of [i]. *)
Theorem accountIndexToBytes_big_endian index :
  let bytes := Wallet.accountIndexToBytes index in
  List.length bytes = 4%nat
  /\ Forall JS.isByte bytes
  /\ digitsValue 8 bytes = index mod 2 ^ 32
  /\ Wallet.accountIndexToBytes (index + 2 ^ 32) = bytes
  /\ forall index',
       Wallet.accountIndexToBytes index' = bytes <-> index' mod 2 ^ 32 = index mod 2 ^ 32.
Proof.
  assert (Hv : forall i, digitsValue 8 (Wallet.accountIndexToBytes i) = i mod 2 ^ 32).
  { intros i. cbv [Wallet.accountIndexToBytes Wallet.setUint32 JS.newUint8Array repeat
                   JS.u8set Nat.add digitsValue fold_left JS.toUint32 JS.u8].
    rewrite !Z.shiftr_div_pow2 by lia.
    pose proof (Z.mod_pos_bound i (2 ^ 32) ltac:(lia)) as Hr.
    set (v := i mod 2 ^ 32) in *. clearbody v.
    change (2 ^ 8) with 256. change (2 ^ 24) with 16777216. change (2 ^ 16) with 65536.
    change (2 ^ 32) with 4294967296 in Hr.
    Z.div_mod_to_equations. lia. }
  assert (Hm : forall i j, i mod 2 ^ 32 = j mod 2 ^ 32 ->
                 Wallet.accountIndexToBytes i = Wallet.accountIndexToBytes j).
  { intros i j E. unfold Wallet.accountIndexToBytes, Wallet.setUint32, JS.toUint32.
    rewrite E. reflexivity. }
  intros bytes. split; [reflexivity |].
  split; [repeat constructor; apply u8_isByte |].
  split; [apply Hv |].
  split.
  - apply Hm. rewrite <- (Z.mul_1_l (2 ^ 32)) at 1. apply Z.mod_add. lia.
  - intros index'. split; [| apply Hm].
    intros E. rewrite <- !Hv. unfold bytes. rewrite E. reflexivity.
Qed.

(** * The signing engine: domain, errors and signature hashes *)

(** X17: the requests [buildSignedTransaction] answers. It returns a
    payload exactly for the requests described by [signable]: a valid key,
    at least one input and one output, a fee that is not negative, addresses
    that resolve, input amounts in 0 .. 2^64 - 1, output indices in
    0 .. 2^32 - 1, output amounts in 1 .. 2^64 - 1, inputs that cover the
    outputs and the fee, and, when the change reaches the dust threshold, a
    change address that resolves and a change below 2^64. *)
Theorem build_succeeds_iff {P : Primitives} params :
  (exists payload, buildSignedTransaction params = Ok payload) <-> signable params.
Proof.
  split.
  - intros [payload H]. exact (buildSigned_signable params payload H).
  - apply signable_buildSigned.
Qed.

(** X18: the errors of [buildSignedTransaction] are those of its checks,
    those of [addressToScriptPublicKey], and the [RangeError] of an integer
    write; it never fails by reading a missing input or UTXO. It fails with
    [RangeError] exactly when every check has passed and the transaction has
    been built, that is, during signing. *)
Theorem build_error_taxonomy {P : Primitives} params e :
  buildSignedTransaction params = Err e ->
  isBuildError e = true
  /\ (e = RangeError <-> exists t, buildUnsigned params = Ok t).
Proof.
  intros H. destruct (buildSigned_errors _ _ H) as [[Hu Hne] | [-> [t Hu]]].
  - split; [apply (buildUnsigned_errors _ _ Hu) |].
    split; [contradiction | intros [t Ht]; congruence].
  - split; [reflexivity |]. split; [eauto | reflexivity].
Qed.

Lemma build_error_taxonomy_witness :
  isBuildError RangeError = true
  /\ (RangeError = RangeError
      <-> exists t, @buildUnsigned samplePrimitives negativeInputRequest = Ok t).
Proof.
  apply (@build_error_taxonomy samplePrimitives negativeInputRequest RangeError).
  vm_compute. reflexivity.
Defined.

(** X19: the order of the checks. An invalid key is reported before
    anything else; then the absence of inputs, the absence of outputs and a
    negative fee, in this order; then the first input whose address does not
    resolve, with the error of its address, whatever the outputs hold. *)
Theorem validation_order {P : Primitives} params :
  (isValidPrivateKey (privateKey params) = false ->
   buildSignedTransaction params = Err InvalidPrivateKey)
  /\ (isValidPrivateKey (privateKey params) = true ->
      (inputs params = [] -> buildSignedTransaction params = Err NoInputs)
      /\ (inputs params <> [] ->
          (outputs params = [] -> buildSignedTransaction params = Err NoOutputs)
          /\ (outputs params <> [] ->
              (fee params < 0 -> buildSignedTransaction params = Err NegativeFee)
              /\ (0 <= fee params ->
                  forall pre bad post e,
                    inputs params = pre ++ bad :: post ->
                    Forall (fun i => resolves (addressPrefixes params) (inAddress i)) pre ->
                    Address.addressToScriptPublicKey (inAddress bad) (addressPrefixes params)
                    = Err e ->
                    buildSignedTransaction params = Err e)))).
Proof.
  unfold buildSignedTransaction, buildUnsigned, toSafeBigInt.
  split; [intros ->; reflexivity |].
  intros ->. cbn [negb].
  split; [intros ->; reflexivity |].
  intros Hi. destruct (inputs params) as [| i0 ins] eqn:Ei; [congruence |].
  cbn [List.length Nat.eqb].
  split; [intros ->; reflexivity |].
  intros Ho. destruct (outputs params) as [| o0 outs] eqn:Eo; [congruence |].
  cbn [List.length Nat.eqb].
  split.
  - intros Hf. apply Z.ltb_lt in Hf. rewrite Hf. reflexivity.
  - intros Hf pre bad post e Es Hpre Hbad. apply Z.ltb_ge in Hf. rewrite Hf, Es.
    rewrite (inputLoop_first_error _ pre bad post e _ _ Hpre Hbad). reflexivity.
Qed.

(** X20: the fixed fields of a payload. Every payload has version 0, lock
    time ["0"], the subnetwork id of forty zeros and [allowOrphan] unset; its
    inputs are the requested ones in their order, each with sequence 0 and
    one signature operation; every output has script version 0. *)
Theorem payload_fields {P : Primitives} params payload :
  buildSignedTransaction params = Ok payload ->
  payloadVersion payload = 0
  /\ payloadLockTime payload = "0"%string
  /\ payloadSubnetworkId payload = DEFAULT_SUBNETWORK_ID
  /\ allowOrphan payload = false
  /\ map eraseScript (payloadInputs payload) = map unsignedInput (inputs params)
  /\ Forall (fun o => spkVersion (payloadScriptPublicKey o) = 0) (payloadOutputs payload).
Proof.
  intros H. pose proof (buildSigned_inputs _ _ H) as Hin.
  apply buildSigned_inv in H. destruct H as (t & t' & cache & Hu & Hs & ->).
  destruct (buildUnsigned_header _ _ Hu) as (Hv & Hl & Hsub & _).
  apply (signLoop_inv _ t) in Hs; [| apply seq_NoDup | reflexivity | apply consistent_empty].
  destruct Hs as (E & _).
  apply buildUnsigned_inv in Hu. cbv zeta in Hu.
  destruct Hu as (_ & _ & _ & _ & _ & _ & _ & _ & os & Hos & Hto).
  assert (Ev : txVersion t' = txVersion t)
    by (change (txVersion (eraseTx t') = txVersion (eraseTx t)); rewrite E; reflexivity).
  assert (El : lockTime t' = lockTime t)
    by (change (lockTime (eraseTx t') = lockTime (eraseTx t)); rewrite E; reflexivity).
  assert (Es : subnetworkId t' = subnetworkId t)
    by (change (subnetworkId (eraseTx t') = subnetworkId (eraseTx t)); rewrite E;
        reflexivity).
  assert (Eo : txOutputs t' = txOutputs t)
    by (change (txOutputs (eraseTx t') = txOutputs (eraseTx t)); rewrite E; reflexivity).
  split; [| split; [| split; [| split; [reflexivity | split; [exact Hin |]]]]].
  - unfold toPayload. cbn [payloadVersion]. congruence.
  - unfold toPayload. cbn [payloadLockTime]. rewrite El, Hl. reflexivity.
  - unfold toPayload. cbn [payloadSubnetworkId]. congruence.
  - unfold toPayload. cbn [payloadOutputs]. rewrite Eo. apply Forall_map.
    assert (Hos' : Forall (fun o => spkVersion (outScriptPublicKey o) = 0) os).
    { clear - Hos. induction Hos as [| o out outs os (script & _ & ->) _ IH];
        constructor; [reflexivity | exact IH]. }
    destruct Hto as [(_ & script & _ & ->) | (_ & ->)]; [| exact Hos'].
    apply Forall_app. split; [exact Hos' | constructor; [reflexivity | constructor]].
Qed.

Lemma payload_fields_witness :
  payloadVersion spendPayload = 0
  /\ payloadLockTime spendPayload = "0"%string
  /\ payloadSubnetworkId spendPayload = DEFAULT_SUBNETWORK_ID
  /\ allowOrphan spendPayload = false
  /\ map eraseScript (payloadInputs spendPayload) = map unsignedInput (inputs spendRequest)
  /\ Forall (fun o => spkVersion (payloadScriptPublicKey o) = 0)
            (payloadOutputs spendPayload).
Proof.
  apply (@payload_fields samplePrimitives spendRequest spendPayload).
  vm_compute. reflexivity.
Defined.

(** X21: the amounts of the outputs of a payload. When the dust threshold
    is positive, or the change is, every output amount is the decimal form of
    an integer in 1 .. 2^64 - 1. With a threshold of 0 or less and inputs
    that equal outputs plus fee, a change output of amount ["0"] is
    emitted. *)
Theorem output_amounts_positive {P : Primitives} params payload :
  buildSignedTransaction params = Ok payload ->
  let change := inputTotal params - requestedTotal params - fee params in
  (0 < dustOf params \/ 0 < change ->
   Forall (fun o => exists a, parseBigint (amount o) = Some a /\ 0 < a < 2 ^ 64)
          (payloadOutputs payload))
  /\ (dustOf params <= 0 -> change = 0 ->
      exists os script,
        payloadOutputs payload = os ++ [mkPayloadOutput "0" (mkSpk 0 script)]).
Proof.
  intros H change.
  pose proof H as Hs. apply buildSigned_signable in Hs.
  apply buildSigned_inv in H. destruct H as (t & t' & cache & Hu & Hl & ->).
  apply signAll_inv in Hl. destruct Hl as (Eo & _).
  apply buildUnsigned_inv in Hu. cbv zeta in Hu. fold change in Hu.
  destruct Hu as (_ & _ & _ & _ & Hc & _ & _ & _ & os & Hos & Hto).
  destruct Hs as (_ & _ & _ & _ & _ & Hout & _ & Hch). fold change in Hch.
  unfold toPayload. cbn [payloadOutputs]. rewrite Eo.
  assert (Hos' : Forall (fun o => 0 < outAmount o < 2 ^ 64) os).
  { clear - Hos Hout. induction Hos as [| o out outs os (script & _ & ->) _ IH].
    - constructor.
    - inversion Hout as [| ? ? [_ Ha] Hout']; subst. constructor; [exact Ha | auto]. }
  assert (Hpay : forall l, Forall (fun o => 0 < outAmount o < 2 ^ 64) l ->
            Forall (fun o => exists a, parseBigint (amount o) = Some a /\ 0 < a < 2 ^ 64)
              (map (fun output => mkPayloadOutput (bigintToString (outAmount output))
                                    (outScriptPublicKey output)) l)).
  { intros l Hl. apply Forall_map. eapply Forall_impl; [| exact Hl].
    intros o Ho. exists (outAmount o). cbn [amount].
    split; [apply parseBigint_toString | exact Ho]. }
  split.
  - intros Hpos. apply Hpay.
    destruct Hto as [(Hd & script & _ & ->) | (_ & ->)]; [| exact Hos'].
    apply Forall_app. split; [exact Hos' |].
    constructor; [| constructor]. cbn [outAmount].
    destruct (Hch Hd) as [_ Hlt]. lia.
  - intros Hd Hz.
    destruct Hto as [(_ & script & _ & ->) | (Hlt & _)]; [| lia].
    rewrite map_app. cbn [map outAmount outScriptPublicKey]. rewrite Hz.
    eexists. eexists. reflexivity.
Qed.

Lemma output_amounts_positive_witness :
  let change := inputTotal spendRequest - requestedTotal spendRequest - fee spendRequest in
  (0 < dustOf spendRequest \/ 0 < change ->
   Forall (fun o => exists a, parseBigint (amount o) = Some a /\ 0 < a < 2 ^ 64)
          (payloadOutputs spendPayload))
  /\ (dustOf spendRequest <= 0 -> change = 0 ->
      exists os script,
        payloadOutputs spendPayload = os ++ [mkPayloadOutput "0" (mkSpk 0 script)]).
Proof.
  apply (@output_amounts_positive samplePrimitives spendRequest spendPayload).
  vm_compute. reflexivity.
Defined.

(** X22: the change address is looked at only when a change output is
    made. When the change is below the dust threshold, the result, payload
    or error, does not depend on the change address, which may be any
    string. *)
Theorem change_address_unused_below_dust {P : Primitives} params address :
  inputTotal params - requestedTotal params - fee params < dustOf params ->
  buildSignedTransaction (withChangeAddress params address)
  = buildSignedTransaction params.
Proof.
  intros Hlt.
  assert (Hu : buildUnsigned (withChangeAddress params address) = buildUnsigned params).
  { unfold buildUnsigned, withChangeAddress.
    cbn [privateKey inputs outputs fee addressPrefixes dustThreshold changeAddress].
    destruct (negb (isValidPrivateKey (privateKey params))); [reflexivity |].
    destruct (Nat.eqb (List.length (inputs params)) 0); [reflexivity |].
    destruct (Nat.eqb (List.length (outputs params)) 0); [reflexivity |].
    destruct (toSafeBigInt (fee params) <? 0); [reflexivity |].
    destruct (inputLoop _ _ _ _) as [[t1 totalInput] | e1] eqn:E1; [| reflexivity].
    cbn [bind].
    destruct (outputLoop _ _ _ _) as [[t2 totalOutput] | e2] eqn:E2; [| reflexivity].
    cbn [bind].
    apply inputLoop_inv in E1. destruct E1 as (-> & _).
    apply outputLoop_inv in E2. destruct E2 as (-> & _).
    unfold inputTotal, requestedTotal, dustOf, toSafeBigInt in *.
    rewrite !Z.add_0_l.
    destruct (_ <? 0); [reflexivity |].
    match goal with |- context [?d <=? ?c] => destruct (Z.leb_spec d c) as [Hd | Hd] end;
      [lia | reflexivity]. }
  unfold buildSignedTransaction. rewrite Hu. reflexivity.
Qed.

Lemma change_address_unused_below_dust_witness :
  @buildSignedTransaction samplePrimitives (withChangeAddress dustRequest "not an address")
  = @buildSignedTransaction samplePrimitives dustRequest.
Proof.
  apply (@change_address_unused_below_dust samplePrimitives dustRequest "not an address").
  vm_compute. reflexivity.
Defined.

(** X23: signature scripts do not enter the signature hash. Replacing the
    inputs of a transaction by inputs that differ in their signature scripts
    only leaves the result of [calculateSigHash] unchanged, for every hash
    type and index; the order in which inputs are signed does not matter. *)
Theorem sighash_ignores_signature_scripts {P : Primitives} t ins hashType i :
  map eraseScript ins = map eraseScript (txInputs t) ->
  fst (calculateSigHash (withInputs t ins) hashType i emptyCache)
  = fst (calculateSigHash t hashType i emptyCache).
Proof.
  intros E. rewrite !calculateSigHash_empty.
  apply specSigHash_sameBody. unfold eraseTx, withInputs.
  cbn [txInputs txVersion txOutputs lockTime subnetworkId utxos]. rewrite E. reflexivity.
Qed.

Lemma sighash_ignores_signature_scripts_witness :
  let P := samplePrimitives in
  fst (calculateSigHash
         (withInputs spendTransaction
            (setSignatureScript (txInputs spendTransaction) 0 "41ff01"))
         SIGHASH_ALL 0 emptyCache)
  = fst (calculateSigHash spendTransaction SIGHASH_ALL 0 emptyCache).
Proof.
  intros P.
  apply (@sighash_ignores_signature_scripts samplePrimitives spendTransaction
           (setSignatureScript (txInputs spendTransaction) 0 "41ff01") SIGHASH_ALL 0%nat).
  reflexivity.
Defined.

(** X24: the outputs a signature hash depends on. With a hash type of kind
    NONE the result of [calculateSigHash] does not depend on the outputs;
    with a hash type of kind SINGLE it depends on them only through the
    output at the index of the input, or its absence. *)
Theorem sighash_outputs_commitment {P : Primitives} t outs hashType i :
  (isSigHashNone hashType = true ->
   fst (calculateSigHash (withOutputs t outs) hashType i emptyCache)
   = fst (calculateSigHash t hashType i emptyCache))
  /\ (isSigHashSingle hashType = true ->
      nth_error outs i = nth_error (txOutputs t) i ->
      fst (calculateSigHash (withOutputs t outs) hashType i emptyCache)
      = fst (calculateSigHash t hashType i emptyCache)).
Proof.
  rewrite !calculateSigHash_empty.
  unfold specSigHash, specOutputsHash, withOutputs.
  cbn [txInputs txVersion txOutputs lockTime subnetworkId utxos].
  split.
  - intros ->. reflexivity.
  - intros Hs E. rewrite Hs, E. reflexivity.
Qed.

(** X25: with the ANYONECANPAY flag, [calculateSigHash] depends on the
    inputs only through the input and the UTXO at the given index: two
    transactions with the same version, lock time and outputs that agree at
    this index have the same signature hash there. *)
Theorem sighash_anyonecanpay {P : Primitives} t1 t2 hashType i :
  isSigHashAnyoneCanPay hashType = true ->
  txVersion t1 = txVersion t2 -> lockTime t1 = lockTime t2 ->
  txOutputs t1 = txOutputs t2 ->
  nth_error (txInputs t1) i = nth_error (txInputs t2) i ->
  nth_error (utxos t1) i = nth_error (utxos t2) i ->
  fst (calculateSigHash t1 hashType i emptyCache)
  = fst (calculateSigHash t2 hashType i emptyCache).
Proof.
  intros Ha Ev El Eo Ei Eu. rewrite !calculateSigHash_empty.
  unfold specSigHash, specPreviousOutputsHash, specSequencesHash, specSigOpCountsHash,
    specOutputsHash.
  rewrite Ha, Ev, El, Eo, Ei, Eu, orb_true_r. reflexivity.
Qed.

Lemma sighash_anyonecanpay_witness :
  let P := samplePrimitives in
  let t2 := pushInput spendTransaction (mkInput sampleTxId 7 EmptyString 0 1)
              (mkUtxo [] 5) in
  fst (calculateSigHash spendTransaction 129 0 emptyCache)
  = fst (calculateSigHash t2 129 0 emptyCache).
Proof.
  intros P t2.
  apply (@sighash_anyonecanpay samplePrimitives spendTransaction t2 129 0%nat);
    reflexivity.
Defined.

(** * The store: coin selection and the send path *)









